(** * Autocomplete suggestions of the documentation sidebar

    A shallow embedding of [assets/js/autocomplete/suggestions.js]:
    the search of the sidebar index ([findIn], [findNested]), the
    flattening of the matches ([parseModuleResults], [serialize]) and the
    ranking and truncation done by [getSuggestions].

    Conventions.
    - A JavaScript string is a [string]; each character is one UTF-16 code
      unit below 256.
    - [undefined] and [null] fields are [None].
    - An exception ([TypeError]) is the second constructor of [Result].
    - An [Array] is a [list]; an object used as a map from ids to records
      is an association list kept in the property order of the language. *)

From Stdlib Require Import Strings.String Strings.Ascii Lists.List.
From Stdlib Require Import NArith.NArith ZArith.ZArith Arith.Arith Bool.Bool Lia.
From Stdlib Require Import Sorting.Sorted Sorting.Permutation.
Import ListNotations.

Open Scope string_scope.

(* ================================================================== *)
(** ** Results and exceptions *)

Inductive Result (A : Type) : Type :=
| Ok (a : A)
| TypeError.

Arguments Ok {A} a.
Arguments TypeError {A}.

Definition bind {A B : Type} (r : Result A) (k : A -> Result B) : Result B :=
  match r with
  | Ok a => k a
  | TypeError => TypeError
  end.

Notation "x <- r ;; k" := (bind r (fun x => k))
  (at level 61, r at next level, right associativity).

(* ================================================================== *)
(** ** Strings *)

Module Str.

Fixpoint take (n : nat) (s : string) : string :=
  match n, s with
  | S n', String c s' => String c (take n' s')
  | _, _ => EmptyString
  end.

Fixpoint drop (n : nat) (s : string) : string :=
  match n, s with
  | S n', String _ s' => drop n' s'
  | _, _ => s
  end.

(** [starts eqc pat s]: [pat] is read at the start of [s], characters
    being compared with [eqc]. *)
Fixpoint starts (eqc : ascii -> ascii -> bool) (pat s : string) : bool :=
  match pat, s with
  | EmptyString, _ => true
  | String p pat', String c s' => eqc p c && starts eqc pat' s'
  | String _ _, EmptyString => false
  end.

(** Leftmost position [>= i] (counted from [i] at the head of [s]) at
    which [pat] is read. *)
Fixpoint search (eqc : ascii -> ascii -> bool) (pat s : string) (i : nat)
  : option nat :=
  if starts eqc pat s then Some i
  else match s with
       | EmptyString => None
       | String _ s' => search eqc pat s' (S i)
       end.

(** [String.prototype.indexOf]: exact comparison of code units. *)
Definition indexOf (needle s : string) : option nat :=
  search Ascii.eqb needle s 0.

(** [String.prototype.split] with a one-character separator. *)
Fixpoint split (sep : ascii) (s : string) : list string :=
  match s with
  | EmptyString => [EmptyString]
  | String c s' =>
      if Ascii.eqb c sep then EmptyString :: split sep s'
      else match split sep s' with
           | seg :: rest => String c seg :: rest
           | [] => [String c EmptyString]
           end
  end.

(** [Array.prototype.pop] read for its value on the array of segments. *)
Definition pop (l : list string) : string := List.last l EmptyString.

(** WhiteSpace and LineTerminator code units below 256: TAB, LF, VT, FF,
    CR, SP and NBSP. *)
Definition isWhiteSpace (c : ascii) : bool :=
  let n := N_of_ascii c in
  ((9 <=? n) && (n <=? 13) || (n =? 32) || (n =? 160))%N.

Fixpoint trimStart (s : string) : string :=
  match s with
  | String c s' => if isWhiteSpace c then trimStart s' else s
  | EmptyString => EmptyString
  end.

Fixpoint trimEnd (s : string) : string :=
  match s with
  | EmptyString => EmptyString
  | String c s' =>
      match trimEnd s' with
      | EmptyString => if isWhiteSpace c then EmptyString
                       else String c EmptyString
      | t => String c t
      end
  end.

(** Every character of [s] satisfies [P]. *)
Fixpoint all_chars (P : ascii -> bool) (s : string) : bool :=
  match s with
  | EmptyString => true
  | String c s' => P c && all_chars P s'
  end.

(** [String.prototype.trim]. *)
Definition trim (s : string) : string := trimEnd (trimStart s).

(** GetSubstitution of ECMA-262 for a search by string: there are no
    captures, so only [$$], [$&], [$`] and [$'] are patterns and every
    other [$] stands for itself. *)
Fixpoint GetSubstitution (matched before after replacement : string)
  : string :=
  match replacement with
  | EmptyString => EmptyString
  | String c r1 =>
      if Ascii.eqb c "$" then
        match r1 with
        | EmptyString => String c EmptyString
        | String d r2 =>
            if Ascii.eqb d "$" then
              String "$" (GetSubstitution matched before after r2)
            else if Ascii.eqb d "&" then
              matched ++ GetSubstitution matched before after r2
            else if Ascii.eqb d "`" then
              before ++ GetSubstitution matched before after r2
            else if Ascii.eqb d "'" then
              after ++ GetSubstitution matched before after r2
            else String c (GetSubstitution matched before after r1)
        end
      else String c (GetSubstitution matched before after r1)
  end.

(** [String.prototype.replace] with a string pattern and a string
    replacement: the first exact occurrence only. *)
Definition replace (s searchString replaceValue : string) : string :=
  match indexOf searchString s with
  | None => s
  | Some pos =>
      let before := take pos s in
      let after := drop (pos + String.length searchString) s in
      before ++ GetSubstitution searchString before after replaceValue
             ++ after
  end.

End Str.

(* ================================================================== *)
(** ** Regular expressions built from an escaped term *)

(** Canonicalize of ECMA-262 (22.2.5.6) for a pattern without the [u]
    flag, on code units below 256: the upper-case of the character when
    that is one code unit, except that a character from 128 on is never
    sent below 128.  Micro sign and y-diaeresis have their upper case
    above 255. *)
Definition Canonicalize (ch : ascii) : N :=
  let n := N_of_ascii ch in
  if ((97 <=? n) && (n <=? 122))%N then (n - 32)%N
  else if ((224 <=? n) && (n <=? 254) && negb (n =? 247))%N then (n - 32)%N
  else if (n =? 181)%N then 924%N
  else if (n =? 255)%N then 376%N
  else n.

Definition eq_ignoreCase (a b : ascii) : bool :=
  (Canonicalize a =? Canonicalize b)%N.

(** Modelled from the spec: [helpers.escapeText] (module [../helpers]) is
    not part of the sources at hand.  The spec says that it neutralises
    every regex metacharacter of the term, so that the expression
    [new RegExp(helpers.escapeText(term), 'i')] reads the term literally,
    ignoring case.  Such an expression is determined by the term it was
    built from. *)
Record RegExp : Type := { literal : string }.

Definition escaped_RegExp_i (term : string) : RegExp := {| literal := term |}.

(** The array returned by a successful [String.prototype.match]: the
    matched text (element 0; an escaped term has no capture group), with
    its [index] and [input] properties. *)
Record Match : Type := {
  m_0 : string;
  m_index : nat;
  m_input : string
}.

(** [s.match(matcher)]; [None] is [null]. *)
Definition str_match (s : string) (matcher : RegExp) : option Match :=
  match Str.search eq_ignoreCase (literal matcher) s 0 with
  | Some i =>
      Some {| m_0 := Str.take (String.length (literal matcher)) (Str.drop i s);
              m_index := i;
              m_input := s |}
  | None => None
  end.

(** [x && x.match(matcher)] for a string or absent [x]: the falsy values
    ([undefined], the empty string, [null]) are all [None]. *)
Definition and_match (x : option string) (matcher : RegExp) : option Match :=
  match x with
  | None => None
  | Some s => if String.eqb s "" then None else str_match s matcher
  end.

(** [highlight (match)]: the pattern given to [replace] is the array
    [match], which [replace] converts to the string [match[0]].  On a
    falsy argument, reading [match.input.replace] throws. *)
Definition highlight (m : option Match) : Result string :=
  match m with
  | Some m => Ok (Str.replace (m_input m) (m_0 m) ("<em>" ++ m_0 m ++ "</em>"))
  | None => TypeError
  end.

(* ================================================================== *)
(** ** Objects used as maps, and arrays *)

Module Obj.

(** An object whose own properties are all enumerable data properties:
    the pairs are kept in the order in which [Object.values] and
    [for ... in] visit them (array indices in ascending numeric order,
    then the other keys in the order of their creation). *)
Definition t (A : Type) : Type := list (string * A).

Definition digit (c : ascii) : option N :=
  let n := N_of_ascii c in
  if ((48 <=? n) && (n <=? 57))%N then Some (n - 48)%N else None.

Fixpoint digits (s : string) (acc : N) : option N :=
  match s with
  | EmptyString => Some acc
  | String c s' =>
      match digit c with
      | Some d => digits s' (10 * acc + d)%N
      | None => None
      end
  end.

(** The key is an array index: a canonical numeric string below
    [2^32 - 1]. *)
Definition arrayIndex (k : string) : option N :=
  match k with
  | EmptyString => None
  | String c k' =>
      if Ascii.eqb c "0" then
        if String.eqb k' "" then Some 0%N else None
      else match digits k 0 with
           | Some n => if (n <? 4294967295)%N then Some n else None
           | None => None
           end
  end.

Definition hasOwn {A} (o : t A) (k : string) : bool :=
  existsb (fun kv => String.eqb (fst kv) k) o.

(** The properties every object literal inherits from
    [Object.prototype]; each holds a function or an object. *)
Definition Object_prototype : list string :=
  [ "constructor"; "hasOwnProperty"; "isPrototypeOf";
    "propertyIsEnumerable"; "toLocaleString"; "toString"; "valueOf";
    "__proto__"; "__defineGetter__"; "__defineSetter__";
    "__lookupGetter__"; "__lookupSetter__" ].

(** Truth value of [o[k]] when every own value of [o] is an object:
    the lookup follows the prototype chain. *)
Definition truthy {A} (o : t A) (k : string) : bool :=
  hasOwn o k || existsb (String.eqb k) Object_prototype.

Fixpoint overwrite {A} (k : string) (v : A) (o : t A) : t A :=
  match o with
  | [] => []
  | (k', v') :: o' =>
      if String.eqb k' k then (k', v) :: o' else (k', v') :: overwrite k v o'
  end.

Fixpoint insertIndex {A} (n : N) (k : string) (v : A) (o : t A) : t A :=
  match o with
  | [] => [(k, v)]
  | (k', v') :: o' =>
      match arrayIndex k' with
      | Some n' =>
          if (n' <? n)%N then (k', v') :: insertIndex n k v o'
          else (k, v) :: o
      | None => (k, v) :: o
      end
  end.

(** [o[k] = v]. *)
Definition set {A} (o : t A) (k : string) (v : A) : t A :=
  if hasOwn o k then overwrite k v o
  else match arrayIndex k with
       | Some n => insertIndex n k v o
       | None => (o ++ [(k, v)])%list
       end.

(** [Object.keys(o).length > 0]. *)
Definition nonEmpty {A} (o : t A) : bool :=
  match o with [] => false | _ :: _ => true end.

(** [Object.values(o)]. *)
Definition values {A} (o : t A) : list A := map snd o.

End Obj.

Module Arr.

Section Sort.
Context {A : Type}.
Variable comparefn : A -> A -> Z.

Fixpoint insert (x : A) (l : list A) : list A :=
  match l with
  | [] => [x]
  | y :: l' =>
      if (comparefn x y <=? 0)%Z then x :: l else y :: insert x l'
  end.

(** [Array.prototype.sort (comparefn)]: the sort is stable (ECMA-262
    from the 2019 edition on), and under a consistent comparison
    function every stable sort returns the same array; insertion is
    one of them. *)
Fixpoint sort (l : list A) : list A :=
  match l with
  | [] => []
  | x :: l' => insert x (sort l')
  end.
End Sort.

(** [l.slice(0, n)]. *)
Definition slice0 {A} (n : nat) (l : list A) : list A := firstn n l.

End Arr.

(* ================================================================== *)
(** ** The sidebar index and the results *)

(** A function, callback or type of the sidebar ([types], [callbacks] or
    any other group of a module).  Only the fields the search reads or
    writes are kept; [node_label] and [node_match] are absent from the
    records of a well-formed index and are set on the copies. *)
Record Node : Type := {
  node_id : string;
  node_anchor : option string;
  node_label : option string;
  node_match : option string
}.

(** The [key] of a node group.  [other] is any key that is not the name
    of a property of the result under construction. *)
Inductive Key : Type := functions | callbacks | types | other.

Record Entry : Type := {
  entry_id : string;
  entry_title : option string;
  entry_nodeGroups : list (Key * list Node)
}.

Record SidebarNodes : Type := {
  modules : list Entry;
  exceptions : list Entry;
  tasks : list Entry
}.

Inductive Category : Type := Module_ | Child | Exception | Mix_Task.

Definition Category_name (c : Category) : string :=
  match c with
  | Module_ => "Module"
  | Child => "Child"
  | Exception => "Exception"
  | Mix_Task => "Mix Task"
  end.

(** The object [result] that [findIn] builds for one element, while the
    node groups still are maps from ids to copies. *)
Record Found : Type := {
  found_id : string;
  found_match : option string;
  found_functions : option (Obj.t Node);
  found_callbacks : option (Obj.t Node);
  found_types : option (Obj.t Node)
}.

(** The same object once returned: the groups are sorted arrays.
    [addCategory] sets [res_category]. *)
Record ModuleResults : Type := {
  res_id : string;
  res_match : option string;
  res_functions : option (list Node);
  res_callbacks : option (list Node);
  res_types : option (list Node);
  res_category : option Category
}.

(** What [isMatch] and [serialize] read of their argument, which is a
    module result or a node. *)
Record Item : Type := {
  item_id : string;
  item_match : option string;
  item_anchor : option string;
  item_label : option string;
  item_category : option Category
}.

Definition Item_of_Node (n : Node) : Item :=
  {| item_id := node_id n; item_match := node_match n;
     item_anchor := node_anchor n; item_label := node_label n;
     item_category := None |}.

Definition Item_of_ModuleResults (r : ModuleResults) : Item :=
  {| item_id := res_id r; item_match := res_match r;
     item_anchor := None; item_label := None;
     item_category := res_category r |}.

Record SuggestionItem : Type := {
  link : string;
  title : option string;
  description : option string;
  label : option string;
  category : option Category
}.

(* ================================================================== *)
(** ** suggestions.js *)

Definition resultsCount : nat := 5.

Definition sortingPriority (c : Category) : Z :=
  match c with
  | Module_ => 3
  | Child => 2
  | Exception => 1
  | Mix_Task => 0
  end.

(** [sortingPriority[category] || -1]: an absent category has no
    priority, and the priority [0] is falsy. *)
Definition weight (category : option Category) : Z :=
  match category with
  | Some c => if (sortingPriority c =? 0)%Z then (-1)%Z else sortingPriority c
  | None => (-1)%Z
  end.

Definition option_string_eqb (a b : option string) : bool :=
  match a, b with
  | Some x, Some y => String.eqb x y
  | None, None => true
  | _, _ => false
  end.

Definition isMatch (item : Item) : bool :=
  negb (option_string_eqb (item_match item) (Some (item_id item))).

(** Truth value of a string or absent field. *)
Definition truthy (x : option string) : bool :=
  match x with
  | Some s => negb (String.eqb s "")
  | None => false
  end.

Definition serialize (item : Item) (moduleId : string) (isChild : bool)
  : SuggestionItem :=
  let anchor := if isChild then item_anchor item else Some "" in
  let category := if isChild then Some Child else item_category item in
  let description := if isChild then Some moduleId else None in
  let label := if truthy (item_label item) then item_label item else None in
  let link :=
    match anchor with
    | Some a => if String.eqb a "" then moduleId ++ ".html"
                else moduleId ++ ".html#" ++ a
    | None => moduleId ++ ".html"
    end in
  {| link := link; title := item_match item; description := description;
     label := label; category := category |}.

Definition set_label (item : Node) (labelName : string) : Node :=
  {| node_id := node_id item; node_anchor := node_anchor item;
     node_label := Some labelName; node_match := node_match item |}.

Definition set_match (item : Node) (m : string) : Node :=
  {| node_id := node_id item; node_anchor := node_anchor item;
     node_label := node_label item; node_match := Some m |}.

Definition addLabel (items : list Node) (labelName : string) : list Node :=
  map (fun item => set_label item labelName) items.

Definition addCategory (modules : list ModuleResults) (categoryName : Category)
  : list ModuleResults :=
  map (fun module =>
         {| res_id := res_id module; res_match := res_match module;
            res_functions := res_functions module;
            res_callbacks := res_callbacks module;
            res_types := res_types module;
            res_category := Some categoryName |}) modules.

(** [x || []]. *)
Definition or_empty {A} (x : option (list A)) : list A :=
  match x with Some l => l | None => [] end.

Definition parseModuleResults (moduleResults : ModuleResults)
  : list SuggestionItem :=
  let functions := or_empty (res_functions moduleResults) in
  let callbacks := or_empty (res_callbacks moduleResults) in
  let types := or_empty (res_types moduleResults) in
  let types := addLabel types "type" in
  let callbacks := addLabel callbacks "callback" in
  let results :=
    map (fun item => serialize (Item_of_Node item) (res_id moduleResults) true)
        (filter (fun item => isMatch (Item_of_Node item))
                (functions ++ callbacks ++ types)%list) in
  if isMatch (Item_of_ModuleResults moduleResults) then
    serialize (Item_of_ModuleResults moduleResults) (res_id moduleResults) false
      :: results
  else results.

(** A template literal or a concatenation turns an absent value into the
    text [undefined]. *)
Definition ToString (x : option string) : string :=
  match x with Some s => s | None => "undefined" end.

Definition isSome {A} (x : option A) : bool :=
  match x with Some _ => true | None => false end.

(** [JSON.parse (JSON.stringify (element))]: a new record with the same
    fields (absent fields stay absent). *)
Definition JSON_copy (element : Node) : Node :=
  {| node_id := node_id element; node_anchor := node_anchor element;
     node_label := node_label element; node_match := node_match element |}.

(** The callback of [reduce] assigns to [term], a variable of the
    enclosing call: the term is threaded through the elements. *)
Fixpoint findNested_from (elements : list Node) (parentId : option string)
    (matcher : RegExp) (term : string) (acc : Obj.t Node)
  : Result (Obj.t Node) :=
  match elements with
  | [] => Ok acc
  | element :: elements' =>
      if Obj.truthy acc (node_id element) then
        findNested_from elements' parentId matcher term acc
      else
        let fullTitle := ToString parentId ++ "." ++ node_id element in
        let fullTitleMatch :=
          negb (isSome (str_match (ToString parentId ++ ".") matcher))
          && isSome (str_match fullTitle matcher) in
        let match_ := and_match (Some (node_id element)) matcher in
        let result := JSON_copy element in
        if isSome match_ then
          m <- highlight match_ ;;
          findNested_from elements' parentId matcher term
            (Obj.set acc (node_id result) (set_match result m))
        else if fullTitleMatch then
          let term := Str.pop (Str.split "." term) in
          let matcherWithoutParent := escaped_RegExp_i term in
          let matchWithoutParent :=
            and_match (Some (node_id element)) matcherWithoutParent in
          m <- highlight matchWithoutParent ;;
          findNested_from elements' parentId matcher term
            (Obj.set acc (node_id result) (set_match result m))
        else
          findNested_from elements' parentId matcher term
            (Obj.set acc (node_id result)
                     (set_match result (node_id element)))
  end.

Definition findNested (elements : list Node) (parentId : option string)
    (matcher : RegExp) (term : string) (acc : option (Obj.t Node))
  : Result (Obj.t Node) :=
  findNested_from elements parentId matcher term
    (match acc with Some o => o | None => [] end).

(** [result[key]] and the assignment made after a non-empty search. *)
Definition found_get (result : Found) (key : Key) : option (Obj.t Node) :=
  match key with
  | functions => found_functions result
  | callbacks => found_callbacks result
  | types => found_types result
  | other => None
  end.

Definition found_store (result : Found) (key : Key) (matches : Obj.t Node)
  : Found :=
  match key with
  | types =>
      {| found_id := found_id result; found_match := found_match result;
         found_functions := found_functions result;
         found_callbacks := found_callbacks result;
         found_types := Some matches |}
  | callbacks =>
      {| found_id := found_id result; found_match := found_match result;
         found_functions := found_functions result;
         found_callbacks := Some matches;
         found_types := found_types result |}
  | _ =>
      {| found_id := found_id result; found_match := found_match result;
         found_functions := Some matches;
         found_callbacks := found_callbacks result;
         found_types := found_types result |}
  end.

Section Collation.

(** [String.prototype.localeCompare] depends on the locale of the
    host; the development is parametric in it. *)
Variable localeCompare : string -> string -> Z.

Definition sortNodes (o : Obj.t Node) : list Node :=
  Arr.sort (fun a b => localeCompare (node_id a) (node_id b)) (Obj.values o).

(** The loop over [element.nodeGroups]. *)
Fixpoint findIn_groups (nodeGroups : list (Key * list Node))
    (title : option string) (matcher : RegExp) (term : string)
    (result : Found) (hasMatch : bool) : Result (Found * bool) :=
  match nodeGroups with
  | [] => Ok (result, hasMatch)
  | (key, nodes) :: nodeGroups' =>
      matches <- findNested nodes title matcher term (found_get result key) ;;
      if Obj.nonEmpty matches then
        findIn_groups nodeGroups' title matcher term
          (found_store result key matches) true
      else
        findIn_groups nodeGroups' title matcher term result hasMatch
  end.

(** The callback given to [map] in [findIn]; [None] is [undefined]. *)
Definition findIn_element (matcher : RegExp) (term : string)
    (element : Entry) : Result (option ModuleResults) :=
  let title := entry_title element in
  let titleMatch := and_match title matcher in
  match_ <- (if isSome titleMatch
             then m <- highlight titleMatch ;; Ok (Some m)
             else Ok (entry_title element)) ;;
  let result :=
    {| found_id := entry_id element; found_match := match_;
       found_functions := None; found_callbacks := None;
       found_types := None |} in
  let hasMatch := isSome titleMatch in
  rh <- findIn_groups (entry_nodeGroups element) title matcher term
          result hasMatch ;;
  let '(result, hasMatch) := rh in
  if hasMatch then
    Ok (Some {| res_id := found_id result;
                res_match := found_match result;
                res_functions := option_map sortNodes (found_functions result);
                res_callbacks := option_map sortNodes (found_callbacks result);
                res_types := option_map sortNodes (found_types result);
                res_category := None |})
  else Ok None.

(** [elements.map (callback).filter ((element) => !!element)]. *)
Fixpoint map_filter (matcher : RegExp) (term : string)
    (elements : list Entry) : Result (list ModuleResults) :=
  match elements with
  | [] => Ok []
  | element :: elements' =>
      r <- findIn_element matcher term element ;;
      rs <- map_filter matcher term elements' ;;
      Ok (match r with Some x => x :: rs | None => rs end)
  end.

Definition findIn (elements : list Entry) (term : string)
  : Result (list ModuleResults) :=
  let matcher := escaped_RegExp_i term in
  map_filter matcher term elements.

(** The results before they are sorted. *)
Definition flattened (sidebarNodes : SidebarNodes) (term : string)
  : Result (list SuggestionItem) :=
  let nodes := sidebarNodes in
  modules <- findIn (modules nodes) term ;;
  exceptions <- findIn (exceptions nodes) term ;;
  tasks <- findIn (tasks nodes) term ;;
  let modules := addCategory modules Module_ in
  let exceptions := addCategory exceptions Exception in
  let tasks := addCategory tasks Mix_Task in
  let results := (modules ++ exceptions ++ tasks)%list in
  Ok (fold_left
        (fun acc moduleResults =>
           (acc ++ parseModuleResults moduleResults)%list)
        results []).

Definition compareItems (item1 item2 : SuggestionItem) : Z :=
  let weight1 := weight (category item1) in
  let weight2 := weight (category item2) in
  (weight2 - weight1)%Z.

Definition getSuggestions (sidebarNodes : SidebarNodes) (term : string)
  : Result (list SuggestionItem) :=
  if Nat.eqb (String.length (Str.trim term)) 0 then Ok []
  else
    results <- flattened sidebarNodes term ;;
    let results := Arr.sort compareItems results in
    Ok (Arr.slice0 resultsCount results).

End Collation.

(** A collation for closed examples: the order of the code units. *)
Definition codeUnitCompare (a b : string) : Z :=
  match String.compare a b with
  | Lt => (-1)%Z
  | Eq => 0%Z
  | Gt => 1%Z
  end.


(* ================================================================== *)
(** ** The same code over a heap of node records

    The records of the sidebar are objects that the index and the
    results may share.  Here they live in a heap and the index holds
    their addresses: [JSON.parse (JSON.stringify (element))] allocates,
    [result.match = ...] and [item.label = ...] write.  The other objects
    that the code writes to (the object literals [result] of [findIn],
    the accumulators, the arrays) are created by the call itself and are
    kept as values. *)

Module Mem.

Definition addr : Type := nat.

(** An address is a position in the heap. *)
Definition heap : Type := list Node.

Definition M (A : Type) : Type := heap -> Result (A * heap).

Definition ret {A} (a : A) : M A := fun h => Ok (a, h).

Definition bind {A B} (m : M A) (k : A -> M B) : M B :=
  fun h => match m h with
           | Ok (a, h') => k a h'
           | TypeError => TypeError
           end.

Definition lift {A} (r : Result A) : M A :=
  fun h => match r with
           | Ok a => Ok (a, h)
           | TypeError => TypeError
           end.

Notation "x <~ m ;; k" := (bind m (fun x => k))
  (at level 61, m at next level, right associativity).

Fixpoint update (h : heap) (a : addr) (n : Node) : heap :=
  match h, a with
  | [], _ => []
  | _ :: h', O => n :: h'
  | x :: h', S a' => x :: update h' a' n
  end.

(** Reading a property of what is not an object throws. *)
Definition read (a : addr) : M Node :=
  fun h => match nth_error h a with
           | Some n => Ok (n, h)
           | None => TypeError
           end.

Definition alloc (n : Node) : M addr :=
  fun h => Ok (List.length h, (h ++ [n])%list).

Definition write (a : addr) (f : Node -> Node) : M unit :=
  fun h => match nth_error h a with
           | Some n => Ok (tt, update h a (f n))
           | None => TypeError
           end.

Fixpoint mapM {A B} (f : A -> M B) (l : list A) : M (list B) :=
  match l with
  | [] => ret []
  | x :: l' => y <~ f x ;; ys <~ mapM f l' ;; ret (y :: ys)
  end.

Record Entry : Type := {
  entry_id : string;
  entry_title : option string;
  entry_nodeGroups : list (Key * list addr)
}.

Record SidebarNodes : Type := {
  modules : list Entry;
  exceptions : list Entry;
  tasks : list Entry
}.

Record Found : Type := {
  found_id : string;
  found_match : option string;
  found_functions : option (Obj.t addr);
  found_callbacks : option (Obj.t addr);
  found_types : option (Obj.t addr)
}.

Record ModuleResults : Type := {
  res_id : string;
  res_match : option string;
  res_functions : option (list addr);
  res_callbacks : option (list addr);
  res_types : option (list addr);
  res_category : option Category
}.

Definition Item_of_ModuleResults (r : ModuleResults) : Item :=
  {| item_id := res_id r; item_match := res_match r;
     item_anchor := None; item_label := None;
     item_category := res_category r |}.

Definition addLabel (items : list addr) (labelName : string)
  : M (list addr) :=
  mapM (fun item =>
          _ <~ write item (fun r => set_label r labelName) ;; ret item)
       items.

Definition addCategory (modules : list ModuleResults)
    (categoryName : Category) : list ModuleResults :=
  map (fun module =>
         {| res_id := res_id module; res_match := res_match module;
            res_functions := res_functions module;
            res_callbacks := res_callbacks module;
            res_types := res_types module;
            res_category := Some categoryName |}) modules.

Definition parseModuleResults (moduleResults : ModuleResults)
  : M (list SuggestionItem) :=
  let functions := or_empty (res_functions moduleResults) in
  let callbacks := or_empty (res_callbacks moduleResults) in
  let types := or_empty (res_types moduleResults) in
  types <~ addLabel types "type" ;;
  callbacks <~ addLabel callbacks "callback" ;;
  items <~ mapM read (functions ++ callbacks ++ types)%list ;;
  let results :=
    map (fun item =>
           serialize (Item_of_Node item) (res_id moduleResults) true)
        (filter (fun item => isMatch (Item_of_Node item)) items) in
  ret (if isMatch (Item_of_ModuleResults moduleResults) then
         serialize (Item_of_ModuleResults moduleResults)
           (res_id moduleResults) false :: results
       else results).

(** [element] is the record read at the address; until the end of the
    step the code writes to the copy only. *)
Fixpoint findNested_from (elements : list addr) (parentId : option string)
    (matcher : RegExp) (term : string) (acc : Obj.t addr)
  : M (Obj.t addr) :=
  match elements with
  | [] => ret acc
  | e :: elements' =>
      element <~ read e ;;
      if Obj.truthy acc (node_id element) then
        findNested_from elements' parentId matcher term acc
      else
        let fullTitle := ToString parentId ++ "." ++ node_id element in
        let fullTitleMatch :=
          negb (isSome (str_match (ToString parentId ++ ".") matcher))
          && isSome (str_match fullTitle matcher) in
        let match_ := and_match (Some (node_id element)) matcher in
        result <~ alloc (JSON_copy element) ;;
        if isSome match_ then
          m <~ lift (highlight match_) ;;
          _ <~ write result (fun r => set_match r m) ;;
          r <~ read result ;;
          findNested_from elements' parentId matcher term
            (Obj.set acc (node_id r) result)
        else if fullTitleMatch then
          let term := Str.pop (Str.split "." term) in
          let matcherWithoutParent := escaped_RegExp_i term in
          let matchWithoutParent :=
            and_match (Some (node_id element)) matcherWithoutParent in
          m <~ lift (highlight matchWithoutParent) ;;
          _ <~ write result (fun r => set_match r m) ;;
          r <~ read result ;;
          findNested_from elements' parentId matcher term
            (Obj.set acc (node_id r) result)
        else
          _ <~ write result (fun r => set_match r (node_id element)) ;;
          r <~ read result ;;
          findNested_from elements' parentId matcher term
            (Obj.set acc (node_id r) result)
  end.

Definition findNested (elements : list addr) (parentId : option string)
    (matcher : RegExp) (term : string) (acc : option (Obj.t addr))
  : M (Obj.t addr) :=
  findNested_from elements parentId matcher term
    (match acc with Some o => o | None => [] end).

Definition found_get (result : Found) (key : Key) : option (Obj.t addr) :=
  match key with
  | functions => found_functions result
  | callbacks => found_callbacks result
  | types => found_types result
  | other => None
  end.

Definition found_store (result : Found) (key : Key) (matches : Obj.t addr)
  : Found :=
  match key with
  | types =>
      {| found_id := found_id result; found_match := found_match result;
         found_functions := found_functions result;
         found_callbacks := found_callbacks result;
         found_types := Some matches |}
  | callbacks =>
      {| found_id := found_id result; found_match := found_match result;
         found_functions := found_functions result;
         found_callbacks := Some matches;
         found_types := found_types result |}
  | _ =>
      {| found_id := found_id result; found_match := found_match result;
         found_functions := Some matches;
         found_callbacks := found_callbacks result;
         found_types := found_types result |}
  end.

Section Collation.
Variable localeCompare : string -> string -> Z.

(** The comparison reads the ids of the two records. *)
Definition sortNodes (o : Obj.t addr) : M (list addr) :=
  nodes <~ mapM (fun a => n <~ read a ;; ret (a, n)) (Obj.values o) ;;
  ret (map fst
         (Arr.sort (fun a b => localeCompare (node_id (snd a))
                                 (node_id (snd b))) nodes)).

Definition sortGroup (x : option (Obj.t addr)) : M (option (list addr)) :=
  match x with
  | Some o => l <~ sortNodes o ;; ret (Some l)
  | None => ret None
  end.

Fixpoint findIn_groups (nodeGroups : list (Key * list addr))
    (title : option string) (matcher : RegExp) (term : string)
    (result : Found) (hasMatch : bool) : M (Found * bool) :=
  match nodeGroups with
  | [] => ret (result, hasMatch)
  | (key, nodes) :: nodeGroups' =>
      matches <~ findNested nodes title matcher term
                   (found_get result key) ;;
      if Obj.nonEmpty matches then
        findIn_groups nodeGroups' title matcher term
          (found_store result key matches) true
      else
        findIn_groups nodeGroups' title matcher term result hasMatch
  end.

Definition findIn_element (matcher : RegExp) (term : string)
    (element : Entry) : M (option ModuleResults) :=
  let title := entry_title element in
  let titleMatch := and_match title matcher in
  match_ <~ lift (if isSome titleMatch
                  then m <- highlight titleMatch ;; Ok (Some m)
                  else Ok (entry_title element)) ;;
  let result :=
    {| found_id := entry_id element; found_match := match_;
       found_functions := None; found_callbacks := None;
       found_types := None |} in
  let hasMatch := isSome titleMatch in
  rh <~ findIn_groups (entry_nodeGroups element) title matcher term
          result hasMatch ;;
  let '(result, hasMatch) := rh in
  if hasMatch then
    fs <~ sortGroup (found_functions result) ;;
    cs <~ sortGroup (found_callbacks result) ;;
    ts <~ sortGroup (found_types result) ;;
    ret (Some {| res_id := found_id result;
                 res_match := found_match result;
                 res_functions := fs;
                 res_callbacks := cs;
                 res_types := ts;
                 res_category := None |})
  else ret None.

Fixpoint map_filter (matcher : RegExp) (term : string)
    (elements : list Entry) : M (list ModuleResults) :=
  match elements with
  | [] => ret []
  | element :: elements' =>
      r <~ findIn_element matcher term element ;;
      rs <~ map_filter matcher term elements' ;;
      ret (match r with Some x => x :: rs | None => rs end)
  end.

Definition findIn (elements : list Entry) (term : string)
  : M (list ModuleResults) :=
  let matcher := escaped_RegExp_i term in
  map_filter matcher term elements.

Fixpoint reduce_parse (results : list ModuleResults)
    (acc : list SuggestionItem) : M (list SuggestionItem) :=
  match results with
  | [] => ret acc
  | moduleResults :: results' =>
      items <~ parseModuleResults moduleResults ;;
      reduce_parse results' (acc ++ items)%list
  end.

Definition getSuggestions (sidebarNodes : SidebarNodes) (term : string)
  : M (list SuggestionItem) :=
  if Nat.eqb (String.length (Str.trim term)) 0 then ret []
  else
    let nodes := sidebarNodes in
    modules <~ findIn (modules nodes) term ;;
    exceptions <~ findIn (exceptions nodes) term ;;
    tasks <~ findIn (tasks nodes) term ;;
    let modules := addCategory modules Module_ in
    let exceptions := addCategory exceptions Exception in
    let tasks := addCategory tasks Mix_Task in
    let results := (modules ++ exceptions ++ tasks)%list in
    results <~ reduce_parse results [] ;;
    let results := Arr.sort compareItems results in
    ret (Arr.slice0 resultsCount results).
End Collation.

End Mem.

Notation "x <~ m ;; k" := (Mem.bind m (fun x => k))
  (at level 61, m at next level, right associativity).

(** *** The index that a heap holds *)

Definition absent : Node :=
  {| node_id := ""; node_anchor := None; node_label := None;
     node_match := None |}.

Definition load_nodes (h : Mem.heap) (l : list Mem.addr) : list Node :=
  map (fun a => nth a h absent) l.

Definition load_entry (h : Mem.heap) (e : Mem.Entry) : Entry :=
  {| entry_id := Mem.entry_id e; entry_title := Mem.entry_title e;
     entry_nodeGroups :=
       map (fun g => (fst g, load_nodes h (snd g))) (Mem.entry_nodeGroups e) |}.

Definition load (h : Mem.heap) (nodes : Mem.SidebarNodes) : SidebarNodes :=
  {| modules := map (load_entry h) (Mem.modules nodes);
     exceptions := map (load_entry h) (Mem.exceptions nodes);
     tasks := map (load_entry h) (Mem.tasks nodes) |}.

(** Every address of the index is the address of a record. *)
Definition wf_entry (h : Mem.heap) (e : Mem.Entry) : Prop :=
  Forall (fun g => Forall (fun a => a < List.length h) (snd g))
         (Mem.entry_nodeGroups e).

Definition wf (h : Mem.heap) (nodes : Mem.SidebarNodes) : Prop :=
  Forall (wf_entry h) (Mem.modules nodes)
  /\ Forall (wf_entry h) (Mem.exceptions nodes)
  /\ Forall (wf_entry h) (Mem.tasks nodes).

(* ================================================================== *)
(** ** Vocabulary of the simulation *)
Module Sim.
(** [At h a n]: the heap [h] holds the record [n] at the address [a]. *)
Definition At (h : Mem.heap) (a : Mem.addr) (n : Node) : Prop :=
  nth_error h a = Some n.

Definition ListR (h : Mem.heap) (l_h : list Mem.addr) (l : list Node) : Prop :=
  Forall2 (At h) l_h l.

(** An object of addresses holds, key by key, the records of an object
    of records. *)
Definition ObjR (h : Mem.heap) (o_h : Obj.t Mem.addr) (o : Obj.t Node) : Prop :=
  Forall2 (fun ka kn => fst ka = fst kn /\ At h (snd ka) (snd kn)) o_h o.

Definition OptR {A B} (R : A -> B -> Prop) (x : option A) (y : option B)
  : Prop :=
  match x, y with
  | Some a, Some b => R a b
  | None, None => True
  | _, _ => False
  end.

(** An address of the list [old], or one allocated from [lo] up to [hi]. *)
Definition fresh_or (old : list Mem.addr) (lo hi : nat) (a : Mem.addr) : Prop :=
  In a old \/ lo <= a < hi.

(** Distinct addresses, all from [lo] up to [hi]. *)
Definition within (lo hi : nat) (l : list Mem.addr) : Prop :=
  NoDup l /\ forall a, In a l -> lo <= a < hi.

Definition ovalues (x : option (Obj.t Mem.addr)) : list Mem.addr :=
  match x with Some o => Obj.values o | None => [] end.

Definition found_addrs (f : Mem.Found) : list Mem.addr :=
  (ovalues (Mem.found_functions f) ++ ovalues (Mem.found_callbacks f)
     ++ ovalues (Mem.found_types f))%list.

Definition FoundR (h : Mem.heap) (f_h : Mem.Found) (f : Found) : Prop :=
  Mem.found_id f_h = found_id f
  /\ Mem.found_match f_h = found_match f
  /\ OptR (ObjR h) (Mem.found_functions f_h) (found_functions f)
  /\ OptR (ObjR h) (Mem.found_callbacks f_h) (found_callbacks f)
  /\ OptR (ObjR h) (Mem.found_types f_h) (found_types f).

Definition res_addrs (r : Mem.ModuleResults) : list Mem.addr :=
  (or_empty (Mem.res_functions r) ++ or_empty (Mem.res_callbacks r)
     ++ or_empty (Mem.res_types r))%list.

Definition ResR (h : Mem.heap) (r_h : Mem.ModuleResults) (r : ModuleResults)
  : Prop :=
  Mem.res_id r_h = res_id r
  /\ Mem.res_match r_h = res_match r
  /\ Mem.res_category r_h = res_category r
  /\ OptR (ListR h) (Mem.res_functions r_h) (res_functions r)
  /\ OptR (ListR h) (Mem.res_callbacks r_h) (res_callbacks r)
  /\ OptR (ListR h) (Mem.res_types r_h) (res_types r).

Definition GroupR (h : Mem.heap) (g_h : Key * list Mem.addr)
    (g : Key * list Node) : Prop :=
  fst g_h = fst g /\ ListR h (snd g_h) (snd g).

Definition EntryR (h : Mem.heap) (e_h : Mem.Entry) (e : Entry) : Prop :=
  Mem.entry_id e_h = entry_id e
  /\ Mem.entry_title e_h = entry_title e
  /\ Forall2 (GroupR h) (Mem.entry_nodeGroups e_h) (entry_nodeGroups e).

Definition IndexR (h : Mem.heap) (i_h : Mem.SidebarNodes) (i : SidebarNodes)
  : Prop :=
  Forall2 (EntryR h) (Mem.modules i_h) (modules i)
  /\ Forall2 (EntryR h) (Mem.exceptions i_h) (exceptions i)
  /\ Forall2 (EntryR h) (Mem.tasks i_h) (tasks i).

Definition opt_addrs (r : option Mem.ModuleResults) : list Mem.addr :=
  match r with Some x => res_addrs x | None => [] end.
End Sim.

(* ================================================================== *)
(** ** Vocabulary of the properties *)

(** The text has no [$], the one character that [replace] reads
    specially in a replacement. *)
Definition no_dollar (s : string) : bool :=
  Str.all_chars (fun c => negb (Ascii.eqb c "$")) s.

(** Two strings of the same length whose characters agree up to case. *)
Fixpoint ci_equal (a b : string) : bool :=
  match a, b with
  | EmptyString, EmptyString => true
  | String x a', String y b' => eq_ignoreCase x y && ci_equal a' b'
  | _, _ => false
  end.

(** The white space of [trim], told by the canonical code unit. *)
Definition ws_code (n : N) : bool :=
  ((9 <=? n) && (n <=? 13) || (n =? 32) || (n =? 160))%N.

(** The term that the callback of [findNested] holds is the one the
    matcher was built from, or its last segment. *)
Definition term_of (matcher : RegExp) (term : string) : Prop :=
  Str.pop (Str.split "." term) = Str.pop (Str.split "." (literal matcher)).

(** The ranking the documentation states: Module, then Child, then
    Exception, then Mix Task, and last what has no category. *)
Definition rank (category : option Category) : Z :=
  match category with
  | Some Module_ => 3
  | Some Child => 2
  | Some Exception => 1
  | Some Mix_Task => 0
  | None => -1
  end.

Definition hasCategory (c : option Category) (item : SuggestionItem) : bool :=
  (rank (category item) =? rank c)%Z.

(** *** Sample indexes *)

Definition mkNode (id : string) (anchor : option string) : Node :=
  {| node_id := id; node_anchor := anchor; node_label := None;
     node_match := None |}.

Definition mkEntry (id : string) (title : option string)
    (nodeGroups : list (Key * list Node)) : Entry :=
  {| entry_id := id; entry_title := title; entry_nodeGroups := nodeGroups |}.

(** A module [Foo] with one function [bar]. *)
Definition Foo_bar : SidebarNodes :=
  {| modules := [mkEntry "Foo" (Some "Foo")
                   [(functions, [mkNode "bar" (Some "bar/1")])]];
     exceptions := []; tasks := [] |}.

Definition bar_item : SuggestionItem :=
  {| link := "Foo.html#bar/1"; title := Some "<em>bar</em>";
     description := Some "Foo"; label := None; category := Some Child |}.

(** The same module under a title that is not its id. *)
Definition Foo_titled_Baz : SidebarNodes :=
  {| modules := [mkEntry "Foo" (Some "Baz")
                   [(functions, [mkNode "bar" (Some "bar/1")])]];
     exceptions := []; tasks := [] |}.

(** A module without a title. *)
Definition Foo_untitled : SidebarNodes :=
  {| modules := [mkEntry "Foo" None
                   [(functions, [mkNode "foo" (Some "foo/0")])]];
     exceptions := []; tasks := [] |}.

(** A Mix task: the title is the command, the id is the module. *)
Definition mix_docs : SidebarNodes :=
  {| modules := []; exceptions := [];
     tasks := [mkEntry "Mix.Tasks.Docs" (Some "mix docs")
                 [(functions, [mkNode "run" (Some "run/1")])]] |}.

Definition FooBar : SidebarNodes :=
  {| modules := [mkEntry "FooBar" (Some "FooBar") []];
     exceptions := []; tasks := [] |}.

Definition axb : SidebarNodes :=
  {| modules := [mkEntry "axb" (Some "axb")
                   [(functions, [mkNode "axb" (Some "axb/0")])]];
     exceptions := []; tasks := [] |}.

(** A heap with one record, and the index that refers to it. *)
Definition heap_bar : Mem.heap := [mkNode "bar" (Some "bar/1")].

Definition Foo_bar_refs : Mem.SidebarNodes :=
  {| Mem.modules := [ {| Mem.entry_id := "Foo"; Mem.entry_title := Some "Foo";
                         Mem.entry_nodeGroups := [(types, [0])] |} ];
     Mem.exceptions := []; Mem.tasks := [] |}.

(* definitions to be inserted before Properties *)
(* ================================================================== *)
(** ** Vocabulary of the further properties *)

(** The key names a property that every object inherits. *)
Definition inherited (k : string) : bool :=
  existsb (String.eqb k) Obj.Object_prototype.

(** The property of [result] under which the matches of a group are
    stored. *)
Definition slot_of (key : Key) : Key :=
  match key with
  | types => types
  | callbacks => callbacks
  | _ => functions
  end.

(** [shown] is [text] as [highlight] returns it for a match of the term,
    or of the last dot-separated segment of the term, in [text]. *)
Definition shown_highlight (term text : string) (shown : option string)
  : Prop :=
  exists m hl,
    (str_match text (escaped_RegExp_i term) = Some m
     \/ str_match text
          (escaped_RegExp_i (Str.pop (Str.split "." term))) = Some m)
    /\ highlight (Some m) = Ok hl
    /\ shown = Some hl.

(** [v] is the copy that [findNested] stores for the node [n]: the same
    id, anchor and label, and for match the plain id or the highlighted
    id. *)
Definition produced (term : string) (n v : Node) : Prop :=
  node_id v = node_id n
  /\ node_anchor v = node_anchor n
  /\ node_label v = node_label n
  /\ (node_match v = Some (node_id n)
      \/ shown_highlight term (node_id n) (node_match v)).

(** The item suggested for an entry itself, and for one of its nodes. *)
Definition entry_item (c : Category) (e : Entry) (item : SuggestionItem)
  : Prop :=
  link item = entry_id e ++ ".html"
  /\ description item = None
  /\ label item = None
  /\ category item = Some c.

Definition child_item (e : Entry) (item : SuggestionItem) : Prop :=
  exists key nodes n,
    In (key, nodes) (entry_nodeGroups e) /\ In n nodes
    /\ category item = Some Child
    /\ description item = Some (entry_id e)
    /\ link item
       = (if truthy (node_anchor n)
          then entry_id e ++ ".html#" ++ ToString (node_anchor n)
          else entry_id e ++ ".html")
    /\ label item
       = match slot_of key with
         | types => Some "type"
         | callbacks => Some "callback"
         | _ => if truthy (node_label n) then node_label n else None
         end.

Definition all_entries (i : SidebarNodes) : list Entry :=
  (modules i ++ exceptions i ++ tasks i)%list.

(** The entry has a node that [findNested] does not skip on an empty
    accumulator. *)
Definition has_node (e : Entry) : bool :=
  existsb (fun g => existsb (fun n => negb (inherited (node_id n))) (snd g))
          (entry_nodeGroups e).

(** What [findIn] keeps of its elements. *)
Definition retained (matcher : RegExp) (e : Entry) : bool :=
  isSome (and_match (entry_title e) matcher) || has_node e.

(** A consistent comparison for closed examples: by length. *)
Definition lengthCompare (a b : string) : Z :=
  (Z.of_nat (String.length a) - Z.of_nat (String.length b))%Z.

(** [result[slot]] of a returned result. *)
Definition res_get (r : ModuleResults) (slot : Key) : list Node :=
  match slot with
  | functions => or_empty (res_functions r)
  | callbacks => or_empty (res_callbacks r)
  | types => or_empty (res_types r)
  | other => []
  end.

(** [v] is the copy of a node of a group of [gs] stored under [slot]. *)
Definition from_groups (term : string) (gs : list (Key * list Node))
    (slot : Key) (v : Node) : Prop :=
  exists key nodes n,
    In (key, nodes) gs /\ slot_of key = slot /\ In n nodes
    /\ inherited (node_id n) = false
    /\ produced term n v.

(** What the loop over the node groups keeps true of [result] and
    [hasMatch]: a stored map is not empty, its keys are distinct and are
    the ids of its records, which are copies of nodes of the groups; and
    [hasMatch] is set as soon as a map is stored. *)
Definition found_inv (term : string) (gs : list (Key * list Node))
    (f : Found) (hasMatch : bool) : Prop :=
  forall slot o,
    found_get f slot = Some o ->
    Obj.nonEmpty o = true
    /\ hasMatch = true
    /\ NoDup (map fst o)
    /\ forall kv, In kv o ->
         fst kv = node_id (snd kv) /\ from_groups term gs slot (snd kv).

(** A group has a node that is not skipped on an empty accumulator. *)
Definition group_has_node (g : Key * list Node) : bool :=
  existsb (fun n => negb (inherited (node_id n))) (snd g).

(** [x] is the result of [findIn] for the entry [e]. *)
Definition result_of (term : string) (e : Entry) (x : ModuleResults) : Prop :=
  res_id x = entry_id e
  /\ res_category x = None
  /\ ((and_match (entry_title e) (escaped_RegExp_i term) = None
       /\ res_match x = entry_title e)
      \/ exists m hl,
          and_match (entry_title e) (escaped_RegExp_i term) = Some m
          /\ highlight (Some m) = Ok hl
          /\ res_match x = Some hl)
  /\ forall slot,
      NoDup (map node_id (res_get x slot))
      /\ forall v, In v (res_get x slot) ->
                   from_groups term (entry_nodeGroups e) slot v.

(** The title of the item of an entry: the highlight of a match in the
    title of the entry, or that title when it is not matched, which then
    is not the id of the entry. *)
Definition entry_title_shown (term : string) (e : Entry)
    (item : SuggestionItem) : Prop :=
  (exists s, entry_title e = Some s /\ shown_highlight term s (title item))
  \/ (and_match (entry_title e) (escaped_RegExp_i term) = None
      /\ title item = entry_title e
      /\ entry_title e <> Some (entry_id e)).

(** What [addCategory] makes of one result. *)
Definition with_category (c : Category) (x : ModuleResults) : ModuleResults :=
  {| res_id := res_id x; res_match := res_match x;
     res_functions := res_functions x; res_callbacks := res_callbacks x;
     res_types := res_types x; res_category := Some c |}.

(** The order that [sort] establishes under [comparefn]. *)
Definition sorted_by_id (localeCompare : string -> string -> Z)
    (l : list Node) : Prop :=
  StronglySorted
    (fun a b => (localeCompare (node_id a) (node_id b) <= 0)%Z) l.

(** *** Further sample inputs *)

(** A module with a group under a key of its own after its functions. *)
Definition Foo_guards : Entry :=
  mkEntry "Foo" (Some "Foo")
    [(functions, [mkNode "bar" (Some "bar/1")]);
     (other, [mkNode "is_baz" (Some "is_baz/1")])].

Definition Foo_item : SuggestionItem :=
  {| link := "Foo.html"; title := Some "<em>Foo</em>"; description := None;
     label := None; category := Some Module_ |}.

Definition FooBar_item : SuggestionItem :=
  {| link := "FooBar.html"; title := Some "<em>Foo</em>Bar";
     description := None; label := None; category := Some Module_ |}.

(* ================================================================== *)
(** * Tooltips of the documentation pages

    A shallow embedding of the tooltip script: the switch that turns
    tooltips off and on and keeps the choice in [localStorage], and the
    rewriting of the link whose summary the tooltip shows.  The browser
    is read through what these functions use of it: the storage with
    the two ways in which it fails, the [data-is-disabled] attribute of
    the toggle links, and the text of the hovered link. *)

Module Tooltips.

Definition typesPage : string := "typespecs.html".
Definition tooltipsDisabledStorageKey : string := "tooltipsDisabled".

(** ** Storage *)

(** A call of a method of [localStorage] returns or throws (a
    [SecurityError] when the storage may not be read, a
    [QuotaExceededError] when nothing can be written). *)
Inductive Completion (A : Type) : Type :=
| Return (a : A)
| Throw.

Arguments Return {A} a.
Arguments Throw {A}.

(** [try { body } catch (e) { }] around a statement that changes the
    state: what is thrown is dropped and the state stays as it was. *)
Definition try_catch {A} (body : Completion A) (otherwise : A) : A :=
  match body with
  | Return a => a
  | Throw => otherwise
  end.

Record Storage : Type := {
  accessible : bool;
  writable : bool;
  items : list (string * string)
}.

Fixpoint lookup (key : string) (l : list (string * string)) : option string :=
  match l with
  | [] => None
  | (k, v) :: l' => if String.eqb k key then Some v else lookup key l'
  end.

Fixpoint store (key value : string) (l : list (string * string))
  : list (string * string) :=
  match l with
  | [] => [(key, value)]
  | (k, v) :: l' =>
      if String.eqb k key then (k, value) :: l' else (k, v) :: store key value l'
  end.

Definition remove (key : string) (l : list (string * string))
  : list (string * string) :=
  filter (fun kv => negb (String.eqb (fst kv) key)) l.

(** [localStorage.getItem (key)]; [None] is [null]. *)
Definition getItem (s : Storage) (key : string) : Completion (option string) :=
  if accessible s then Return (lookup key (items s)) else Throw.

(** [localStorage.setItem (key, value)], the value already a string. *)
Definition setItem (s : Storage) (key value : string) : Completion Storage :=
  if accessible s && writable s then
    Return {| accessible := accessible s; writable := writable s;
              items := store key value (items s) |}
  else Throw.

(** [localStorage.removeItem (key)]. *)
Definition removeItem (s : Storage) (key : string) : Completion Storage :=
  if accessible s then
    Return {| accessible := accessible s; writable := writable s;
              items := remove key (items s) |}
  else Throw.

(** ** The page *)

(** The storage, and the [data-is-disabled] attribute of each element
    that [tooltipsToggleSelector] selects ([None]: not set). *)
Record Page : Type := {
  localStorage : Storage;
  toggles : list (option string)
}.

(** [b.toString ()] and the conversion of [true] by [setItem]. *)
Definition Boolean_toString (b : bool) : string :=
  if b then "true" else "false".

(** [!!x] for a string or [null]. *)
Definition ToBoolean (x : option string) : bool :=
  match x with
  | Some s => negb (String.eqb s "")
  | None => false
  end.

Definition areTooltipsDisabled (p : Page) : bool :=
  match getItem (localStorage p) tooltipsDisabledStorageKey with
  | Return x => ToBoolean x
  | Throw => false
  end.

Definition updateToggleLink (p : Page) : Page :=
  {| localStorage := localStorage p;
     toggles := map (fun _ => Some (Boolean_toString (areTooltipsDisabled p)))
                    (toggles p) |}.

Definition deactivateTooltips (p : Page) : Page :=
  let p :=
    try_catch
      (match setItem (localStorage p) tooltipsDisabledStorageKey
               (Boolean_toString true) with
       | Return s => Return {| localStorage := s; toggles := toggles p |}
       | Throw => Throw
       end) p in
  updateToggleLink p.

Definition activateTooltips (p : Page) : Page :=
  let p :=
    try_catch
      (match removeItem (localStorage p) tooltipsDisabledStorageKey with
       | Return s => Return {| localStorage := s; toggles := toggles p |}
       | Throw => Throw
       end) p in
  updateToggleLink p.

Definition toggleTooltipsDisabled (p : Page) : Page :=
  if areTooltipsDisabled p then activateTooltips p else deactivateTooltips p.

(** ** Links *)

(** [s.indexOf (needle)] as the number it returns. *)
Definition indexOf (s needle : string) : Z :=
  match Str.indexOf needle s with
  | Some i => Z.of_nat i
  | None => (-1)%Z
  end.

Definition isTypesPageLink (href : string) : bool :=
  (indexOf href typesPage =? 0)%Z || (indexOf href ("/" ++ typesPage) >=? 0)%Z.

(** [encodeURIComponent] (Encode of ECMA-262 with the unreserved set
    of URI components) on code units below 256: an unreserved character
    stands for itself, every other code unit is written as the escapes
    of the octets of its UTF-8 form, one below 128 and two from 128 on.
    No code unit below 256 is a surrogate, so nothing is thrown. *)
Definition uriUnreserved (c : ascii) : bool :=
  let n := N_of_ascii c in
  ((48 <=? n) && (n <=? 57) || (65 <=? n) && (n <=? 90)
   || (97 <=? n) && (n <=? 122))%N
  || existsb (Ascii.eqb c)
       ["-"; "_"; "."; "!"; "~"; "*"; "'"; "("; ")"]%char.

Definition hexDigit (n : N) : ascii :=
  if (n <? 10)%N then ascii_of_N (48 + n) else ascii_of_N (55 + n).

Definition escapeOctet (octet : N) : string :=
  String "%" (String (hexDigit (octet / 16))
                (String (hexDigit (octet mod 16)) EmptyString)).

Definition encodeUnit (c : ascii) : string :=
  if uriUnreserved c then String c EmptyString
  else
    let n := N_of_ascii c in
    if (n <? 128)%N then escapeOctet n
    else escapeOctet (192 + n / 64) ++ escapeOctet (128 + n mod 64).

Fixpoint encodeURIComponent (s : string) : string :=
  match s with
  | EmptyString => EmptyString
  | String c s' => encodeUnit c ++ encodeURIComponent s'
  end.

(** The characters that an encoded component is made of. *)
Definition written (c : ascii) : bool := uriUnreserved c || Ascii.eqb c "%".

(** The hovered link, read for its text. *)
Record Link : Type := { text : string }.

(** The variables of the module that [rewriteHref] reads. *)
Record Globals : Type := {
  currentLinkElement : option Link;
  currentRequestId : option string
}.

(** A template literal turns [null] into the text [null]. *)
Definition ToString_null (x : option string) : string :=
  match x with Some s => s | None => "null" end.

(** Reading [text] of [null] is a [TypeError]. *)
Definition rewriteHref (g : Globals) (href : string) : Result string :=
  typeInfo <- (if isTypesPageLink href then
                 match currentLinkElement g with
                 | Some link =>
                     let typeName := encodeURIComponent (text link) in
                     Ok ("&typeName=" ++ typeName)
                 | None => TypeError
                 end
               else Ok "") ;;
  Ok (Str.replace href ".html"
        (".html?hint=true&requestId=" ++ ToString_null (currentRequestId g)
           ++ typeInfo)).

(** *** Sample inputs *)

Definition String_t_link : Globals :=
  {| currentLinkElement := Some {| text := "String.t" |};
     currentRequestId := Some "k3x9q0a1z" |}.

Definition fresh_page : Page :=
  {| localStorage := {| accessible := true; writable := true;
                        items := [("theme", "dark")] |};
     toggles := [None] |}.

Definition full_page : Page :=
  {| localStorage := {| accessible := true; writable := false; items := [] |};
     toggles := [None] |}.

End Tooltips.

(* ================================================================== *)
(** * Properties *)

(** ** Strings *)

Module StrFacts.
Import Str.

Lemma append_empty_r (s : string) : s ++ "" = s.
Proof. induction s as [|c s IH]; simpl; [reflexivity | now rewrite IH]. Qed.

Lemma append_assoc (a b c : string) : (a ++ b) ++ c = a ++ (b ++ c).
Proof. induction a as [|x a IH]; simpl; [reflexivity | now rewrite IH]. Qed.

Lemma length_append (a b : string) :
  String.length (a ++ b) = String.length a + String.length b.
Proof. induction a as [|x a IH]; simpl; [reflexivity | now rewrite IH]. Qed.

Lemma take_drop (n : nat) (s : string) : take n s ++ drop n s = s.
Proof.
  revert s; induction n as [|n IH]; intros [|c s]; simpl; try reflexivity.
  now rewrite IH.
Qed.

Lemma drop_0 (s : string) : drop 0 s = s.
Proof. now destruct s. Qed.

Lemma drop_drop (n m : nat) (s : string) : drop n (drop m s) = drop (m + n) s.
Proof.
  revert s; induction m as [|m IH]; intros s; simpl.
  - reflexivity.
  - destruct s as [|c s]; [now destruct n | apply IH].
Qed.

Lemma drop_append_length (a b : string) : drop (String.length a) (a ++ b) = b.
Proof. induction a as [|x a IH]; simpl; [reflexivity | exact IH]. Qed.

Lemma take_append_length (a b : string) : take (String.length a) (a ++ b) = a.
Proof.
  induction a as [|x a IH]; simpl; [now destruct b | now rewrite IH].
Qed.

Lemma drop_append_le (n : nat) (a b : string) :
  n <= String.length a -> drop n (a ++ b) = drop n a ++ b.
Proof.
  revert a; induction n as [|n IH]; intros a Hn.
  - now rewrite ?drop_0.
  - destruct a as [|x a]; simpl in *; [lia | apply IH; lia].
Qed.

Lemma drop_append_ge (n : nat) (a b : string) :
  String.length a <= n -> drop n (a ++ b) = drop (n - String.length a) b.
Proof.
  revert n; induction a as [|x a IH]; intros n Hn; simpl in *.
  - now rewrite Nat.sub_0_r.
  - destruct n as [|n]; [lia | simpl; apply IH; lia].
Qed.

Lemma length_drop (n : nat) (s : string) :
  String.length (drop n s) = String.length s - n.
Proof.
  revert s; induction n as [|n IH]; intros [|c s]; simpl; auto.
Qed.

Lemma drop_all (n : nat) (s : string) :
  String.length s <= n -> drop n s = "".
Proof.
  revert s; induction n as [|n IH]; intros [|c s] H; simpl in *;
    try reflexivity; try lia.
  apply IH; lia.
Qed.

Section Search.
Variable eqc : ascii -> ascii -> bool.

Lemma starts_length (pat s : string) :
  starts eqc pat s = true -> String.length pat <= String.length s.
Proof.
  revert s; induction pat as [|p pat IH]; intros [|c s] H; simpl in *;
    try lia; try discriminate.
  apply andb_true_iff in H as [_ H]. apply IH in H. lia.
Qed.

Lemma starts_append (pat s tl : string) :
  starts eqc pat s = true -> starts eqc pat (s ++ tl) = true.
Proof.
  revert s; induction pat as [|p pat IH]; intros [|c s] H; simpl in *;
    try reflexivity; try discriminate.
  apply andb_true_iff in H as [H1 H2]. now rewrite H1, IH.
Qed.

Lemma starts_append_short (pat s tl : string) :
  String.length pat <= String.length s ->
  starts eqc pat (s ++ tl) = starts eqc pat s.
Proof.
  revert s; induction pat as [|p pat IH]; intros [|c s] H; simpl in *;
    try reflexivity; try lia.
  rewrite IH by lia. reflexivity.
Qed.

(** A pattern [a ++ b] read at the start of [s]: [a] is read there and
    [b] right after it. *)
Lemma starts_split (a b s : string) :
  starts eqc (a ++ b) s = true ->
  starts eqc a s = true /\ starts eqc b (drop (String.length a) s) = true.
Proof.
  revert s; induction a as [|x a IH]; intros s H; simpl in *.
  - now rewrite ?drop_0.
  - destruct s as [|c s]; [discriminate|].
    apply andb_true_iff in H as [H1 H2]. apply IH in H2 as [H2 H3].
    now rewrite H1, H2.
Qed.

Lemma search_Some (pat s : string) (i j : nat) :
  search eqc pat s i = Some j ->
  exists k, j = i + k /\ k <= String.length s
            /\ starts eqc pat (drop k s) = true
            /\ forall k', k' < k -> starts eqc pat (drop k' s) = false.
Proof.
  revert i; induction s as [|c s IH]; intros i H; simpl in H.
  - destruct (starts eqc pat "") eqn:E; [|discriminate].
    injection H as <-. exists 0. repeat split; auto; lia.
  - destruct (starts eqc pat (String c s)) eqn:E.
    + injection H as <-. exists 0. rewrite ?drop_0.
      repeat split; auto; simpl; lia.
    + apply IH in H as (k & -> & Hk & Hs & Hmin).
      exists (S k). simpl. repeat split; auto; try lia.
      intros [|k'] Hk'; [now rewrite ?drop_0 | simpl; apply Hmin; lia].
Qed.

Lemma search_None (pat s : string) (i : nat) :
  search eqc pat s i = None ->
  forall k, starts eqc pat (drop k s) = false.
Proof.
  revert i; induction s as [|c s IH]; intros i H k; simpl in H.
  - destruct (starts eqc pat "") eqn:E; [discriminate|].
    now destruct k.
  - destruct (starts eqc pat (String c s)) eqn:E; [discriminate|].
    destruct k as [|k]; [now rewrite ?drop_0 | simpl; eapply IH; eauto].
Qed.

Lemma search_found (pat s : string) (i k : nat) :
  starts eqc pat (drop k s) = true -> search eqc pat s i <> None.
Proof.
  intros Hk Hnone. apply search_None with (k := k) in Hnone. congruence.
Qed.

Lemma search_first (pat s : string) (i k : nat) :
  starts eqc pat (drop k s) = true ->
  (forall k', k' < k -> starts eqc pat (drop k' s) = false) ->
  search eqc pat s i = Some (i + k).
Proof.
  intros Hk Hmin.
  destruct (search eqc pat s i) as [j|] eqn:E.
  - apply search_Some in E as (k0 & -> & _ & Hs & Hmin0).
    f_equal. f_equal.
    destruct (Nat.lt_trichotomy k0 k) as [Hlt | [-> | Hgt]]; auto.
    + apply Hmin in Hlt. congruence.
    + apply Hmin0 in Hgt. congruence.
  - exfalso. eapply search_found; eauto.
Qed.
End Search.

(** *** Segments *)

Lemma split_not_nil (sep : ascii) (s : string) : split sep s <> [].
Proof.
  destruct s as [|c s]; simpl; [discriminate|].
  destruct (Ascii.eqb c sep); [discriminate|].
  destruct (split sep s); discriminate.
Qed.

Lemma last_cons_not_nil {A} (x : A) (l : list A) (d : A) :
  l <> [] -> List.last (x :: l) d = List.last l d.
Proof. destruct l; [congruence | reflexivity]. Qed.

Lemma last_app_not_nil {A} (l1 l2 : list A) (d : A) :
  l2 <> [] -> List.last (l1 ++ l2)%list d = List.last l2 d.
Proof.
  intros H. induction l1 as [|x l1 IH]; simpl; auto.
  destruct (l1 ++ l2)%list eqn:E; [|exact IH].
  apply app_eq_nil in E as [_ E]. congruence.
Qed.

(** Whatever precedes a separator has no bearing on the last segment. *)
Lemma split_after_sep (sep : ascii) (a b : string) :
  exists l, split sep (a ++ String sep b) = (l ++ split sep b)%list /\ l <> [].
Proof.
  induction a as [|c a (l & IH & Hl)]; simpl.
  - rewrite Ascii.eqb_refl. exists [""]. split; [reflexivity | discriminate].
  - destruct (Ascii.eqb c sep).
    + exists ("" :: l). rewrite IH. split; [reflexivity | discriminate].
    + rewrite IH. destruct l as [|seg l]; [congruence|].
      exists (String c seg :: l). split; [reflexivity | discriminate].
Qed.

Lemma pop_split_after_sep (sep : ascii) (a b : string) :
  pop (split sep (a ++ String sep b)) = pop (split sep b).
Proof.
  destruct (split_after_sep sep a b) as (l & -> & _).
  apply last_app_not_nil, split_not_nil.
Qed.

Lemma split_single (sep : ascii) (s seg : string) :
  split sep s = [seg] -> seg = s.
Proof.
  revert seg; induction s as [|c s IH]; intros seg H; simpl in H.
  - now injection H.
  - destruct (Ascii.eqb c sep).
    + injection H as _ H. now apply split_not_nil in H.
    + destruct (split sep s) as [|seg' rest] eqn:E;
        [now apply split_not_nil in E|].
      injection H as <- ->. f_equal. now apply IH.
Qed.

(** The last segment is a suffix of the string. *)
Lemma pop_split_suffix (sep : ascii) (s : string) :
  exists w, s = w ++ pop (split sep s).
Proof.
  induction s as [|c s (w & IH)]; simpl.
  - now exists "".
  - destruct (Ascii.eqb c sep).
    + unfold pop. rewrite last_cons_not_nil by apply split_not_nil.
      exists (String c w). simpl. now f_equal.
    + destruct (split sep s) as [|seg rest] eqn:E.
      * now apply split_not_nil in E.
      * destruct rest as [|seg' rest].
        -- apply split_single in E as ->. now exists "".
        -- exists (String c w). simpl. f_equal. exact IH.
Qed.

Lemma split_no_sep (sep : ascii) (s : string) :
  Forall (fun seg => split sep seg = [seg]) (split sep s).
Proof.
  induction s as [|c s IH]; simpl.
  - constructor; [reflexivity | constructor].
  - destruct (Ascii.eqb c sep) eqn:Ec.
    + constructor; [reflexivity | exact IH].
    + destruct (split sep s) as [|seg rest]; [repeat constructor|].
      * simpl. now rewrite Ec.
      * inversion IH as [|? ? Hseg Hrest]; subst.
        constructor; [|exact Hrest].
        simpl. now rewrite Ec, Hseg.
Qed.

(** Taking the last segment twice is taking it once. *)
Lemma pop_split_idempotent (sep : ascii) (s : string) :
  pop (split sep (pop (split sep s))) = pop (split sep s).
Proof.
  pose proof (split_no_sep sep s) as H.
  pose proof (split_not_nil sep s) as Hn.
  unfold pop at 2 3.
  assert (Hin : In (List.last (split sep s) "") (split sep s)).
  { destruct (split sep s) as [|x l]; [congruence|].
    destruct (exists_last (l := x :: l)) as (l' & y & E); [discriminate|].
    rewrite E, last_last. apply in_or_app. right. now left. }
  rewrite Forall_forall in H. now rewrite (H _ Hin).
Qed.

End StrFacts.

(** ** Matching and highlighting *)

Module MatchFacts.
Import Str StrFacts.

Lemma Canonicalize_dot (c : ascii) :
  Canonicalize c = Canonicalize "." -> c = "."%char.
Proof.
  destruct c as [b0 b1 b2 b3 b4 b5 b6 b7].
  destruct b0, b1, b2, b3, b4, b5, b6, b7; vm_compute; intros H;
    first [reflexivity | discriminate H].
Qed.

Lemma eq_ignoreCase_dot (c : ascii) :
  eq_ignoreCase c "." = true -> c = "."%char.
Proof.
  unfold eq_ignoreCase. intros H. apply N.eqb_eq in H.
  now apply Canonicalize_dot.
Qed.

Lemma eq_ignoreCase_refl (c : ascii) : eq_ignoreCase c c = true.
Proof. apply N.eqb_refl. Qed.

Lemma eq_ignoreCase_trans (a b c : ascii) :
  eq_ignoreCase a b = true -> eq_ignoreCase b c = true ->
  eq_ignoreCase a c = true.
Proof.
  unfold eq_ignoreCase. rewrite !N.eqb_eq. congruence.
Qed.

(** When a pattern as long as [u0] and one character more is read at
    the start of [u0 ++ String d rest], its last character is read
    on [d]. *)
Lemma starts_last (eqc : ascii -> ascii -> bool) (a u0 rest : string)
    (d : ascii) :
  starts eqc a (u0 ++ String d rest) = true ->
  String.length a = S (String.length u0) ->
  exists a0 x, a = a0 ++ String x "" /\ eqc x d = true.
Proof.
  revert a; induction u0 as [|c u0 IH]; intros a H Hlen; simpl in *.
  - destruct a as [|x [|y a]]; simpl in *; try discriminate.
    apply andb_true_iff in H as [H _]. now exists "", x.
  - destruct a as [|x a]; simpl in *; [discriminate|].
    apply andb_true_iff in H as [_ H].
    destruct (IH a H) as (a0 & y & -> & Hy); [lia|].
    now exists (String x a0), y.
Qed.

Lemma length_take (n : nat) (s : string) :
  n <= String.length s -> String.length (take n s) = n.
Proof.
  revert s; induction n as [|n IH]; intros [|c s] H; simpl in *;
    try reflexivity; try lia.
  rewrite IH; [reflexivity | lia].
Qed.

(** The heart of the qualified-name branch: a term that is read in
    [p.c], overlapping the dot, has its last segment read in [c]. *)
Lemma last_segment_found (t p c : string) :
  search eq_ignoreCase t (p ++ ".") 0 = None ->
  search eq_ignoreCase t (p ++ "." ++ c) 0 <> None ->
  search eq_ignoreCase (pop (split "." t)) c 0 <> None.
Proof.
  intros Hprefix Hfull.
  destruct (search eq_ignoreCase t (p ++ "." ++ c) 0) as [i|] eqn:E;
    [clear Hfull | congruence].
  apply search_Some in E as (k & _ & _ & Hk & _).
  rewrite <- append_assoc in Hk.
  destruct (pop_split_suffix "." t) as (w & Hw).
  destruct (Nat.le_gt_cases (String.length (p ++ ".")) k) as [Hge | Hlt].
  - (* the term is read inside [c] *)
    rewrite drop_append_ge in Hk by exact Hge.
    rewrite Hw in Hk. apply starts_split in Hk as [_ Hk].
    rewrite drop_drop in Hk. eapply search_found; eauto.
  - (* the term is read across the dot *)
    rewrite drop_append_le in Hk by lia.
    pose proof (search_None _ _ _ _ Hprefix k) as Hu.
    set (u := drop k (p ++ ".")) in *.
    assert (Hlen : String.length u < String.length t).
    { destruct (Nat.lt_ge_cases (String.length u) (String.length t)); auto.
      rewrite starts_append_short in Hk by assumption. congruence. }
    rewrite <- (take_drop (String.length u) t) in Hk.
    apply starts_split in Hk as [Ha Hb].
    rewrite length_take in Hb by lia.
    rewrite drop_append_length in Hb.
    assert (Eu : u = drop k p ++ ".").
    { unfold u. apply drop_append_le.
      rewrite length_append in Hlt. simpl in Hlt. lia. }
    rewrite Eu, append_assoc in Ha.
    change ("." ++ c) with (String "."%char c) in Ha.
    apply starts_last in Ha as (a0 & x & Ea & Hx).
    2:{ rewrite length_take; rewrite <- Eu; [|lia].
        rewrite Eu, length_append. simpl. lia. }
    rewrite <- Eu in Ea.
    apply eq_ignoreCase_dot in Hx. subst x.
    assert (Et : t = a0 ++ String "." (drop (String.length u) t)).
    { rewrite <- (take_drop (String.length u) t) at 1.
      rewrite Ea, append_assoc. reflexivity. }
    rewrite Et, pop_split_after_sep.
    destruct (pop_split_suffix "." (drop (String.length u) t)) as (w' & Hw').
    rewrite Hw' in Hb. apply starts_split in Hb as [_ Hb].
    eapply search_found; eauto.
Qed.

(** *** The first exact occurrence of the matched text *)

Lemma starts_take_self (n : nat) (x : string) :
  n <= String.length x -> starts Ascii.eqb (take n x) x = true.
Proof.
  revert x; induction n as [|n IH]; intros [|c x] H; simpl in *;
    try reflexivity; try lia.
  rewrite Ascii.eqb_refl, IH; [reflexivity | lia].
Qed.

Lemma starts_through_exact (t x y : string) :
  starts eq_ignoreCase t x = true ->
  starts Ascii.eqb (take (String.length t) x) y = true ->
  starts eq_ignoreCase t y = true.
Proof.
  revert x y; induction t as [|p t IH]; intros x y Hx Hy; simpl in *; auto.
  destruct x as [|a x]; [discriminate|].
  destruct y as [|b y]; simpl in *; [discriminate|].
  apply andb_true_iff in Hx as [Hx1 Hx2].
  apply andb_true_iff in Hy as [Hy1 Hy2].
  apply Ascii.eqb_eq in Hy1. subst b.
  rewrite Hx1. simpl. eauto.
Qed.

Lemma indexOf_matched (t s : string) (i : nat) :
  search eq_ignoreCase t s 0 = Some i ->
  indexOf (take (String.length t) (drop i s)) s = Some i.
Proof.
  intros H. apply search_Some in H as (k & -> & _ & Hk & Hmin).
  unfold indexOf. apply search_first.
  - apply starts_take_self. now apply starts_length in Hk.
  - intros k' Hk'. specialize (Hmin k' Hk').
    destruct (starts Ascii.eqb _ (drop k' s)) eqn:E; auto.
    rewrite (starts_through_exact _ _ _ Hk E) in Hmin. discriminate.
Qed.

Lemma GetSubstitution_no_dollar (matched before after r : string) :
  no_dollar r = true -> GetSubstitution matched before after r = r.
Proof.
  induction r as [|c r IH]; simpl; intros H; [reflexivity|].
  apply andb_true_iff in H as [Hc Hr].
  apply negb_true_iff in Hc. rewrite Hc. now rewrite IH.
Qed.

Lemma all_chars_append (P : ascii -> bool) (a b : string) :
  all_chars P (a ++ b) = all_chars P a && all_chars P b.
Proof.
  induction a as [|c a IH]; simpl; [reflexivity|].
  now rewrite IH, andb_assoc.
Qed.

(** What a successful match holds. *)
Lemma str_match_Some (s : string) (matcher : RegExp) (m : Match) :
  str_match s matcher = Some m ->
  search eq_ignoreCase (literal matcher) s 0 = Some (m_index m)
  /\ m_0 m = take (String.length (literal matcher)) (drop (m_index m) s)
  /\ m_input m = s
  /\ String.length (m_0 m) = String.length (literal matcher)
  /\ s = take (m_index m) s ++ m_0 m
              ++ drop (m_index m + String.length (literal matcher)) s.
Proof.
  unfold str_match. intros H.
  destruct (search eq_ignoreCase (literal matcher) s 0) as [i|] eqn:E;
    [|discriminate].
  injection H as <-. simpl.
  repeat split; auto.
  - apply search_Some in E as (k & -> & _ & Hk & _).
    apply starts_length in Hk. now apply length_take.
  - rewrite <- drop_drop, take_drop, take_drop. reflexivity.
Qed.

(** Highlighting a match whose text has no [$]: the text is wrapped
    where the expression found it, and nothing else changes. *)
Lemma highlight_wraps (s : string) (matcher : RegExp) (m : Match) :
  str_match s matcher = Some m ->
  no_dollar (m_0 m) = true ->
  highlight (Some m)
  = Ok (take (m_index m) s ++ "<em>" ++ m_0 m ++ "</em>"
          ++ drop (m_index m + String.length (literal matcher)) s).
Proof.
  intros H Hd.
  destruct (str_match_Some _ _ _ H) as (Hs & H0 & Hin & Hlen & _).
  unfold highlight, replace. rewrite Hin.
  rewrite H0 at 1. rewrite (indexOf_matched _ _ _ Hs).
  rewrite GetSubstitution_no_dollar.
  - rewrite Hlen. now rewrite !append_assoc.
  - unfold no_dollar in *. rewrite !all_chars_append, Hd. reflexivity.
Qed.

End MatchFacts.

(** ** The search never throws *)

Module SearchFacts.
Import Str StrFacts MatchFacts.

Lemma str_match_None (s : string) (matcher : RegExp) :
  str_match s matcher = None <->
  search eq_ignoreCase (literal matcher) s 0 = None.
Proof.
  unfold str_match.
  destruct (search eq_ignoreCase (literal matcher) s 0); split;
    intros H; congruence.
Qed.

Lemma isSome_str_match (s : string) (matcher : RegExp) :
  isSome (str_match s matcher) = true <->
  search eq_ignoreCase (literal matcher) s 0 <> None.
Proof.
  unfold str_match.
  destruct (search eq_ignoreCase (literal matcher) s 0); simpl; split;
    intros H; congruence.
Qed.

Lemma isSome_true {A} (x : option A) : isSome x = true -> exists a, x = Some a.
Proof. destruct x; [eauto | discriminate]. Qed.

Lemma isSome_false {A} (x : option A) : isSome x = false -> x = None.
Proof. destruct x; [discriminate | reflexivity]. Qed.

Lemma term_of_escaped (term : string) : term_of (escaped_RegExp_i term) term.
Proof. reflexivity. Qed.

Lemma term_of_pop (matcher : RegExp) (term : string) :
  term_of matcher term -> term_of matcher (pop (split "." term)).
Proof.
  unfold term_of. intros <-. apply pop_split_idempotent.
Qed.

Lemma qualified_branch_match (matcher : RegExp) (term p c : string) :
  term_of matcher term ->
  str_match (p ++ ".") matcher = None ->
  isSome (str_match (p ++ "." ++ c) matcher) = true ->
  exists m,
    and_match (Some c) (escaped_RegExp_i (pop (split "." term))) = Some m.
Proof.
  intros Ht Hp Hf.
  apply str_match_None in Hp. apply isSome_str_match in Hf.
  assert (Hc : c <> "").
  { intros ->. rewrite append_empty_r in Hf. congruence. }
  pose proof (last_segment_found _ _ _ Hp Hf) as Hz.
  unfold and_match.
  destruct (String.eqb_spec c ""); [congruence|].
  apply isSome_true, isSome_str_match. simpl. now rewrite Ht.
Qed.

Lemma highlight_Some (m : Match) : exists hl, highlight (Some m) = Ok hl.
Proof. simpl. eauto. Qed.

Lemma findNested_from_cons (element : Node) (elements : list Node)
    (parentId : option string) (matcher : RegExp) (term : string)
    (acc : Obj.t Node) :
  findNested_from (element :: elements) parentId matcher term acc
  = if Obj.truthy acc (node_id element) then
      findNested_from elements parentId matcher term acc
    else if isSome (and_match (Some (node_id element)) matcher) then
      m <- highlight (and_match (Some (node_id element)) matcher) ;;
      findNested_from elements parentId matcher term
        (Obj.set acc (node_id element) (set_match (JSON_copy element) m))
    else if negb (isSome (str_match (ToString parentId ++ ".") matcher))
            && isSome (str_match (ToString parentId ++ "."
                                    ++ node_id element) matcher) then
      m <- highlight (and_match (Some (node_id element))
                        (escaped_RegExp_i (pop (split "." term)))) ;;
      findNested_from elements parentId matcher (pop (split "." term))
        (Obj.set acc (node_id element) (set_match (JSON_copy element) m))
    else
      findNested_from elements parentId matcher term
        (Obj.set acc (node_id element)
           (set_match (JSON_copy element) (node_id element))).
Proof. reflexivity. Qed.

Lemma findNested_from_total (elements : list Node) (parentId : option string)
    (matcher : RegExp) (term : string) (acc : Obj.t Node) :
  term_of matcher term ->
  exists acc', findNested_from elements parentId matcher term acc = Ok acc'.
Proof.
  revert term acc; induction elements as [|element elements IH];
    intros term acc Ht; [simpl; eauto|].
  rewrite findNested_from_cons.
  destruct (Obj.truthy acc (node_id element)); [now apply IH|].
  destruct (isSome (and_match (Some (node_id element)) matcher)) eqn:Em.
  - apply isSome_true in Em as (m & ->). simpl. now apply IH.
  - destruct (negb _ && _) eqn:Ef; [|now apply IH].
    apply andb_true_iff in Ef as [Ep Ef].
    apply negb_true_iff, isSome_false in Ep.
    destruct (qualified_branch_match _ _ _ _ Ht Ep Ef) as (m & ->).
    simpl. apply IH. now apply term_of_pop.
Qed.

Lemma findNested_total (elements : list Node) (parentId : option string)
    (matcher : RegExp) (term : string) (acc : option (Obj.t Node)) :
  term_of matcher term ->
  exists acc', findNested elements parentId matcher term acc = Ok acc'.
Proof. apply findNested_from_total. Qed.

Section Collation.
Variable localeCompare : string -> string -> Z.

Lemma findIn_groups_total (nodeGroups : list (Key * list Node))
    (title : option string) (matcher : RegExp) (term : string)
    (result : Found) (hasMatch : bool) :
  term_of matcher term ->
  exists rh,
    findIn_groups nodeGroups title matcher term result hasMatch = Ok rh.
Proof.
  intros Ht. revert result hasMatch.
  induction nodeGroups as [|[key nodes] nodeGroups IH];
    intros result hasMatch; simpl; [eauto|].
  destruct (findNested_total nodes title matcher term
              (found_get result key) Ht) as (matches & ->).
  simpl. destruct (Obj.nonEmpty matches); apply IH.
Qed.

Lemma findIn_element_total (matcher : RegExp) (term : string)
    (element : Entry) :
  term_of matcher term ->
  exists r, findIn_element localeCompare matcher term element = Ok r.
Proof.
  intros Ht. unfold findIn_element.
  destruct (and_match (entry_title element) matcher) as [m|]; simpl.
  - match goal with
    | |- context [findIn_groups ?g ?t ?m ?tm ?r ?h] =>
        destruct (findIn_groups_total g t m tm r h Ht) as ([r' h'] & ->)
    end.
    simpl. destruct h'; eauto.
  - match goal with
    | |- context [findIn_groups ?g ?t ?m ?tm ?r ?h] =>
        destruct (findIn_groups_total g t m tm r h Ht) as ([r' h'] & ->)
    end.
    simpl. destruct h'; eauto.
Qed.

Lemma map_filter_total (matcher : RegExp) (term : string)
    (elements : list Entry) :
  term_of matcher term ->
  exists rs, map_filter localeCompare matcher term elements = Ok rs.
Proof.
  intros Ht. induction elements as [|element elements (rs & IH)]; simpl;
    [eauto|].
  destruct (findIn_element_total matcher term element Ht) as (r & ->).
  simpl. rewrite IH. simpl. eauto.
Qed.

Lemma findIn_total (elements : list Entry) (term : string) :
  exists rs, findIn localeCompare elements term = Ok rs.
Proof. apply map_filter_total, term_of_escaped. Qed.

Lemma flattened_total (sidebarNodes : SidebarNodes) (term : string) :
  exists ms es ts,
    findIn localeCompare (modules sidebarNodes) term = Ok ms
    /\ findIn localeCompare (exceptions sidebarNodes) term = Ok es
    /\ findIn localeCompare (tasks sidebarNodes) term = Ok ts
    /\ flattened localeCompare sidebarNodes term
       = Ok (flat_map parseModuleResults
               (addCategory ms Module_ ++ addCategory es Exception
                  ++ addCategory ts Mix_Task)%list).
Proof.
  destruct (findIn_total (modules sidebarNodes) term) as (ms & Hm).
  destruct (findIn_total (exceptions sidebarNodes) term) as (es & He).
  destruct (findIn_total (tasks sidebarNodes) term) as (ts & Htk).
  exists ms, es, ts. repeat split; auto.
  unfold flattened. rewrite Hm, He, Htk. simpl. f_equal.
  generalize (addCategory ms Module_ ++ addCategory es Exception
                ++ addCategory ts Mix_Task)%list.
  intros l. rewrite <- (app_nil_l (flat_map _ l)).
  generalize (@nil SuggestionItem).
  induction l as [|r l IH]; intros acc; simpl.
  - now rewrite app_nil_r.
  - rewrite IH. now rewrite app_assoc.
Qed.

Lemma getSuggestions_total (sidebarNodes : SidebarNodes) (term : string) :
  exists out, getSuggestions localeCompare sidebarNodes term = Ok out.
Proof.
  unfold getSuggestions.
  destruct (Nat.eqb _ 0); [eauto|].
  destruct (flattened_total sidebarNodes term) as (? & ? & ? & _ & _ & _ & ->).
  simpl. eauto.
Qed.
End Collation.

End SearchFacts.

(** ** The nested matching rule *)

Module NestedRule.
Import Str StrFacts MatchFacts SearchFacts.

Lemma term_of_cases (t term : string) :
  term = t \/ term = pop (split "." t) ->
  term_of (escaped_RegExp_i t) term.
Proof.
  intros [-> | ->]; [reflexivity|]. apply term_of_pop. reflexivity.
Qed.

Lemma and_match_nonempty (c : string) (matcher : RegExp) (m : Match) :
  and_match (Some c) matcher = Some m -> str_match c matcher = Some m.
Proof.
  unfold and_match. now destruct (String.eqb c "").
Qed.

(** One step of [findNested] through the qualified-name branch. *)
Lemma qualified_branch_step (element : Node) (elements : list Node)
    (parentId : option string) (matcher : RegExp) (term : string)
    (acc : Obj.t Node) :
  term_of matcher term ->
  Obj.truthy acc (node_id element) = false ->
  and_match (Some (node_id element)) matcher = None ->
  str_match (ToString parentId ++ ".") matcher = None ->
  isSome (str_match (ToString parentId ++ "." ++ node_id element) matcher)
  = true ->
  exists m hl,
    str_match (node_id element)
      (escaped_RegExp_i (pop (split "." (literal matcher)))) = Some m
    /\ highlight (Some m) = Ok hl
    /\ findNested_from (element :: elements) parentId matcher term acc
       = findNested_from elements parentId matcher
           (pop (split "." (literal matcher)))
           (Obj.set acc (node_id element)
              (set_match (JSON_copy element) hl)).
Proof.
  intros Ht Hacc Hc Hp Hf.
  destruct (qualified_branch_match _ _ _ _ Ht Hp Hf) as (m & Hm).
  destruct (highlight_Some m) as (hl & Hhl).
  exists m, hl. rewrite <- Ht. split; [|split]; auto.
  - now apply and_match_nonempty.
  - rewrite findNested_from_cons, Hacc, Hc, Hp, Hf, Hm, Hhl. reflexivity.
Qed.

End NestedRule.

(** C9. Whenever [findNested] takes the qualified-name branch (the id of
    the child is not matched, the parent followed by a dot is not
    matched, the parent, a dot and the id are matched), the id is matched
    by the expression built from the last dot-separated segment of the
    term, so that [highlight] receives a match and returns; and no call
    of [getSuggestions] throws. *)
Theorem qualified_name_branch_is_safe
    (localeCompare : string -> string -> Z) (sidebarNodes : SidebarNodes)
    (t : string) :
  (exists out, getSuggestions localeCompare sidebarNodes t = Ok out)
  /\ forall (parentId : option string) (c term : string),
      term = t \/ term = Str.pop (Str.split "." t) ->
      and_match (Some c) (escaped_RegExp_i t) = None ->
      str_match (ToString parentId ++ ".") (escaped_RegExp_i t) = None ->
      isSome (str_match (ToString parentId ++ "." ++ c) (escaped_RegExp_i t))
      = true ->
      exists m hl,
        and_match (Some c) (escaped_RegExp_i (Str.pop (Str.split "." term)))
        = Some m
        /\ highlight (Some m) = Ok hl.
Proof.
  split; [apply SearchFacts.getSuggestions_total|].
  intros parentId c term Hterm _ Hp Hf.
  apply NestedRule.term_of_cases in Hterm.
  destruct (SearchFacts.qualified_branch_match _ _ _ _ Hterm Hp Hf) as (m & Hm).
  destruct (SearchFacts.highlight_Some m) as (hl & Hhl).
  now exists m, hl.
Qed.

Lemma qualified_name_branch_is_safe_witness :
  exists m hl,
    and_match (Some "bar")
      (escaped_RegExp_i (Str.pop (Str.split "." "Foo.bar"))) = Some m
    /\ highlight (Some m) = Ok hl.
Proof.
  apply (proj2 (qualified_name_branch_is_safe codeUnitCompare Foo_bar "Foo.bar")
           (Some "Foo") "bar" "Foo.bar");
    [left; reflexivity | reflexivity | reflexivity | reflexivity].
Defined.

(** C1, as the code has it.  [findIn] hands the title of the entry to
    [findNested] as the parent: for a child that is not skipped, whose
    id [c] is not matched by the term [t], while [p.c] is and [p.] is not,
    [p] being the title of the entry, the copy stored under [c] has for
    match the id with the leftmost occurrence of the last dot-separated
    segment of [t] highlighted.  For the module [Foo] titled [Foo] with
    the function [bar], the queries [Foo.bar] and [bar] both give the one
    Child item of [bar], described by [Foo]. *)
Theorem nested_matching_rule (localeCompare : string -> string -> Z) :
  (forall (element : Node) (elements : list Node) (title : option string)
          (t term : string) (acc : Obj.t Node),
      term = t \/ term = Str.pop (Str.split "." t) ->
      Obj.truthy acc (node_id element) = false ->
      and_match (Some (node_id element)) (escaped_RegExp_i t) = None ->
      str_match (ToString title ++ ".") (escaped_RegExp_i t) = None ->
      isSome (str_match (ToString title ++ "." ++ node_id element)
                (escaped_RegExp_i t)) = true ->
      exists m hl,
        str_match (node_id element)
          (escaped_RegExp_i (Str.pop (Str.split "." t))) = Some m
        /\ highlight (Some m) = Ok hl
        /\ findNested_from (element :: elements) title (escaped_RegExp_i t)
             term acc
           = findNested_from elements title (escaped_RegExp_i t)
               (Str.pop (Str.split "." t))
               (Obj.set acc (node_id element)
                  (set_match (JSON_copy element) hl)))
  /\ getSuggestions localeCompare Foo_bar "Foo.bar" = Ok [bar_item]
  /\ getSuggestions localeCompare Foo_bar "bar" = Ok [bar_item].
Proof.
  split; [|split; reflexivity].
  intros element elements title t term acc Hterm Hacc Hc Hp Hf.
  apply NestedRule.term_of_cases in Hterm.
  exact (NestedRule.qualified_branch_step element elements title
           (escaped_RegExp_i t) term acc Hterm Hacc Hc Hp Hf).
Qed.

Lemma nested_matching_rule_witness :
  exists m hl,
    str_match "bar" (escaped_RegExp_i (Str.pop (Str.split "." "Foo.bar")))
    = Some m
    /\ highlight (Some m) = Ok hl
    /\ findNested_from [mkNode "bar" (Some "bar/1")] (Some "Foo")
         (escaped_RegExp_i "Foo.bar") "Foo.bar" []
       = findNested_from [] (Some "Foo") (escaped_RegExp_i "Foo.bar")
           (Str.pop (Str.split "." "Foo.bar"))
           (Obj.set [] "bar"
              (set_match (JSON_copy (mkNode "bar" (Some "bar/1"))) hl)).
Proof.
  apply (proj1 (nested_matching_rule codeUnitCompare)
           (mkNode "bar" (Some "bar/1")) [] (Some "Foo") "Foo.bar" "Foo.bar" []);
    [left; reflexivity | reflexivity | reflexivity | reflexivity | reflexivity].
Defined.

(** C1 as stated fails: with the parent taken by its id [Foo], the child
    [bar] and the term [Foo.bar] meet the three conditions, but the entry
    is titled [Baz]: the copy of [bar] keeps its plain id for match, and
    no item is suggested for [bar]. *)
Lemma nested_rule_by_id_fails :
  and_match (Some "bar") (escaped_RegExp_i "Foo.bar") = None
  /\ str_match ("Foo" ++ ".") (escaped_RegExp_i "Foo.bar") = None
  /\ isSome (str_match ("Foo" ++ "." ++ "bar") (escaped_RegExp_i "Foo.bar"))
     = true
  /\ findIn codeUnitCompare (modules Foo_titled_Baz) "Foo.bar"
     = Ok [ {| res_id := "Foo"; res_match := Some "Baz";
               res_functions :=
                 Some [set_match (mkNode "bar" (Some "bar/1")) "bar"];
               res_callbacks := None; res_types := None;
               res_category := None |} ]
  /\ getSuggestions codeUnitCompare Foo_titled_Baz "Foo.bar"
     = Ok [ {| link := "Foo.html"; title := Some "Baz"; description := None;
               label := None; category := Some Module_ |} ].
Proof. split; [|split; [|split; [|split]]]; reflexivity. Qed.

(** ** The title of an entry *)

Module TitleFacts.
Import SearchFacts.

Section Collation.
Variable localeCompare : string -> string -> Z.

Lemma found_store_keeps (result : Found) (key : Key) (matches : Obj.t Node) :
  found_id (found_store result key matches) = found_id result
  /\ found_match (found_store result key matches) = found_match result.
Proof. destruct key; split; reflexivity. Qed.

(** The loop over the node groups leaves [id] and [match] alone and
    never lowers [hasMatch]. *)
Lemma findIn_groups_keeps (nodeGroups : list (Key * list Node))
    (title : option string) (matcher : RegExp) (term : string)
    (result result' : Found) (hasMatch hasMatch' : bool) :
  findIn_groups nodeGroups title matcher term result hasMatch
  = Ok (result', hasMatch') ->
  found_id result' = found_id result
  /\ found_match result' = found_match result
  /\ (hasMatch = true -> hasMatch' = true).
Proof.
  revert result hasMatch.
  induction nodeGroups as [|[key nodes] nodeGroups IH];
    intros result hasMatch H; simpl in H.
  - injection H as <- <-. auto.
  - destruct (findNested nodes title matcher term (found_get result key))
      as [matches|]; simpl in H; [|discriminate].
    destruct (Obj.nonEmpty matches).
    + apply IH in H as (Hid & Hm & Hh).
      destruct (found_store_keeps result key matches) as [E1 E2].
      rewrite Hid, Hm, E1, E2. auto.
    + now apply IH in H.
Qed.

Lemma findIn_element_match (term : string) (element : Entry) :
  exists r,
    findIn_element localeCompare (escaped_RegExp_i term) term element = Ok r
    /\ match and_match (entry_title element) (escaped_RegExp_i term) with
       | Some m =>
           exists x hl,
             r = Some x /\ highlight (Some m) = Ok hl
             /\ res_match x = Some hl
       | None => forall x, r = Some x -> res_match x = entry_title element
       end.
Proof.
  destruct (findIn_element_total localeCompare (escaped_RegExp_i term) term
              element (term_of_escaped term)) as (r & Hr).
  exists r. split; [exact Hr|].
  unfold findIn_element in Hr.
  destruct (and_match (entry_title element) (escaped_RegExp_i term))
    as [m|]; cbn [isSome highlight bind] in Hr.
  - match type of Hr with
    | context [findIn_groups ?g ?t ?mt ?tm ?res ?h] =>
        destruct (findIn_groups g t mt tm res h) as [[res' h']|] eqn:E;
          [|discriminate]
    end.
    apply findIn_groups_keeps in E as (_ & Em & Eh).
    rewrite (Eh eq_refl) in Hr. cbn [bind] in Hr. injection Hr as <-.
    eexists _, _. split; [reflexivity|]. split; [reflexivity|].
    cbn [res_match]. rewrite Em. reflexivity.
  - match type of Hr with
    | context [findIn_groups ?g ?t ?mt ?tm ?res ?h] =>
        destruct (findIn_groups g t mt tm res h) as [[res' h']|] eqn:E;
          [|discriminate]
    end.
    apply findIn_groups_keeps in E as (_ & Em & _).
    cbn [bind] in Hr. intros x ->.
    destruct h'; [|discriminate]. injection Hr as <-.
    cbn [res_match]. rewrite Em. reflexivity.
Qed.
End Collation.

End TitleFacts.

(** C4, as the code has it.  The term is matched against the title of the
    entry and against nothing else: on a match the result holds the
    highlighted title (the leftmost occurrence wrapped, when its text has
    no [$]); otherwise it holds the title as it is, and nothing when the
    entry has no title.  The id is never tried. *)
Theorem title_is_matched_not_id
    (localeCompare : string -> string -> Z) (term : string) (element : Entry) :
  exists r,
    findIn_element localeCompare (escaped_RegExp_i term) term element = Ok r
    /\ match and_match (entry_title element) (escaped_RegExp_i term) with
       | Some m =>
           exists x hl,
             r = Some x /\ highlight (Some m) = Ok hl /\ res_match x = Some hl
             /\ (no_dollar (m_0 m) = true ->
                 hl = Str.take (m_index m) (m_input m) ++ "<em>" ++ m_0 m
                        ++ "</em>"
                        ++ Str.drop (m_index m + String.length term)
                             (m_input m))
       | None => forall x, r = Some x -> res_match x = entry_title element
       end
    /\ (entry_title element = None ->
        and_match (entry_title element) (escaped_RegExp_i term) = None).
Proof.
  destruct (TitleFacts.findIn_element_match localeCompare term element)
    as (r & Hr & Hm).
  exists r. split; [exact Hr|]. split; [|now intros ->].
  destruct (and_match (entry_title element) (escaped_RegExp_i term))
    as [m|] eqn:E; [|exact Hm].
  destruct Hm as (x & hl & -> & Hhl & Hx).
  exists x, hl. repeat split; auto.
  intros Hd. unfold and_match in E.
  destruct (entry_title element) as [s|]; [|discriminate].
  destruct (String.eqb s ""); [discriminate|].
  pose proof (MatchFacts.highlight_wraps _ _ _ E Hd) as Hw.
  destruct (MatchFacts.str_match_Some _ _ _ E) as (_ & _ & -> & _).
  rewrite Hhl in Hw. now injection Hw.
Qed.

Lemma title_is_matched_not_id_witness :
  and_match (entry_title (mkEntry "Foo" None []))
    (escaped_RegExp_i "foo") = None.
Proof.
  destruct (title_is_matched_not_id codeUnitCompare "foo" (mkEntry "Foo" None []))
    as (r & _ & _ & H).
  apply H. reflexivity.
Defined.

(** C4 as stated fails: the id [Foo] of an entry without a title is
    matched by the term [foo], and yet the entry is found with no match
    string at all; the item suggested for it has no title. *)
Lemma title_fallback_fails :
  isSome (str_match "Foo" (escaped_RegExp_i "foo")) = true
  /\ findIn codeUnitCompare (modules Foo_untitled) "foo"
     = Ok [ {| res_id := "Foo"; res_match := None;
               res_functions :=
                 Some [set_match (mkNode "foo" (Some "foo/0")) "<em>foo</em>"];
               res_callbacks := None; res_types := None;
               res_category := None |} ]
  /\ getSuggestions codeUnitCompare Foo_untitled "foo"
     = Ok [ {| link := "Foo.html"; title := None; description := None;
               label := None; category := Some Module_ |};
            {| link := "Foo.html#foo/0"; title := Some "<em>foo</em>";
               description := Some "Foo"; label := None;
               category := Some Child |} ].
Proof. split; [|split]; reflexivity. Qed.

(** C3 at the failing input: no part of the Mix task is matched by the
    term [zzz], and the task is listed, with its title as it is. *)
Theorem unmatched_task_is_listed (localeCompare : string -> string -> Z) :
  str_match "mix docs" (escaped_RegExp_i "zzz") = None
  /\ str_match "run" (escaped_RegExp_i "zzz") = None
  /\ getSuggestions localeCompare mix_docs "zzz"
     = Ok [ {| link := "Mix.Tasks.Docs.html"; title := Some "mix docs";
               description := None; label := None;
               category := Some Mix_Task |} ].
Proof. split; [|split]; reflexivity. Qed.

(** C10 at the failing input: the matched text [$$] is read as a pattern
    of the replacement, and a single [$] is wrapped in its place. *)
Theorem highlight_reads_dollar_patterns :
  str_match "a$$b" (escaped_RegExp_i "$$")
  = Some {| m_0 := "$$"; m_index := 1; m_input := "a$$b" |}
  /\ highlight (str_match "a$$b" (escaped_RegExp_i "$$")) = Ok "a<em>$</em>b"
  /\ highlight (str_match "x$'y" (escaped_RegExp_i "$'")) = Ok "x<em>y</em>y".
Proof. split; [|split]; reflexivity. Qed.

(** ** Blank terms and the number of results *)

Module TermFacts.
Import Str.

Lemma trimStart_blank (t : string) :
  all_chars isWhiteSpace t = true -> trimStart t = "".
Proof.
  induction t as [|c t IH]; simpl; intros H; [reflexivity|].
  apply andb_true_iff in H as [-> H]. now apply IH.
Qed.

Lemma trimEnd_head (c : ascii) (t : string) :
  isWhiteSpace c = false -> trimEnd (String c t) <> "".
Proof.
  intros Hc. simpl. destruct (trimEnd t); [now rewrite Hc | discriminate].
Qed.

(** The test that opens [getSuggestions]. *)
Lemma trim_length_0 (t : string) :
  Nat.eqb (String.length (trim t)) 0 = all_chars isWhiteSpace t.
Proof.
  unfold trim. induction t as [|c t IH]; [reflexivity|].
  cbn [trimStart all_chars]. destruct (isWhiteSpace c) eqn:Ec; [exact IH|].
  pose proof (trimEnd_head c t Ec) as H.
  destruct (trimEnd (String c t)); [congruence | reflexivity].
Qed.
End TermFacts.

(** C7. On the empty term and on a term made of white space only,
    [getSuggestions] returns the empty array, and does not throw. *)
Theorem blank_term_gives_nothing
    (localeCompare : string -> string -> Z) (sidebarNodes : SidebarNodes)
    (term : string) :
  Str.all_chars Str.isWhiteSpace term = true ->
  getSuggestions localeCompare sidebarNodes term = Ok [].
Proof.
  intros H. unfold getSuggestions.
  now rewrite TermFacts.trim_length_0, H.
Qed.

Lemma blank_term_gives_nothing_witness :
  getSuggestions codeUnitCompare Foo_bar "   " = Ok []
  /\ getSuggestions codeUnitCompare Foo_bar "" = Ok [].
Proof.
  split.
  - apply (blank_term_gives_nothing codeUnitCompare Foo_bar "   "). reflexivity.
  - apply (blank_term_gives_nothing codeUnitCompare Foo_bar ""). reflexivity.
Defined.

(** C6. [getSuggestions] returns, and returns at most five items: the
    first five of the sorted results. *)
Theorem at_most_five_results
    (localeCompare : string -> string -> Z) (sidebarNodes : SidebarNodes)
    (term : string) :
  exists out,
    getSuggestions localeCompare sidebarNodes term = Ok out
    /\ List.length out <= 5
    /\ (Str.all_chars Str.isWhiteSpace term = false ->
        exists results,
          flattened localeCompare sidebarNodes term = Ok results
          /\ out = firstn 5 (Arr.sort compareItems results)).
Proof.
  unfold getSuggestions. rewrite TermFacts.trim_length_0.
  destruct (Str.all_chars Str.isWhiteSpace term).
  - exists []. simpl. repeat split; [lia | discriminate].
  - destruct (SearchFacts.flattened_total localeCompare sidebarNodes term)
      as (ms & es & ts & _ & _ & _ & ->).
    cbn [bind]. eexists. split; [reflexivity|]. split.
    + apply firstn_le_length.
    + intros _. eexists. split; reflexivity.
Qed.

(** ** Sorting *)

Module SortFacts.

Section Sort.
Context {A : Type}.
Variable comparefn : A -> A -> Z.

Lemma insert_Permutation (x : A) (l : list A) :
  Permutation (x :: l) (Arr.insert comparefn x l).
Proof.
  induction l as [|y l IH]; simpl; [reflexivity|].
  destruct (comparefn x y <=? 0)%Z; [reflexivity|].
  rewrite perm_swap. now constructor.
Qed.

Lemma sort_Permutation (l : list A) : Permutation l (Arr.sort comparefn l).
Proof.
  induction l as [|x l IH]; simpl; [reflexivity|].
  rewrite <- insert_Permutation. now constructor.
Qed.

(** Stability: a class of elements that the comparison function
    never separates keeps its order. *)
Lemma insert_filter (P : A -> bool) (x : A) (l : list A) :
  (forall y, P x = true -> P y = true -> (comparefn x y <= 0)%Z) ->
  filter P (Arr.insert comparefn x l) = filter P (x :: l).
Proof.
  intros Htie. induction l as [|y l IH]; [reflexivity|].
  cbn [Arr.insert]. destruct (comparefn x y <=? 0)%Z eqn:E; [reflexivity|].
  cbn [filter] in *. rewrite IH.
  destruct (P x) eqn:Px; [|reflexivity].
  destruct (P y) eqn:Py; [|reflexivity].
  apply Z.leb_gt in E. specialize (Htie y eq_refl Py). lia.
Qed.

Lemma sort_filter (P : A -> bool) (l : list A) :
  (forall x y, P x = true -> P y = true -> (comparefn x y <= 0)%Z) ->
  filter P (Arr.sort comparefn l) = filter P l.
Proof.
  intros Htie. induction l as [|x l IH]; [reflexivity|].
  cbn [Arr.sort]. rewrite insert_filter by (intros; now apply Htie).
  cbn [filter]. now rewrite IH.
Qed.

Hypothesis comparefn_total :
  forall x y, (0 < comparefn x y)%Z -> (comparefn y x <= 0)%Z.
Hypothesis comparefn_trans :
  forall x y z,
    (comparefn x y <= 0)%Z -> (comparefn y z <= 0)%Z ->
    (comparefn x z <= 0)%Z.

Lemma insert_StronglySorted (x : A) (l : list A) :
  StronglySorted (fun a b => (comparefn a b <= 0)%Z) l ->
  StronglySorted (fun a b => (comparefn a b <= 0)%Z)
    (Arr.insert comparefn x l).
Proof.
  induction 1 as [|y l Hl IH Hy]; simpl.
  - constructor; constructor.
  - destruct (comparefn x y <=? 0)%Z eqn:E.
    + apply Z.leb_le in E. constructor; [now constructor|].
      constructor; [exact E|].
      rewrite Forall_forall in *. intros z Hz. eauto.
    + apply Z.leb_gt in E. constructor; [exact IH|].
      rewrite Forall_forall in *. intros z Hz.
      apply (Permutation_in _ (Permutation_sym (insert_Permutation x l)))
        in Hz.
      destruct Hz as [<- | Hz]; auto.
Qed.

Lemma sort_StronglySorted (l : list A) :
  StronglySorted (fun a b => (comparefn a b <= 0)%Z) (Arr.sort comparefn l).
Proof.
  induction l as [|x l IH]; simpl; [constructor|].
  now apply insert_StronglySorted.
Qed.
End Sort.

Lemma StronglySorted_firstn {A} (R : A -> A -> Prop) (n : nat) (l : list A) :
  StronglySorted R l -> StronglySorted R (firstn n l).
Proof.
  intros H. revert n. induction H as [|x l Hl IH Hx]; intros [|n]; simpl;
    try constructor; auto.
  rewrite Forall_forall in *. intros y Hy.
  apply Hx. eapply (In_nth_error) in Hy as (k & Hk).
  apply nth_error_In with (n := k).
  rewrite nth_error_firstn in Hk. now destruct (k <? n)%nat.
Qed.

Lemma StronglySorted_weaken {A} (R S : A -> A -> Prop) (P : A -> Prop)
    (l : list A) :
  (forall a b, P a -> P b -> R a b -> S a b) ->
  Forall P l -> StronglySorted R l -> StronglySorted S l.
Proof.
  intros HRS HP H. induction H as [|x l Hl IH Hx]; constructor.
  - apply IH. now inversion HP.
  - inversion HP as [|? ? Px Pl]; subst.
    rewrite Forall_forall in *. intros y Hy. auto.
Qed.

(** *** The comparison of [getSuggestions] *)

Lemma compareItems_total (x y : SuggestionItem) :
  (0 < compareItems x y)%Z -> (compareItems y x <= 0)%Z.
Proof. unfold compareItems. lia. Qed.

Lemma compareItems_trans (x y z : SuggestionItem) :
  (compareItems x y <= 0)%Z -> (compareItems y z <= 0)%Z ->
  (compareItems x z <= 0)%Z.
Proof. unfold compareItems. lia. Qed.

Lemma weight_rank (a b : option Category) :
  a <> None -> b <> None ->
  ((weight b - weight a <= 0)%Z <-> (rank b <= rank a)%Z).
Proof.
  destruct a as [[]|], b as [[]|]; try congruence; intros _ _;
    unfold weight; simpl; lia.
Qed.

Lemma hasCategory_tie (c : option Category) (x y : SuggestionItem) :
  category x <> None -> category y <> None ->
  hasCategory c x = true -> hasCategory c y = true ->
  (compareItems x y <= 0)%Z.
Proof.
  unfold hasCategory, compareItems. rewrite !Z.eqb_eq.
  intros Hx Hy Ex Ey. apply weight_rank; auto. lia.
Qed.

(** Every suggested item has one of the four categories. *)
Lemma serialize_category (item : Item) (moduleId : string) (isChild : bool) :
  (isChild = false -> item_category item <> None) ->
  category (serialize item moduleId isChild) <> None.
Proof.
  destruct isChild; simpl; [discriminate | auto].
Qed.

Lemma parseModuleResults_category (r : ModuleResults) :
  res_category r <> None ->
  Forall (fun item => category item <> None) (parseModuleResults r).
Proof.
  intros Hr. unfold parseModuleResults.
  assert (Hc : forall l moduleId,
             Forall (fun item => category item <> None)
               (map (fun item => serialize (Item_of_Node item) moduleId true) l)).
  { intros l moduleId. rewrite Forall_forall. intros x Hx.
    apply in_map_iff in Hx as (n & <- & _). discriminate. }
  destruct (isMatch (Item_of_ModuleResults r)); [constructor|]; auto.
Qed.

Lemma addCategory_category (l : list ModuleResults) (c : Category) :
  Forall (fun r => res_category r <> None) (addCategory l c).
Proof.
  rewrite Forall_forall. intros r Hr.
  apply in_map_iff in Hr as (x & <- & _). discriminate.
Qed.

Lemma flat_map_category (l : list ModuleResults) :
  Forall (fun r => res_category r <> None) l ->
  Forall (fun item => category item <> None) (flat_map parseModuleResults l).
Proof.
  induction 1 as [|r l Hr Hl IH]; simpl; [constructor|].
  apply Forall_app. split; [now apply parseModuleResults_category | exact IH].
Qed.

(** The parent, when it is listed, comes before its children, and the
    children come by group: functions, callbacks, types. *)
Lemma parseModuleResults_order (r : ModuleResults) :
  parseModuleResults r
  = ((if isMatch (Item_of_ModuleResults r)
      then [serialize (Item_of_ModuleResults r) (res_id r) false]
      else [])
     ++ map (fun item => serialize (Item_of_Node item) (res_id r) true)
          (filter (fun item => isMatch (Item_of_Node item))
             (or_empty (res_functions r)
              ++ addLabel (or_empty (res_callbacks r)) "callback"
              ++ addLabel (or_empty (res_types r)) "type")))%list.
Proof.
  unfold parseModuleResults.
  now destruct (isMatch (Item_of_ModuleResults r)).
Qed.

End SortFacts.

(** C2. The items returned are in the order of the priorities Module,
    Child, Exception, Mix Task: a later item never has a higher priority
    than an earlier one.  The sort is stable: the sorted array is a
    permutation of the flattened results in which the items of each
    category keep the order they had, that is modules before exceptions
    before tasks, entry by entry, the parent before its children. *)
Theorem ranking_by_priority_is_stable
    (localeCompare : string -> string -> Z) (sidebarNodes : SidebarNodes)
    (term : string) :
  exists ms es ts results sorted out,
    findIn localeCompare (modules sidebarNodes) term = Ok ms
    /\ findIn localeCompare (exceptions sidebarNodes) term = Ok es
    /\ findIn localeCompare (tasks sidebarNodes) term = Ok ts
    /\ results
       = flat_map parseModuleResults
           (addCategory ms Module_ ++ addCategory es Exception
              ++ addCategory ts Mix_Task)%list
    /\ flattened localeCompare sidebarNodes term = Ok results
    /\ sorted = Arr.sort compareItems results
    /\ Permutation results sorted
    /\ StronglySorted
         (fun a b => (rank (category b) <= rank (category a))%Z) sorted
    /\ (forall c, filter (hasCategory c) sorted = filter (hasCategory c) results)
    /\ getSuggestions localeCompare sidebarNodes term = Ok out
    /\ out = (if Str.all_chars Str.isWhiteSpace term then []
              else firstn 5 sorted)
    /\ StronglySorted
         (fun a b => (rank (category b) <= rank (category a))%Z) out
    /\ Forall (fun item => exists c, category item = Some c) out.
Proof.
  destruct (SearchFacts.flattened_total localeCompare sidebarNodes term)
    as (ms & es & ts & Hm & He & Ht & Hf).
  set (results := flat_map parseModuleResults
                    (addCategory ms Module_ ++ addCategory es Exception
                       ++ addCategory ts Mix_Task)%list) in *.
  set (sorted := Arr.sort compareItems results).
  assert (Hcat : Forall (fun item => category item <> None) results).
  { apply SortFacts.flat_map_category.
    repeat (apply Forall_app; split); apply SortFacts.addCategory_category. }
  assert (Hperm : Permutation results sorted)
    by apply SortFacts.sort_Permutation.
  assert (Hcat' : Forall (fun item => category item <> None) sorted).
  { rewrite Forall_forall in *. intros x Hx. apply Hcat.
    eapply Permutation_in; [symmetry; exact Hperm | exact Hx]. }
  assert (Hsorted : StronglySorted
            (fun a b => (rank (category b) <= rank (category a))%Z) sorted).
  { apply SortFacts.StronglySorted_weaken
      with (R := fun a b => (compareItems a b <= 0)%Z)
           (P := fun item => category item <> None); auto.
    - intros a b Ha Hb. unfold compareItems.
      now apply SortFacts.weight_rank.
    - apply SortFacts.sort_StronglySorted.
      + apply SortFacts.compareItems_total.
      + apply SortFacts.compareItems_trans. }
  exists ms, es, ts, results, sorted.
  exists (if Str.all_chars Str.isWhiteSpace term then [] else firstn 5 sorted).
  repeat (split; [solve [auto]|]).
  split.
  { intros c.
    assert (Hfil : forall l,
               Forall (fun item => category item <> None) l ->
               filter (fun x => hasCategory c x
                                && negb (Z.eqb (rank (category x)) (-1))) l
               = filter (hasCategory c) l).
    { intros l Hl. apply filter_ext_in.
      rewrite Forall_forall in Hl. intros x Hx. specialize (Hl x Hx).
      destruct (category x) as [[]|]; try congruence;
        now rewrite andb_true_r. }
    rewrite <- (Hfil sorted Hcat'), <- (Hfil results Hcat).
    apply SortFacts.sort_filter.
    intros x y Hx Hy.
    apply andb_true_iff in Hx as [Hx Nx], Hy as [Hy Ny].
    apply SortFacts.hasCategory_tie with (c := c); auto.
    - intros E. rewrite E in Nx. discriminate.
    - intros E. rewrite E in Ny. discriminate. }
  split.
  { unfold getSuggestions. rewrite TermFacts.trim_length_0.
    destruct (Str.all_chars Str.isWhiteSpace term); [reflexivity|].
    rewrite Hf. reflexivity. }
  split; [reflexivity|].
  split.
  - destruct (Str.all_chars Str.isWhiteSpace term); [constructor|].
    now apply SortFacts.StronglySorted_firstn.
  - destruct (Str.all_chars Str.isWhiteSpace term); [constructor|].
    rewrite Forall_forall in *. intros x Hx.
    apply In_nth_error in Hx as (k & Hk).
    rewrite nth_error_firstn in Hk.
    destruct (k <? 5)%nat; [|discriminate].
    apply nth_error_In in Hk. specialize (Hcat' x Hk).
    destruct (category x); [eauto | congruence].
Qed.

(** ** Case and literal reading of the term *)

Module CaseFacts.
Import Str StrFacts MatchFacts SearchFacts.

Lemma ci_equal_refl (a : string) : ci_equal a a = true.
Proof.
  induction a as [|x a IH]; simpl; [reflexivity|].
  now rewrite eq_ignoreCase_refl, IH.
Qed.

Lemma ci_equal_length (a b : string) :
  ci_equal a b = true -> String.length a = String.length b.
Proof.
  revert b; induction a as [|x a IH]; intros [|y b] H; simpl in *;
    try discriminate; auto.
  apply andb_true_iff in H as [_ H]. f_equal. now apply IH.
Qed.

Lemma eq_ignoreCase_left (x y c : ascii) :
  eq_ignoreCase x y = true -> eq_ignoreCase x c = eq_ignoreCase y c.
Proof.
  unfold eq_ignoreCase. rewrite N.eqb_eq. now intros ->.
Qed.

Lemma ci_equal_starts (t1 t2 s : string) :
  ci_equal t1 t2 = true ->
  starts eq_ignoreCase t1 s = starts eq_ignoreCase t2 s.
Proof.
  revert t2 s; induction t1 as [|x t1 IH]; intros [|y t2] s H; simpl in *;
    try discriminate; auto.
  apply andb_true_iff in H as [Hxy H]. destruct s as [|c s]; auto.
  now rewrite (eq_ignoreCase_left _ _ c Hxy), (IH _ s H).
Qed.

Lemma ci_equal_search (t1 t2 s : string) (i : nat) :
  ci_equal t1 t2 = true ->
  search eq_ignoreCase t1 s i = search eq_ignoreCase t2 s i.
Proof.
  intros H. revert i; induction s as [|c s IH]; intros i; simpl;
    rewrite (ci_equal_starts _ _ _ H); [reflexivity|].
  now rewrite IH.
Qed.

Lemma str_match_ci (s : string) (m1 m2 : RegExp) :
  ci_equal (literal m1) (literal m2) = true ->
  str_match s m1 = str_match s m2.
Proof.
  intros H. unfold str_match.
  now rewrite (ci_equal_search _ _ s 0 H), (ci_equal_length _ _ H).
Qed.

Lemma and_match_ci (x : option string) (m1 m2 : RegExp) :
  ci_equal (literal m1) (literal m2) = true ->
  and_match x m1 = and_match x m2.
Proof.
  intros H. unfold and_match. destruct x as [s|]; [|reflexivity].
  now rewrite (str_match_ci s _ _ H).
Qed.

Lemma eq_ignoreCase_is_dot (a b : ascii) :
  eq_ignoreCase a b = true -> Ascii.eqb a "." = Ascii.eqb b ".".
Proof.
  intros H. unfold eq_ignoreCase in H. apply N.eqb_eq in H.
  destruct (Ascii.eqb_spec a "."), (Ascii.eqb_spec b "."); auto; subst.
  - symmetry in H. now apply Canonicalize_dot in H.
  - now apply Canonicalize_dot in H.
Qed.

Lemma split_ci (t1 t2 : string) :
  ci_equal t1 t2 = true ->
  Forall2 (fun a b => ci_equal a b = true) (split "." t1) (split "." t2).
Proof.
  revert t2; induction t1 as [|x t1 IH]; intros [|y t2] H; simpl in *;
    try discriminate.
  - repeat constructor.
  - apply andb_true_iff in H as [Hxy H].
    rewrite <- (eq_ignoreCase_is_dot _ _ Hxy).
    specialize (IH _ H).
    destruct (Ascii.eqb x "."); [now repeat constructor|].
    inversion IH as [|seg1 seg2 rest1 rest2 Hseg Hrest]; subst.
    + repeat constructor. simpl. now rewrite Hxy.
    + constructor; [|exact Hrest]. simpl. now rewrite Hxy, Hseg.
Qed.

Lemma Forall2_last {A} (R : A -> A -> Prop) (l1 l2 : list A) (d1 d2 : A) :
  Forall2 R l1 l2 -> R d1 d2 -> R (List.last l1 d1) (List.last l2 d2).
Proof.
  intros H Hd. induction H as [|x y l1 l2 Hxy Hl IH]; simpl; auto.
  destruct Hl; auto.
Qed.

Lemma pop_split_ci (t1 t2 : string) :
  ci_equal t1 t2 = true ->
  ci_equal (pop (split "." t1)) (pop (split "." t2)) = true.
Proof.
  intros H. unfold pop.
  apply Forall2_last with (R := fun a b => ci_equal a b = true);
    [now apply split_ci | reflexivity].
Qed.

Lemma findNested_from_ci (elements : list Node) (parentId : option string)
    (m1 m2 : RegExp) (t1 t2 : string) (acc : Obj.t Node) :
  ci_equal (literal m1) (literal m2) = true ->
  ci_equal t1 t2 = true ->
  findNested_from elements parentId m1 t1 acc
  = findNested_from elements parentId m2 t2 acc.
Proof.
  intros Hm. revert t1 t2 acc.
  induction elements as [|element elements IH]; intros t1 t2 acc Ht;
    [reflexivity|].
  rewrite !findNested_from_cons.
  rewrite (and_match_ci _ _ _ Hm), !(str_match_ci _ _ _ Hm).
  rewrite (and_match_ci (Some (node_id element))
             (escaped_RegExp_i (pop (split "." t1)))
             (escaped_RegExp_i (pop (split "." t2))))
    by now apply pop_split_ci.
  destruct (Obj.truthy acc (node_id element)); [now apply IH|].
  destruct (isSome (and_match (Some (node_id element)) m2)).
  - destruct (highlight _); simpl; [now apply IH | reflexivity].
  - destruct (negb _ && _).
    + destruct (highlight _); simpl; [|reflexivity].
      apply IH. now apply pop_split_ci.
    + now apply IH.
Qed.

Lemma isWhiteSpace_Canonicalize (c : ascii) :
  isWhiteSpace c = ws_code (Canonicalize c).
Proof.
  destruct c as [b0 b1 b2 b3 b4 b5 b6 b7].
  destruct b0, b1, b2, b3, b4, b5, b6, b7; vm_compute; reflexivity.
Qed.

Lemma blank_ci (t1 t2 : string) :
  ci_equal t1 t2 = true ->
  all_chars isWhiteSpace t1 = all_chars isWhiteSpace t2.
Proof.
  revert t2; induction t1 as [|x t1 IH]; intros [|y t2] H; simpl in *;
    try discriminate; auto.
  apply andb_true_iff in H as [Hxy H].
  unfold eq_ignoreCase in Hxy. apply N.eqb_eq in Hxy.
  now rewrite !isWhiteSpace_Canonicalize, Hxy, (IH _ H).
Qed.

Section Collation.
Variable localeCompare : string -> string -> Z.

Lemma findIn_groups_ci (nodeGroups : list (Key * list Node))
    (title : option string) (m1 m2 : RegExp) (t1 t2 : string)
    (result : Found) (hasMatch : bool) :
  ci_equal (literal m1) (literal m2) = true ->
  ci_equal t1 t2 = true ->
  findIn_groups nodeGroups title m1 t1 result hasMatch
  = findIn_groups nodeGroups title m2 t2 result hasMatch.
Proof.
  intros Hm Ht. revert result hasMatch.
  induction nodeGroups as [|[key nodes] nodeGroups IH];
    intros result hasMatch; simpl; [reflexivity|].
  unfold findNested.
  rewrite (findNested_from_ci nodes title m1 m2 t1 t2 _ Hm Ht).
  destruct (findNested_from nodes title m2 t2 _) as [matches|]; simpl;
    [|reflexivity].
  now rewrite !IH.
Qed.

Lemma findIn_ci (elements : list Entry) (t1 t2 : string) :
  ci_equal t1 t2 = true ->
  findIn localeCompare elements t1 = findIn localeCompare elements t2.
Proof.
  intros Ht. unfold findIn.
  induction elements as [|element elements IH]; simpl; [reflexivity|].
  rewrite IH. f_equal. unfold findIn_element.
  rewrite (and_match_ci (entry_title element) (escaped_RegExp_i t1)
             (escaped_RegExp_i t2) Ht).
  destruct (isSome _); simpl.
  - destruct (highlight _); simpl; [|reflexivity].
    now rewrite (findIn_groups_ci _ _ (escaped_RegExp_i t1)
                   (escaped_RegExp_i t2) t1 t2 _ _ Ht Ht).
  - now rewrite (findIn_groups_ci _ _ (escaped_RegExp_i t1)
                   (escaped_RegExp_i t2) t1 t2 _ _ Ht Ht).
Qed.

Lemma getSuggestions_ci (sidebarNodes : SidebarNodes) (t1 t2 : string) :
  ci_equal t1 t2 = true ->
  getSuggestions localeCompare sidebarNodes t1
  = getSuggestions localeCompare sidebarNodes t2.
Proof.
  intros Ht. unfold getSuggestions, flattened.
  rewrite !TermFacts.trim_length_0, (blank_ci _ _ Ht).
  now rewrite !(findIn_ci _ _ _ Ht).
Qed.
End Collation.

(** *** Occurrences *)

Lemma starts_occurrence (t x : string) :
  starts eq_ignoreCase t x = true <->
  exists u post, x = u ++ post /\ ci_equal u t = true.
Proof.
  split.
  - revert x; induction t as [|p t IH]; intros x H.
    + exists "", x. split; reflexivity.
    + destruct x as [|c x]; simpl in H; [discriminate|].
      apply andb_true_iff in H as [Hc H].
      destruct (IH _ H) as (u & post & -> & Hu).
      exists (String c u), post. split; [reflexivity|]. simpl.
      rewrite Hu, andb_true_r. unfold eq_ignoreCase in *.
      now rewrite N.eqb_sym.
  - intros (u & post & -> & Hu).
    revert u Hu; induction t as [|p t IH]; intros [|c u] Hu; simpl in *;
      try discriminate; auto.
    apply andb_true_iff in Hu as [Hc Hu].
    rewrite (IH _ Hu), andb_true_r. unfold eq_ignoreCase in *.
    now rewrite N.eqb_sym.
Qed.

Lemma occurrence_starts (t s pre u post : string) :
  s = pre ++ u ++ post -> ci_equal u t = true ->
  starts eq_ignoreCase t (drop (String.length pre) s) = true.
Proof.
  intros -> Hu. rewrite drop_append_length.
  apply starts_occurrence. eauto.
Qed.

Lemma str_match_occurrence (t s : string) :
  match str_match s (escaped_RegExp_i t) with
  | Some m =>
      exists pre post,
        s = pre ++ m_0 m ++ post
        /\ ci_equal (m_0 m) t = true
        /\ m_index m = String.length pre
        /\ m_input m = s
        /\ forall pre' u' post',
            s = pre' ++ u' ++ post' -> ci_equal u' t = true ->
            String.length pre <= String.length pre'
  | None =>
      forall pre u post, s = pre ++ u ++ post -> ci_equal u t = false
  end.
Proof.
  destruct (str_match s (escaped_RegExp_i t)) as [m|] eqn:E.
  - destruct (str_match_Some _ _ _ E) as (Hs & H0 & Hin & Hlen & Hsplit).
    simpl in *. apply search_Some in Hs as (k & Hk & Hle & Hst & Hmin).
    simpl in Hk. subst k.
    exists (take (m_index m) s), (drop (m_index m + String.length t) s).
    rewrite length_take by exact Hle.
    repeat split; auto.
    + apply starts_occurrence in Hst as (u & post & Hu & Hci).
      rewrite H0, Hu.
      rewrite <- (ci_equal_length _ _ Hci), take_append_length. exact Hci.
    + intros pre' u' post' Hs' Hu'.
      pose proof (occurrence_starts _ _ _ _ _ Hs' Hu') as Hocc.
      destruct (Nat.le_gt_cases (m_index m) (String.length pre')); auto.
      rewrite Hmin in Hocc by assumption. discriminate.
  - intros pre u post Hs.
    apply str_match_None in E. simpl in E.
    destruct (ci_equal u t) eqn:Eu; [|reflexivity].
    pose proof (occurrence_starts _ _ _ _ _ Hs Eu) as Hocc.
    now rewrite (search_None _ _ _ _ E) in Hocc.
Qed.

End CaseFacts.

(** C5.  The expression built from a term reads it literally and without
    regard to case: a match is the leftmost occurrence of a text equal to
    the term up to case, and there is no match when no such occurrence
    exists.  Terms equal up to case give the same suggestions; so do
    [Foo] and [foo], which for an entry titled [FooBar] give its
    highlighted title; and the term [a.b] does not match [axb]. *)
Theorem matcher_is_literal_ignoring_case
    (localeCompare : string -> string -> Z) :
  (forall t s : string,
      match str_match s (escaped_RegExp_i t) with
      | Some m =>
          exists pre post,
            s = pre ++ m_0 m ++ post
            /\ ci_equal (m_0 m) t = true
            /\ m_index m = String.length pre
            /\ m_input m = s
            /\ forall pre' u' post',
                s = pre' ++ u' ++ post' -> ci_equal u' t = true ->
                String.length pre <= String.length pre'
      | None =>
          forall pre u post, s = pre ++ u ++ post -> ci_equal u t = false
      end)
  /\ (forall (sidebarNodes : SidebarNodes) (t1 t2 : string),
        ci_equal t1 t2 = true ->
        getSuggestions localeCompare sidebarNodes t1
        = getSuggestions localeCompare sidebarNodes t2)
  /\ (forall sidebarNodes : SidebarNodes,
        getSuggestions localeCompare sidebarNodes "Foo"
        = getSuggestions localeCompare sidebarNodes "foo")
  /\ getSuggestions localeCompare FooBar "foo"
     = Ok [ {| link := "FooBar.html"; title := Some "<em>Foo</em>Bar";
               description := None; label := None;
               category := Some Module_ |} ]
  /\ str_match "axb" (escaped_RegExp_i "a.b") = None
  /\ getSuggestions localeCompare axb "a.b" = Ok [].
Proof.
  split; [exact CaseFacts.str_match_occurrence|].
  split; [intros; now apply CaseFacts.getSuggestions_ci|].
  split; [intros; now apply CaseFacts.getSuggestions_ci|].
  split; [reflexivity|]. split; reflexivity.
Qed.

Lemma matcher_is_literal_ignoring_case_witness :
  getSuggestions codeUnitCompare Foo_bar "FOO.Bar"
  = getSuggestions codeUnitCompare Foo_bar "foo.bAR".
Proof.
  apply (proj1 (proj2 (matcher_is_literal_ignoring_case codeUnitCompare))
           Foo_bar "FOO.Bar" "foo.bAR").
  reflexivity.
Defined.

(** ** The heap and the index *)

Module HeapFacts.
Import Sim.

Lemma At_lt h a n : At h a n -> a < List.length h.
Proof. intros H. apply nth_error_Some. unfold At in H. congruence. Qed.

Lemma At_app h e a n : At h a n -> At (h ++ e)%list a n.
Proof.
  intros H. unfold At. rewrite nth_error_app1; [exact H | eapply At_lt; eauto].
Qed.

Lemma At_new h n : At (h ++ [n])%list (List.length h) n.
Proof.
  unfold At. rewrite nth_error_app2 by lia. now rewrite Nat.sub_diag.
Qed.

Lemma length_update h a n : List.length (Mem.update h a n) = List.length h.
Proof.
  revert a; induction h as [|x h IH]; intros [|a]; simpl; auto.
Qed.

Lemma update_new h n n' :
  Mem.update (h ++ [n])%list (List.length h) n' = (h ++ [n'])%list.
Proof. induction h as [|x h IH]; simpl; [reflexivity | now rewrite IH]. Qed.

Lemma nth_error_update_ne h a b n :
  a <> b -> nth_error (Mem.update h a n) b = nth_error h b.
Proof.
  revert a b; induction h as [|x h IH]; intros [|a] [|b] H; simpl; auto;
    try congruence.
Qed.

Lemma nth_error_update_eq h a n :
  a < List.length h -> nth_error (Mem.update h a n) a = Some n.
Proof.
  revert a; induction h as [|x h IH]; intros [|a] H; simpl in *; try lia; auto.
  apply IH. lia.
Qed.

(** *** Objects of addresses and objects of records *)


Lemma ObjR_app h e o_h o : ObjR h o_h o -> ObjR (h ++ e)%list o_h o.
Proof.
  induction 1 as [|[k a] [k' n] o_h o [Hk Ha] Ho IH]; constructor; auto.
  split; [exact Hk | now apply At_app].
Qed.

Lemma ObjR_hasOwn h o_h o k : ObjR h o_h o -> Obj.hasOwn o_h k = Obj.hasOwn o k.
Proof.
  induction 1 as [|[k1 a] [k2 n] o_h o [Hk Ha] Ho IH]; simpl in *; auto.
  subst. now rewrite IH.
Qed.

Lemma ObjR_truthy h o_h o k : ObjR h o_h o -> Obj.truthy o_h k = Obj.truthy o k.
Proof. intros H. unfold Obj.truthy. now rewrite (ObjR_hasOwn _ _ _ k H). Qed.

Lemma ObjR_set h o_h o k a n :
  ObjR h o_h o -> At h a n -> ObjR h (Obj.set o_h k a) (Obj.set o k n).
Proof.
  intros H Ha. unfold Obj.set. rewrite (ObjR_hasOwn _ _ _ k H).
  destruct (Obj.hasOwn o k).
  - induction H as [|[k1 a1] [k2 n1] o_h o [Hk H1] Ho IH]; simpl in *;
      [constructor|]. subst.
    destruct (String.eqb k2 k); constructor; auto.
  - destruct (Obj.arrayIndex k) as [i|].
    + induction H as [|[k1 a1] [k2 n1] o_h o [Hk H1] Ho IH]; simpl in *.
      * repeat constructor; auto.
      * subst. destruct (Obj.arrayIndex k2) as [i'|].
        -- destruct (i' <? i)%N; repeat (constructor; auto).
        -- repeat (constructor; auto).
    + apply Forall2_app; [exact H|]. repeat constructor; auto.
Qed.

Lemma insertIndex_Permutation {A} i k (v : A) o :
  Permutation (Obj.insertIndex i k v o) ((k, v) :: o).
Proof.
  induction o as [|[k' v'] o IH]; simpl; [reflexivity|].
  destruct (Obj.arrayIndex k') as [i'|]; [|reflexivity].
  destruct (i' <? i)%N; [|reflexivity].
  rewrite IH. apply perm_swap.
Qed.

Lemma values_set {A} (o : Obj.t A) k v :
  Obj.hasOwn o k = false ->
  Permutation (Obj.values (Obj.set o k v)) (v :: Obj.values o).
Proof.
  intros H. unfold Obj.set, Obj.values. rewrite H.
  destruct (Obj.arrayIndex k) as [i|].
  - now rewrite insertIndex_Permutation.
  - rewrite map_app. simpl. now rewrite Permutation_app_comm.
Qed.

Lemma truthy_hasOwn {A} (o : Obj.t A) k :
  Obj.truthy o k = false -> Obj.hasOwn o k = false.
Proof. unfold Obj.truthy. now intros H%orb_false_iff. Qed.

(** *** One step of the heap *)

Lemma copy_step {B} (element : Node) (m : string)
    (k : Node -> Mem.addr -> Mem.M B) (h : Mem.heap) :
  (_ <~ Mem.write (List.length h) (fun r => set_match r m) ;;
   r <~ Mem.read (List.length h) ;; k r (List.length h))
    (h ++ [JSON_copy element])%list
  = k (set_match (JSON_copy element) m) (List.length h)
      (h ++ [set_match (JSON_copy element) m])%list.
Proof.
  unfold Mem.bind, Mem.write, Mem.read.
  rewrite (At_new h (JSON_copy element)), update_new.
  now rewrite (At_new h (set_match (JSON_copy element) m)).
Qed.


Lemma findNested_from_sim (h0 : Mem.heap) (els_h : list Mem.addr) (els : list Node)
    (p : option string) (matcher : RegExp) :
  Forall2 (At h0) els_h els ->
  forall term acc_h acc e acc',
    ObjR (h0 ++ e)%list acc_h acc ->
    findNested_from els p matcher term acc = Ok acc' ->
    exists acc_h' e',
      Mem.findNested_from els_h p matcher term acc_h (h0 ++ e)%list
      = Ok (acc_h', (h0 ++ e ++ e')%list)
      /\ ObjR (h0 ++ e ++ e')%list acc_h' acc'
      /\ (forall a, In a (Obj.values acc_h') ->
                    fresh_or (Obj.values acc_h) (List.length (h0 ++ e)%list)
                      (List.length (h0 ++ e ++ e')%list) a)
      /\ (NoDup (Obj.values acc_h) ->
          (forall a, In a (Obj.values acc_h) -> a < List.length (h0 ++ e)%list) ->
          NoDup (Obj.values acc_h')).
Proof.
  induction 1 as [|a element els_h els Ha Hels IH];
    intros term acc_h acc e acc' Hacc Hpure.
  - simpl in Hpure. injection Hpure as <-.
    exists acc_h, []. rewrite !app_nil_r. simpl. unfold Mem.ret.
    repeat split; auto. intros b Hb. now left.
  - rewrite SearchFacts.findNested_from_cons in Hpure.
    cbn [Mem.findNested_from]. unfold Mem.bind at 1. unfold Mem.read at 1.
    rewrite (At_app _ e _ _ Ha).
    rewrite (ObjR_truthy _ _ _ (node_id element) Hacc).
    destruct (Obj.truthy acc (node_id element)) eqn:Et.
    + eapply IH; eauto.
    + unfold Mem.bind at 1. unfold Mem.alloc at 1.
      assert (Hstep : forall m term',
                 findNested_from els p matcher term'
                   (Obj.set acc (node_id element)
                      (set_match (JSON_copy element) m)) = Ok acc' ->
                 exists acc_h' e',
                   Mem.findNested_from els_h p matcher term'
                     (Obj.set acc_h (node_id element) (List.length (h0 ++ e)%list))
                     ((h0 ++ e) ++ [set_match (JSON_copy element) m])%list
                   = Ok (acc_h', (h0 ++ e ++ e')%list)
                   /\ ObjR (h0 ++ e ++ e')%list acc_h' acc'
                   /\ (forall a, In a (Obj.values acc_h') ->
                         fresh_or (Obj.values acc_h) (List.length (h0 ++ e)%list)
                           (List.length (h0 ++ e ++ e')%list) a)
                   /\ (NoDup (Obj.values acc_h) ->
                       (forall a, In a (Obj.values acc_h) ->
                                  a < List.length (h0 ++ e)%list) ->
                       NoDup (Obj.values acc_h'))).
      { intros m term' Hp.
        set (c := set_match (JSON_copy element) m) in *.
        destruct (IH term'
                    (Obj.set acc_h (node_id element) (List.length (h0 ++ e)%list))
                    (Obj.set acc (node_id element) c) (e ++ [c])%list acc')
          as (acc_h' & e' & Hrun & HR & Hfresh & Hnd).
        { rewrite app_assoc. apply ObjR_set.
          - now apply ObjR_app.
          - apply At_new. }
        { exact Hp. }
        exists acc_h', ([c] ++ e')%list.
        rewrite <- !app_assoc in *. simpl in *.
        assert (Hperm := values_set acc_h (node_id element)
                           (List.length (h0 ++ e)%list)
                           (truthy_hasOwn _ _
                              (eq_trans (ObjR_truthy _ _ _ _ Hacc) Et))).
        split; [exact Hrun|]. split; [exact HR|]. split.
        - intros b Hb. destruct (Hfresh b Hb) as [Hin | Hrange].
          + apply (Permutation_in _ Hperm) in Hin.
            destruct Hin as [<- | Hin]; [right | now left].
            rewrite !length_app. simpl. lia.
          + right. rewrite !length_app in *. simpl in *. lia.
        - intros Hnd0 Hlt. apply Hnd.
          + apply (Permutation_NoDup (Permutation_sym Hperm)).
            constructor; auto. intros Hin. apply Hlt in Hin. lia.
          + intros b Hb. apply (Permutation_in _ Hperm) in Hb.
            rewrite !length_app in *. simpl.
            destruct Hb as [<- | Hb]; [lia | apply Hlt in Hb; lia]. }
      assert (Hfin : forall m term',
                 findNested_from els p matcher term'
                   (Obj.set acc (node_id element)
                      (set_match (JSON_copy element) m)) = Ok acc' ->
                 exists acc_h' e',
                   (_ <~ Mem.write (List.length (h0 ++ e)%list)
                           (fun r => set_match r m) ;;
                    r <~ Mem.read (List.length (h0 ++ e)%list) ;;
                    Mem.findNested_from els_h p matcher term'
                      (Obj.set acc_h (node_id r) (List.length (h0 ++ e)%list)))
                     ((h0 ++ e) ++ [JSON_copy element])%list
                   = Ok (acc_h', (h0 ++ e ++ e')%list)
                   /\ ObjR (h0 ++ e ++ e')%list acc_h' acc'
                   /\ (forall a, In a (Obj.values acc_h') ->
                         fresh_or (Obj.values acc_h) (List.length (h0 ++ e)%list)
                           (List.length (h0 ++ e ++ e')%list) a)
                   /\ (NoDup (Obj.values acc_h) ->
                       (forall a, In a (Obj.values acc_h) ->
                                  a < List.length (h0 ++ e)%list) ->
                       NoDup (Obj.values acc_h'))).
      { intros m term' Hp.
        destruct (Hstep m term' Hp) as (acc_h' & e' & Hrun & Hrest).
        exists acc_h', e'. split; [|exact Hrest]. rewrite <- Hrun.
        apply (copy_step element m
                 (fun r a => Mem.findNested_from els_h p matcher term'
                               (Obj.set acc_h (node_id r) a))). }
      clear Hstep.
      destruct (isSome (and_match (Some (node_id element)) matcher)).
      * destruct (highlight (and_match (Some (node_id element)) matcher))
          as [m|]; [|discriminate].
        cbn [bind] in Hpure. unfold Mem.bind at 1, Mem.lift at 1.
        now apply Hfin.
      * destruct (negb _ && _).
        -- destruct (highlight _) as [m|]; [|discriminate].
           cbn [bind] in Hpure. unfold Mem.bind at 1, Mem.lift at 1.
           now apply Hfin.
        -- now apply Hfin.
Qed.

(** *** Distinct addresses *)

Lemma NoDup_app_inv {A} (l1 l2 : list A) :
  NoDup (l1 ++ l2) ->
  NoDup l1 /\ NoDup l2 /\ forall a, In a l1 -> ~ In a l2.
Proof.
  intros H. split; [eapply NoDup_app_remove_r; eauto|].
  split; [eapply NoDup_app_remove_l; eauto|].
  induction l1 as [|x l1 IH]; simpl in *; [tauto|].
  inversion H as [|? ? Hx Hl]; subst.
  intros a [<- | Ha] Hin.
  - apply Hx. apply in_or_app. now right.
  - now apply (IH Hl a).
Qed.

Lemma within_nil (lo hi : nat) : within lo hi [].
Proof. split; [constructor | intros a []]. Qed.

Lemma within_weaken (lo hi hi' : nat) (l : list Mem.addr) :
  hi <= hi' -> within lo hi l -> within lo hi' l.
Proof.
  intros Hle [Hnd Hb]. split; auto. intros a Ha. apply Hb in Ha. lia.
Qed.

Lemma within_app (lo mid hi : nat) (l1 l2 : list Mem.addr) :
  lo <= mid -> mid <= hi ->
  within lo mid l1 -> within mid hi l2 -> within lo hi (l1 ++ l2).
Proof.
  intros H1 H2 [Hn1 Hb1] [Hn2 Hb2]. split.
  - apply NoDup_app; auto. intros a Ha Ha'.
    apply Hb1 in Ha. apply Hb2 in Ha'. lia.
  - intros a Ha. apply in_app_or in Ha as [Ha | Ha];
      [apply Hb1 in Ha | apply Hb2 in Ha]; lia.
Qed.

Lemma within_Permutation (lo hi : nat) (l l' : list Mem.addr) :
  Permutation l l' -> within lo hi l -> within lo hi l'.
Proof.
  intros Hp [Hnd Hb]. split.
  - eapply Permutation_NoDup; eauto.
  - intros a Ha. apply Hb. eapply Permutation_in; [symmetry|]; eauto.
Qed.

(** One part of a list of distinct addresses is replaced by addresses
    of that part and new ones. *)
Lemma within_replace (lo n n' : nat) (pre old new post : list Mem.addr) :
  lo <= n -> n <= n' ->
  within lo n (pre ++ old ++ post) ->
  NoDup new ->
  (forall a, In a new -> fresh_or old n n' a) ->
  within lo n' (pre ++ new ++ post).
Proof.
  intros Hlo Hle [Hnd Hb] Hnew Hfresh.
  apply NoDup_app_inv in Hnd as (Hpre & Hrest & Hd1).
  apply NoDup_app_inv in Hrest as (Hold & Hpost & Hd2).
  assert (Hlt : forall a, In a (pre ++ old ++ post)%list -> a < n)
    by (intros a Ha; apply Hb in Ha; lia).
  split.
  - apply NoDup_app; auto.
    + apply NoDup_app; auto. intros a Ha Ha'.
      destruct (Hfresh a Ha) as [Ho | Hf].
      * now apply (Hd2 a).
      * assert (a < n) by (apply Hlt; auto using in_or_app). lia.
    + intros a Ha Ha'. apply in_app_or in Ha' as [Ha' | Ha'].
      * destruct (Hfresh a Ha') as [Ho | Hf].
        -- apply (Hd1 a Ha). apply in_or_app. now left.
        -- assert (a < n) by (apply Hlt; auto using in_or_app). lia.
      * apply (Hd1 a Ha). apply in_or_app. now right.
  - intros a Ha. apply in_app_or in Ha as [Ha | Ha].
    + assert (lo <= a < n) by (apply Hb; auto using in_or_app). lia.
    + apply in_app_or in Ha as [Ha | Ha].
      * destruct (Hfresh a Ha) as [Ho | Hf].
        -- assert (lo <= a < n) by (apply Hb; auto using in_or_app). lia.
        -- lia.
      * assert (lo <= a < n) by (apply Hb; auto using in_or_app). lia.
Qed.

(** *** Sorting the nodes of a group *)

Lemma ObjR_values (h : Mem.heap) (o_h : Obj.t Mem.addr) (o : Obj.t Node) :
  ObjR h o_h o -> ListR h (Obj.values o_h) (Obj.values o).
Proof.
  induction 1 as [|[k a] [k' n] o_h o [_ Ha] _ IH]; simpl; constructor; auto.
Qed.

Lemma ObjR_nonEmpty (h : Mem.heap) (o_h : Obj.t Mem.addr) (o : Obj.t Node) :
  ObjR h o_h o -> Obj.nonEmpty o_h = Obj.nonEmpty o.
Proof. now destruct 1. Qed.

Lemma ListR_app_heap (h e : Mem.heap) (l_h : list Mem.addr) (l : list Node) :
  ListR h l_h l -> ListR (h ++ e)%list l_h l.
Proof.
  induction 1; constructor; auto. now apply At_app.
Qed.

Lemma mapM_read_pairs (h : Mem.heap) (l_h : list Mem.addr) (l : list Node) :
  ListR h l_h l ->
  Mem.mapM (fun a => n <~ Mem.read a ;; Mem.ret (a, n)) l_h h
  = Ok (combine l_h l, h).
Proof.
  induction 1 as [|a n l_h l Ha Hl IH]; [reflexivity|].
  cbn [Mem.mapM combine]. unfold Mem.bind at 1 2, Mem.read at 1.
  rewrite Ha. unfold Mem.ret at 1. unfold Mem.bind at 1. rewrite IH.
  reflexivity.
Qed.

Lemma mapM_read (h : Mem.heap) (l_h : list Mem.addr) (l : list Node) :
  ListR h l_h l -> Mem.mapM Mem.read l_h h = Ok (l, h).
Proof.
  induction 1 as [|a n l_h l Ha Hl IH]; [reflexivity|].
  cbn [Mem.mapM]. unfold Mem.bind at 1, Mem.read at 1.
  rewrite Ha. unfold Mem.bind at 1. rewrite IH. reflexivity.
Qed.

Section SortPairs.
Context {A B : Type}.
Variable cmp : B -> B -> Z.

Lemma insert_pairs (x : A * B) (l : list (A * B)) :
  map snd (Arr.insert (fun a b => cmp (snd a) (snd b)) x l)
  = Arr.insert cmp (snd x) (map snd l).
Proof.
  induction l as [|y l IH]; simpl; [reflexivity|].
  destruct (cmp (snd x) (snd y) <=? 0)%Z; simpl; [reflexivity|].
  now rewrite IH.
Qed.

Lemma sort_pairs (l : list (A * B)) :
  map snd (Arr.sort (fun a b => cmp (snd a) (snd b)) l)
  = Arr.sort cmp (map snd l).
Proof.
  induction l as [|x l IH]; simpl; [reflexivity|].
  now rewrite insert_pairs, IH.
Qed.
End SortPairs.

Lemma combine_fst {A B} (l1 : list A) (l2 : list B) :
  List.length l1 = List.length l2 -> map fst (combine l1 l2) = l1.
Proof.
  revert l2; induction l1 as [|x l1 IH]; intros [|y l2] H; simpl in *;
    try discriminate; auto.
  f_equal. apply IH. lia.
Qed.

Lemma combine_snd {A B} (l1 : list A) (l2 : list B) :
  List.length l1 = List.length l2 -> map snd (combine l1 l2) = l2.
Proof.
  revert l2; induction l1 as [|x l1 IH]; intros [|y l2] H; simpl in *;
    try discriminate; auto.
  f_equal. apply IH. lia.
Qed.

Lemma Forall2_length' {A B} (R : A -> B -> Prop) l1 l2 :
  Forall2 R l1 l2 -> List.length l1 = List.length l2.
Proof. induction 1; simpl; auto. Qed.

Lemma ListR_pairs (h : Mem.heap) (l : list (Mem.addr * Node)) :
  Forall (fun an => At h (fst an) (snd an)) l ->
  ListR h (map fst l) (map snd l).
Proof. induction 1; simpl; constructor; auto. Qed.

Lemma Forall_combine (h : Mem.heap) (l_h : list Mem.addr) (l : list Node) :
  ListR h l_h l -> Forall (fun an => At h (fst an) (snd an)) (combine l_h l).
Proof. induction 1; simpl; constructor; auto. Qed.

Section Collation.
Variable localeCompare : string -> string -> Z.

Lemma sortNodes_sim (h : Mem.heap) (o_h : Obj.t Mem.addr) (o : Obj.t Node) :
  ObjR h o_h o ->
  exists l_h,
    Mem.sortNodes localeCompare o_h h = Ok (l_h, h)
    /\ ListR h l_h (sortNodes localeCompare o)
    /\ Permutation (Obj.values o_h) l_h.
Proof.
  intros HR. apply ObjR_values in HR.
  pose proof (Forall2_length' _ _ _ HR) as Hlen.
  unfold Mem.sortNodes. unfold Mem.bind at 1.
  rewrite (mapM_read_pairs _ _ _ HR).
  unfold Mem.ret. eexists. split; [reflexivity|].
  set (cmp' := fun a b : Mem.addr * Node =>
                 localeCompare (node_id (snd a)) (node_id (snd b))).
  set (sorted := Arr.sort cmp' (combine (Obj.values o_h) (Obj.values o))).
  assert (Hperm : Permutation (combine (Obj.values o_h) (Obj.values o)) sorted)
    by apply SortFacts.sort_Permutation.
  split.
  - unfold sortNodes.
    rewrite <- (combine_snd (Obj.values o_h) (Obj.values o) Hlen) at 1.
    rewrite <- (sort_pairs (fun a b => localeCompare (node_id a) (node_id b))).
    apply ListR_pairs.
    eapply Permutation_Forall; [exact Hperm|]. now apply Forall_combine.
  - rewrite <- (combine_fst (Obj.values o_h) (Obj.values o) Hlen) at 1.
    now apply Permutation_map.
Qed.

Lemma sortGroup_sim (h : Mem.heap) (x_h : option (Obj.t Mem.addr))
    (x : option (Obj.t Node)) :
  OptR (ObjR h) x_h x ->
  exists l_h,
    Mem.sortGroup localeCompare x_h h = Ok (l_h, h)
    /\ OptR (ListR h) l_h (option_map (sortNodes localeCompare) x)
    /\ Permutation (ovalues x_h) (or_empty l_h).
Proof.
  destruct x_h as [o_h|], x as [o|]; simpl; try tauto.
  - intros HR. destruct (sortNodes_sim _ _ _ HR) as (l_h & Hrun & HL & Hp).
    exists (Some l_h). unfold Mem.bind. rewrite Hrun. now repeat split.
  - intros _. exists None. now repeat split.
Qed.
End Collation.

(** *** The search of one entry *)

Lemma OptR_ObjR_app (h e : Mem.heap) x_h x :
  OptR (ObjR h) x_h x -> OptR (ObjR (h ++ e)%list) x_h x.
Proof.
  destruct x_h, x; simpl; auto. apply ObjR_app.
Qed.

Lemma FoundR_app (h e : Mem.heap) (f_h : Mem.Found) (f : Found) :
  FoundR h f_h f -> FoundR (h ++ e)%list f_h f.
Proof.
  intros (H1 & H2 & H3 & H4 & H5).
  repeat split; auto using OptR_ObjR_app.
Qed.

Lemma found_get_R (h : Mem.heap) (f_h : Mem.Found) (f : Found) (key : Key) :
  FoundR h f_h f ->
  ObjR h (match Mem.found_get f_h key with Some o => o | None => [] end)
         (match found_get f key with Some o => o | None => [] end).
Proof.
  intros (_ & _ & H3 & H4 & H5).
  destruct key; simpl; try constructor;
    match goal with
    | |- ObjR _ (match ?x with _ => _ end) (match ?y with _ => _ end) =>
        destruct x, y; simpl in *; try tauto; constructor
    end.
Qed.

Lemma found_store_R (h : Mem.heap) (f_h : Mem.Found) (f : Found) (key : Key)
    (m_h : Obj.t Mem.addr) (m : Obj.t Node) :
  FoundR h f_h f -> ObjR h m_h m ->
  FoundR h (Mem.found_store f_h key m_h) (found_store f key m).
Proof.
  intros (H1 & H2 & H3 & H4 & H5) Hm.
  destruct key; repeat split; auto.
Qed.

Lemma found_get_within (lo n : nat) (f_h : Mem.Found) (key : Key) :
  within lo n (found_addrs f_h) ->
  within lo n (ovalues (Mem.found_get f_h key)).
Proof.
  intros [Hnd Hb]. unfold found_addrs in *.
  apply NoDup_app_inv in Hnd as (H1 & Hrest & _).
  apply NoDup_app_inv in Hrest as (H2 & H3 & _).
  destruct key; simpl; (split; [assumption || constructor|]);
    intros a Ha.
  - apply Hb. rewrite !in_app_iff. tauto.
  - apply Hb. rewrite !in_app_iff. tauto.
  - apply Hb. rewrite !in_app_iff. tauto.
  - destruct Ha.
Qed.

Lemma found_store_within (lo n n' : nat) (f_h : Mem.Found) (key : Key)
    (m : Obj.t Mem.addr) :
  lo <= n -> n <= n' ->
  within lo n (found_addrs f_h) ->
  NoDup (Obj.values m) ->
  (forall a, In a (Obj.values m) ->
             fresh_or (ovalues (Mem.found_get f_h key)) n n' a) ->
  within lo n' (found_addrs (Mem.found_store f_h key m)).
Proof.
  intros Hlo Hle Hw Hnd Hfresh. unfold found_addrs in *.
  destruct key; cbn [Mem.found_store Mem.found_get Mem.found_functions
                       Mem.found_callbacks Mem.found_types ovalues] in *.
  - apply (within_replace lo n n' [] _ _ _ Hlo Hle Hw Hnd Hfresh).
  - apply (within_replace lo n n' _ _ _ _ Hlo Hle Hw Hnd Hfresh).
  - rewrite <- (app_nil_r (Obj.values m)), !app_assoc.
    rewrite <- (app_assoc _ (Obj.values m) []).
    apply (within_replace lo n n' _ (ovalues (Mem.found_types f_h)));
      auto.
    rewrite app_nil_r, <- app_assoc. exact Hw.
  - apply (within_replace lo n n' [] (ovalues (Mem.found_functions f_h)));
      auto.
    intros a Ha. destruct (Hfresh a Ha) as [[] | Hf]. now right.
Qed.

Lemma findIn_groups_sim (h0 : Mem.heap) (lo : nat)
    (groups_h : list (Key * list Mem.addr)) (groups : list (Key * list Node))
    (title : option string) (matcher : RegExp) (term : string) :
  Forall2 (GroupR h0) groups_h groups ->
  forall f_h f b e f' b',
    lo <= List.length (h0 ++ e)%list ->
    FoundR (h0 ++ e)%list f_h f ->
    within lo (List.length (h0 ++ e)%list) (found_addrs f_h) ->
    findIn_groups groups title matcher term f b = Ok (f', b') ->
    exists f_h' e',
      Mem.findIn_groups groups_h title matcher term f_h b (h0 ++ e)%list
      = Ok ((f_h', b'), (h0 ++ e ++ e')%list)
      /\ FoundR (h0 ++ e ++ e')%list f_h' f'
      /\ within lo (List.length (h0 ++ e ++ e')%list) (found_addrs f_h').
Proof.
  induction 1 as [|[key_h nodes_h] [key nodes] groups_h groups [Hk Hn] _ IH];
    intros f_h f b e f' b' Hlo HR Hw Hpure.
  - simpl in Hpure. injection Hpure as <- <-.
    exists f_h, []. rewrite !app_nil_r.
    split; [reflexivity|]. split; assumption.
  - simpl in Hk, Hn. subst key_h. cbn [findIn_groups] in Hpure.
    destruct (findNested nodes title matcher term (found_get f key))
      as [matches|] eqn:Ef; [|discriminate].
    cbn [bind] in Hpure. unfold findNested in Ef.
    destruct (findNested_from_sim h0 nodes_h nodes title matcher Hn term
                _ _ e matches (found_get_R _ _ _ key HR) Ef)
      as (m_h & e1 & Hrun & HmR & Hfresh & Hnd).
    pose proof (found_get_within _ _ _ key Hw) as [Hgn Hgb].
    assert (Hgn' : NoDup (Obj.values
               (match Mem.found_get f_h key with Some o => o | None => [] end)))
      by (destruct (Mem.found_get f_h key); [exact Hgn | constructor]).
    assert (Hval : Obj.values
               (match Mem.found_get f_h key with Some o => o | None => [] end)
             = ovalues (Mem.found_get f_h key))
      by now destruct (Mem.found_get f_h key).
    rewrite Hval in *.
    specialize (Hnd Hgn (fun a Ha => proj2 (Hgb a Ha))).
    cbn [Mem.findIn_groups]. unfold Mem.bind at 1. unfold Mem.findNested.
    rewrite Hrun, (ObjR_nonEmpty _ _ _ HmR).
    assert (Hlen : List.length (h0 ++ e)%list
                   <= List.length (h0 ++ e ++ e1)%list)
      by (rewrite !length_app; lia).
    destruct (Obj.nonEmpty matches).
    + destruct (IH (Mem.found_store f_h key m_h) (found_store f key matches)
                  true (e ++ e1)%list f' b') as (f_h' & e2 & Hrun2 & HR2 & Hw2).
      * lia.
      * apply found_store_R; auto.
        rewrite app_assoc. apply FoundR_app. exact HR.
      * apply (found_store_within lo (List.length (h0 ++ e)%list)); auto.
      * exact Hpure.
      * exists f_h', (e1 ++ e2)%list.
        rewrite <- !app_assoc in *. auto.
    + destruct (IH f_h f b (e ++ e1)%list f' b') as (f_h' & e2 & Hrun2 & HR2 & Hw2).
      * lia.
      * rewrite app_assoc. apply FoundR_app. exact HR.
      * eapply within_weaken; eauto.
      * exact Hpure.
      * exists f_h', (e1 ++ e2)%list.
        rewrite <- !app_assoc in *. auto.
Qed.

Lemma OptR_ListR_app (h e : Mem.heap) x_h x :
  OptR (ListR h) x_h x -> OptR (ListR (h ++ e)%list) x_h x.
Proof.
  destruct x_h, x; simpl; auto. apply ListR_app_heap.
Qed.

Lemma ResR_app (h e : Mem.heap) (r_h : Mem.ModuleResults) (r : ModuleResults) :
  ResR h r_h r -> ResR (h ++ e)%list r_h r.
Proof.
  intros (H1 & H2 & H3 & H4 & H5 & H6).
  repeat split; auto using OptR_ListR_app.
Qed.

Section Collation2.
Variable localeCompare : string -> string -> Z.

Lemma findIn_element_sim (h0 : Mem.heap) (el_h : Mem.Entry) (el : Entry)
    (matcher : RegExp) (term : string) :
  EntryR h0 el_h el ->
  forall e r,
    findIn_element localeCompare matcher term el = Ok r ->
    exists r_h e',
      Mem.findIn_element localeCompare matcher term el_h (h0 ++ e)%list
      = Ok (r_h, (h0 ++ e ++ e')%list)
      /\ OptR (ResR (h0 ++ e ++ e')%list) r_h r
      /\ within (List.length (h0 ++ e)%list)
           (List.length (h0 ++ e ++ e')%list) (opt_addrs r_h).
Proof.
  intros (Hid & Htitle & Hgroups) e r Hpure.
  unfold findIn_element in Hpure. unfold Mem.findIn_element.
  rewrite Hid, Htitle.
  set (first := if isSome (and_match (entry_title el) matcher)
                then m <- highlight (and_match (entry_title el) matcher) ;;
                     Ok (Some m)
                else Ok (entry_title el)) in *.
  destruct first as [match_|]; [|discriminate].
  cbn [bind] in Hpure. unfold Mem.bind at 1, Mem.lift at 1.
  match type of Hpure with
  | context [findIn_groups ?g ?t ?mt ?tm ?f ?b] =>
      destruct (findIn_groups g t mt tm f b) as [[f' b']|] eqn:Eg;
        [|discriminate]
  end.
  cbn [bind] in Hpure.
  assert (HR0 : FoundR (h0 ++ e)%list
            {| Mem.found_id := entry_id el; Mem.found_match := match_;
               Mem.found_functions := None; Mem.found_callbacks := None;
               Mem.found_types := None |}
            {| found_id := entry_id el; found_match := match_;
               found_functions := None; found_callbacks := None;
               found_types := None |})
    by (repeat split; simpl; auto).
  destruct (findIn_groups_sim h0 (List.length (h0 ++ e)%list) _ _
              (entry_title el) matcher term Hgroups _ _ _ e f' b'
              (le_n _) HR0 (within_nil _ _) Eg)
    as (f_h' & e' & Hrun & HR & Hw).
  unfold Mem.bind at 1. rewrite Hrun.
  destruct b'.
  - injection Hpure as <-.
    destruct HR as (R1 & R2 & R3 & R4 & R5).
    destruct (sortGroup_sim localeCompare _ _ _ R3) as (l1 & S1 & L1 & P1).
    destruct (sortGroup_sim localeCompare _ _ _ R4) as (l2 & S2 & L2 & P2).
    destruct (sortGroup_sim localeCompare _ _ _ R5) as (l3 & S3 & L3 & P3).
    unfold Mem.bind. rewrite S1, S2, S3. unfold Mem.ret.
    eexists _, e'. split; [reflexivity|]. split.
    + repeat split; simpl; auto.
    + eapply within_Permutation; [|exact Hw].
      unfold found_addrs, opt_addrs, res_addrs. simpl.
      repeat apply Permutation_app; assumption.
  - injection Hpure as <-. unfold Mem.ret.
    exists None, e'. split; [reflexivity|]. split; [exact I|].
    apply within_nil.
Qed.

Lemma map_filter_sim (h0 : Mem.heap) (els_h : list Mem.Entry)
    (els : list Entry) (matcher : RegExp) (term : string) :
  Forall2 (EntryR h0) els_h els ->
  forall e rs,
    map_filter localeCompare matcher term els = Ok rs ->
    exists rs_h e',
      Mem.map_filter localeCompare matcher term els_h (h0 ++ e)%list
      = Ok (rs_h, (h0 ++ e ++ e')%list)
      /\ Forall2 (ResR (h0 ++ e ++ e')%list) rs_h rs
      /\ within (List.length (h0 ++ e)%list)
           (List.length (h0 ++ e ++ e')%list) (flat_map res_addrs rs_h).
Proof.
  induction 1 as [|el_h el els_h els Hel _ IH]; intros e rs Hpure.
  - simpl in Hpure. injection Hpure as <-.
    exists [], []. rewrite !app_nil_r.
    split; [reflexivity|]. split; [constructor | apply within_nil].
  - cbn [map_filter] in Hpure.
    destruct (findIn_element localeCompare matcher term el) as [r|] eqn:Er;
      [|discriminate].
    cbn [bind] in Hpure.
    destruct (map_filter localeCompare matcher term els) as [rs'|] eqn:Ers;
      [|discriminate].
    cbn [bind] in Hpure. injection Hpure as <-.
    destruct (findIn_element_sim h0 el_h el matcher term Hel e r Er)
      as (r_h & e1 & Hrun1 & HR1 & Hw1).
    destruct (IH (e ++ e1)%list rs' eq_refl)
      as (rs_h & e2 & Hrun2 & HR2 & Hw2).
    cbn [Mem.map_filter]. unfold Mem.bind at 1. rewrite Hrun1.
    unfold Mem.bind at 1. rewrite Hrun2. unfold Mem.ret.
    eexists _, (e1 ++ e2)%list. rewrite <- !app_assoc in *.
    split; [reflexivity|].
    assert (Hl1 : List.length (h0 ++ e)%list
                  <= List.length (h0 ++ e ++ e1)%list)
      by (rewrite !length_app; lia).
    assert (Hl2 : List.length (h0 ++ e ++ e1)%list
                  <= List.length (h0 ++ e ++ e1 ++ e2)%list)
      by (rewrite !length_app; lia).
    destruct r_h as [x_h|], r as [x|]; simpl in HR1; try tauto.
    + split.
      * constructor; [|exact HR2].
        replace (h0 ++ e ++ e1 ++ e2)%list
          with ((h0 ++ e ++ e1) ++ e2)%list
          by now rewrite <- !app_assoc.
        now apply ResR_app.
      * simpl. eapply within_app; eauto.
    + split; [exact HR2|].
      eapply within_app with (l1 := []); eauto.
Qed.
End Collation2.

(** *** Labels and flattening *)

Lemma ListR_frame (h h' : Mem.heap) (l_h : list Mem.addr) (l : list Node) :
  ListR h l_h l ->
  (forall b, In b l_h -> nth_error h' b = nth_error h b) ->
  ListR h' l_h l.
Proof.
  induction 1 as [|a n l_h l Ha _ IH]; intros Hf; constructor.
  - unfold At in *. rewrite Hf; [exact Ha | now left].
  - apply IH. intros b Hb. apply Hf. now right.
Qed.

Lemma OptR_ListR_frame (h h' : Mem.heap) x_h x :
  OptR (ListR h) x_h x ->
  (forall b, In b (or_empty x_h) -> nth_error h' b = nth_error h b) ->
  OptR (ListR h') x_h x.
Proof.
  destruct x_h, x; simpl; auto. apply ListR_frame.
Qed.

Lemma ResR_frame (h h' : Mem.heap) (r_h : Mem.ModuleResults)
    (r : ModuleResults) :
  ResR h r_h r ->
  (forall b, In b (res_addrs r_h) -> nth_error h' b = nth_error h b) ->
  ResR h' r_h r.
Proof.
  intros (H1 & H2 & H3 & H4 & H5 & H6) Hf. unfold res_addrs in Hf.
  repeat split; auto; eapply OptR_ListR_frame; eauto;
    intros b Hb; apply Hf; rewrite !in_app_iff; tauto.
Qed.

Lemma OptR_or_empty (h : Mem.heap) x_h x :
  OptR (ListR h) x_h x -> ListR h (or_empty x_h) (or_empty x).
Proof.
  destruct x_h, x; simpl; try tauto. constructor.
Qed.

Lemma addLabel_sim (labelName : string) (l_h : list Mem.addr) (l : list Node) :
  forall h,
    ListR h l_h l -> NoDup l_h ->
    exists h',
      Mem.addLabel l_h labelName h = Ok (l_h, h')
      /\ ListR h' l_h (addLabel l labelName)
      /\ List.length h' = List.length h
      /\ forall b, ~ In b l_h -> nth_error h' b = nth_error h b.
Proof.
  revert l; induction l_h as [|a l_h IH]; intros l h HL Hnd;
    inversion HL as [|? n ? l' Ha HL']; subst.
  - exists h. repeat split; auto.
  - inversion Hnd as [|? ? Hnotin Hnd']; subst.
    set (h1 := Mem.update h a (set_label n labelName)).
    assert (HL1 : ListR h1 l_h l').
    { apply (ListR_frame h); [assumption|]. intros b Hb. unfold h1.
      apply nth_error_update_ne. intros ->. contradiction. }
    destruct (IH l' h1 HL1 Hnd') as (h' & Hrun & HL2 & Hlen & Hframe).
    exists h'. unfold Mem.addLabel in *. cbn [Mem.mapM].
    unfold Mem.bind at 1 2, Mem.write at 1. rewrite Ha.
    unfold Mem.ret at 1. unfold Mem.bind at 1. fold h1. rewrite Hrun.
    split; [reflexivity|]. split; [|split].
    + constructor; [|exact HL2].
      unfold At. rewrite (Hframe a Hnotin). unfold h1.
      apply nth_error_update_eq. eapply At_lt; eauto.
    + rewrite Hlen. apply length_update.
    + intros b Hb. rewrite Hframe by (intros Hin; apply Hb; now right).
      apply nth_error_update_ne. intros ->. apply Hb. now left.
Qed.

Lemma Item_of_ModuleResults_R (h : Mem.heap) (r_h : Mem.ModuleResults)
    (r : ModuleResults) :
  ResR h r_h r -> Mem.Item_of_ModuleResults r_h = Item_of_ModuleResults r.
Proof.
  intros (H1 & H2 & H3 & _). unfold Mem.Item_of_ModuleResults,
    Item_of_ModuleResults. now rewrite H1, H2, H3.
Qed.

Lemma parse_sim (h : Mem.heap) (lo : nat) (r_h : Mem.ModuleResults)
    (r : ModuleResults) :
  ResR h r_h r -> within lo (List.length h) (res_addrs r_h) ->
  exists h',
    Mem.parseModuleResults r_h h = Ok (parseModuleResults r, h')
    /\ List.length h' = List.length h
    /\ forall b, ~ In b (res_addrs r_h) -> nth_error h' b = nth_error h b.
Proof.
  intros HR [Hnd _].
  pose proof (Item_of_ModuleResults_R _ _ _ HR) as Hitem.
  destruct HR as (Hid & _ & _ & Rf & Rc & Rt).
  apply OptR_or_empty in Rf, Rc, Rt. unfold res_addrs in *.
  set (fs := or_empty (Mem.res_functions r_h)) in *.
  set (cs := or_empty (Mem.res_callbacks r_h)) in *.
  set (ts := or_empty (Mem.res_types r_h)) in *.
  apply NoDup_app_inv in Hnd as (Nf & Hnd & Dfx).
  apply NoDup_app_inv in Hnd as (Nc & Nt & Dct).
  destruct (addLabel_sim "type" ts _ h Rt Nt) as (h1 & Run1 & Lt1 & Len1 & F1).
  assert (Lc1 : ListR h1 cs (or_empty (res_callbacks r))).
  { apply (ListR_frame h); [assumption|]. intros b Hb. apply F1.
    intros Hin. now apply (Dct b). }
  destruct (addLabel_sim "callback" cs _ h1 Lc1 Nc)
    as (h2 & Run2 & Lc2 & Len2 & F2).
  assert (Lt2 : ListR h2 ts (addLabel (or_empty (res_types r)) "type")).
  { apply (ListR_frame h1); [assumption|]. intros b Hb. apply F2.
    intros Hin. now apply (Dct b). }
  assert (Lf2 : ListR h2 fs (or_empty (res_functions r))).
  { apply (ListR_frame h); [assumption|]. intros b Hb.
    rewrite F2, F1; auto; intros Hin; apply (Dfx b Hb);
      rewrite in_app_iff; tauto. }
  exists h2. unfold Mem.parseModuleResults. fold fs cs ts.
  unfold Mem.bind at 1. rewrite Run1.
  unfold Mem.bind at 1. rewrite Run2.
  unfold Mem.bind at 1.
  rewrite (mapM_read h2 (fs ++ cs ++ ts)
             (or_empty (res_functions r)
              ++ addLabel (or_empty (res_callbacks r)) "callback"
              ++ addLabel (or_empty (res_types r)) "type"))
    by (repeat apply Forall2_app; assumption).
  unfold Mem.ret. rewrite Hitem, Hid.
  split; [reflexivity|]. split; [congruence|].
  intros b Hb. rewrite F2, F1; auto; intros Hin; apply Hb;
    rewrite !in_app_iff; tauto.
Qed.

Lemma Forall2_impl_In {A B} (R R' : A -> B -> Prop) l1 l2 :
  Forall2 R l1 l2 ->
  (forall x y, In x l1 -> R x y -> R' x y) ->
  Forall2 R' l1 l2.
Proof.
  induction 1 as [|x y l1 l2 Hxy _ IH]; intros Himp; constructor.
  - apply Himp; [now left | exact Hxy].
  - apply IH. intros x' y' Hin. apply Himp. now right.
Qed.

Lemma reduce_sim (lo : nat) (rs_h : list Mem.ModuleResults)
    (rs : list ModuleResults) :
  forall h acc,
    Forall2 (ResR h) rs_h rs ->
    within lo (List.length h) (flat_map res_addrs rs_h) ->
    exists h',
      Mem.reduce_parse rs_h acc h
      = Ok ((acc ++ flat_map parseModuleResults rs)%list, h')
      /\ List.length h' = List.length h
      /\ forall b, ~ In b (flat_map res_addrs rs_h) ->
                   nth_error h' b = nth_error h b.
Proof.
  revert rs; induction rs_h as [|r_h rs_h IH]; intros rs h acc HR Hw;
    inversion HR as [|? r ? rs' Hr Hrs]; subst.
  - exists h. simpl. rewrite app_nil_r. now repeat split.
  - simpl in Hw. destruct Hw as [Hnd Hb].
    pose proof (NoDup_app_inv _ _ Hnd) as (N1 & N2 & D).
    destruct (parse_sim h lo r_h r Hr) as (h1 & Run1 & Len1 & F1).
    { split; auto. intros a Ha. apply Hb. apply in_or_app. now left. }
    assert (Hrs1 : Forall2 (ResR h1) rs_h rs').
    { apply (Forall2_impl_In (ResR h)); [assumption|].
      intros x y Hx Hxy. apply (ResR_frame h); [assumption|].
      intros b Hbx. apply F1. intros Hin. apply (D b Hin).
      apply in_flat_map. eauto. }
    destruct (IH rs' h1 (acc ++ parseModuleResults r)%list Hrs1)
      as (h' & Run2 & Len2 & F2).
    { rewrite Len1. split; auto. intros a Ha. apply Hb.
      apply in_or_app. now right. }
    exists h'. cbn [Mem.reduce_parse flat_map].
    unfold Mem.bind at 1. rewrite Run1, Run2, <- app_assoc.
    split; [reflexivity|]. split; [congruence|].
    intros b Hnb. rewrite F2, F1; auto; intros Hin; apply Hnb;
      apply in_or_app; auto.
Qed.

(** *** The whole call *)

Lemma addCategory_R (h : Mem.heap) (c : Category)
    (rs_h : list Mem.ModuleResults) (rs : list ModuleResults) :
  Forall2 (ResR h) rs_h rs ->
  Forall2 (ResR h) (Mem.addCategory rs_h c) (addCategory rs c).
Proof.
  induction 1 as [|r_h r rs_h rs (H1 & H2 & H3 & H4 & H5 & H6) _ IH];
    simpl; constructor; auto.
  repeat split; auto.
Qed.

Lemma addCategory_addrs (c : Category) (rs_h : list Mem.ModuleResults) :
  flat_map res_addrs (Mem.addCategory rs_h c) = flat_map res_addrs rs_h.
Proof.
  induction rs_h as [|r rs_h IH]; simpl; [reflexivity|]. now rewrite IH.
Qed.

Lemma Forall2_ResR_app (h e : Mem.heap) rs_h rs :
  Forall2 (ResR h) rs_h rs -> Forall2 (ResR (h ++ e)%list) rs_h rs.
Proof.
  intros H. eapply Forall2_impl_In; [exact H|].
  intros x y _ Hxy. now apply ResR_app.
Qed.

Lemma heap_prefix (p h' : Mem.heap) :
  List.length p <= List.length h' ->
  (forall b, b < List.length p -> nth_error h' b = nth_error p b) ->
  h' = (p ++ skipn (List.length p) h')%list.
Proof.
  intros Hlen Hf.
  rewrite <- (firstn_skipn (List.length p) h') at 1. f_equal.
  apply nth_error_ext. intros n. rewrite nth_error_firstn.
  destruct (Nat.ltb_spec n (List.length p)) as [Hn | Hn]; [now apply Hf|].
  symmetry. now apply nth_error_None.
Qed.

Section Collation3.
Variable localeCompare : string -> string -> Z.

Lemma getSuggestions_sim (h0 : Mem.heap) (i_h : Mem.SidebarNodes)
    (i : SidebarNodes) (term : string) :
  IndexR h0 i_h i ->
  forall e,
  exists out e',
    Mem.getSuggestions localeCompare i_h term (h0 ++ e)%list
    = Ok (out, (h0 ++ e ++ e')%list)
    /\ getSuggestions localeCompare i term = Ok out.
Proof.
  intros (Rm & Re & Rt) e.
  unfold Mem.getSuggestions, getSuggestions.
  destruct (Nat.eqb (String.length (Str.trim term)) 0).
  { exists [], []. now rewrite app_nil_r. }
  destruct (SearchFacts.flattened_total localeCompare i term)
    as (ms & es & ts & Hm & He & Ht & Hflat).
  rewrite Hflat. cbn [bind]. unfold findIn in Hm, He, Ht.
  destruct (map_filter_sim localeCompare h0 _ _ _ term Rm e ms Hm)
    as (ms_h & e1 & Run1 & R1 & W1).
  destruct (map_filter_sim localeCompare h0 _ _ _ term Re (e ++ e1)%list
              es He) as (es_h & e2 & Run2 & R2 & W2).
  destruct (map_filter_sim localeCompare h0 _ _ _ term Rt
              ((e ++ e1) ++ e2)%list ts Ht)
    as (ts_h & e3 & Run3 & R3 & W3).
  rewrite <- !app_assoc in *.
  set (H3 := (h0 ++ e ++ e1 ++ e2 ++ e3)%list) in *.
  assert (L1 : List.length (h0 ++ e)%list
               <= List.length (h0 ++ e ++ e1)%list)
    by (rewrite !length_app; lia).
  assert (L2 : List.length (h0 ++ e ++ e1)%list
               <= List.length (h0 ++ e ++ e1 ++ e2)%list)
    by (rewrite !length_app; lia).
  assert (L3 : List.length (h0 ++ e ++ e1 ++ e2)%list <= List.length H3)
    by (unfold H3; rewrite !length_app; lia).
  assert (R1' : Forall2 (ResR H3) ms_h ms).
  { unfold H3. replace (h0 ++ e ++ e1 ++ e2 ++ e3)%list
      with ((h0 ++ e ++ e1) ++ e2 ++ e3)%list
      by now rewrite <- !app_assoc.
    now apply Forall2_ResR_app. }
  assert (R2' : Forall2 (ResR H3) es_h es).
  { unfold H3. replace (h0 ++ e ++ e1 ++ e2 ++ e3)%list
      with ((h0 ++ e ++ e1 ++ e2) ++ e3)%list
      by now rewrite <- !app_assoc.
    now apply Forall2_ResR_app. }
  set (all_h := (Mem.addCategory ms_h Module_
                   ++ Mem.addCategory es_h Exception
                   ++ Mem.addCategory ts_h Mix_Task)%list).
  set (all := (addCategory ms Module_ ++ addCategory es Exception
                 ++ addCategory ts Mix_Task)%list).
  assert (Rall : Forall2 (ResR H3) all_h all).
  { unfold all_h, all. repeat apply Forall2_app; now apply addCategory_R. }
  assert (Wall : within (List.length (h0 ++ e)%list) (List.length H3)
                   (flat_map res_addrs all_h)).
  { unfold all_h. rewrite !flat_map_app, !addCategory_addrs.
    eapply within_app; [exact L1 | lia | exact W1 |].
    eapply within_app; [exact L2 | exact L3 | exact W2 | exact W3]. }
  destruct (reduce_sim _ all_h all H3 [] Rall Wall)
    as (h' & Run4 & Len4 & F4).
  unfold Mem.findIn. unfold Mem.bind at 1. rewrite Run1.
  unfold Mem.bind at 1. rewrite Run2.
  unfold Mem.bind at 1. rewrite Run3.
  unfold Mem.bind at 1. fold all_h. rewrite Run4. unfold Mem.ret.
  assert (Hpre : h' = ((h0 ++ e) ++ skipn (List.length (h0 ++ e)%list) h')%list).
  { apply heap_prefix; [lia|]. intros b Hb.
    rewrite F4.
    - unfold H3. rewrite !app_assoc.
      rewrite <- !app_assoc. rewrite (app_assoc h0 e).
      now apply nth_error_app1.
    - intros Hin. apply Wall in Hin. lia. }
  exists (Arr.slice0 resultsCount
            (Arr.sort compareItems (flat_map parseModuleResults all))),
    (skipn (List.length (h0 ++ e)%list) h').
  rewrite app_assoc, <- Hpre. split; reflexivity.
Qed.
End Collation3.

(** *** A well-formed index *)

Lemma wf_entry_R (h : Mem.heap) (e : Mem.Entry) :
  wf_entry h e -> EntryR h e (load_entry h e).
Proof.
  intros H. split; [reflexivity|]. split; [reflexivity|]. simpl.
  unfold wf_entry in H.
  induction H as [|[key l] gs Hg _ IH]; simpl; constructor; auto.
  split; [reflexivity|]. simpl in *.
  induction Hg as [|a l Ha _ IHl]; simpl; constructor; auto.
  unfold At. now apply nth_error_nth'.
Qed.

Lemma wf_IndexR (h : Mem.heap) (i : Mem.SidebarNodes) :
  wf h i -> IndexR h i (load h i).
Proof.
  intros (Hm & He & Ht).
  repeat split; simpl;
    match goal with
    | H : Forall (wf_entry h) ?l |- Forall2 _ ?l _ =>
        induction H; simpl; constructor; auto using wf_entry_R
    end.
Qed.

Lemma load_entry_app (h e : Mem.heap) (x : Mem.Entry) :
  wf_entry h x -> load_entry (h ++ e)%list x = load_entry h x.
Proof.
  intros H. unfold load_entry. f_equal. unfold wf_entry in H.
  induction H as [|[key l] gs Hg _ IH]; simpl; [reflexivity|].
  rewrite IH. do 2 f_equal. simpl in Hg.
  induction Hg as [|a l Ha _ IHl]; simpl; [reflexivity|].
  rewrite IHl. f_equal. now apply app_nth1.
Qed.

Lemma load_app (h e : Mem.heap) (i : Mem.SidebarNodes) :
  wf h i -> load (h ++ e)%list i = load h i.
Proof.
  intros (Hm & He & Ht). unfold load.
  f_equal;
    match goal with
    | H : Forall (wf_entry h) ?l |- map _ ?l = map _ ?l =>
        induction H; simpl; [reflexivity|];
        f_equal; auto using load_entry_app
    end.
Qed.

End HeapFacts.

(** C8.  Over a heap that holds the records of the index (every address
    of the index being the address of a record), a call of
    [getSuggestions] returns and leaves every record of the heap as it
    was: the heap after the call is the heap before it followed by the
    records that the call allocated (the copies it annotates with
    [match] and [label]).  A second call on the resulting heap returns
    the same items, which are those computed from the records read off
    the heap. *)
Theorem suggestions_leave_the_index_alone
    (localeCompare : string -> string -> Z) (h : Mem.heap)
    (sidebarNodes : Mem.SidebarNodes) (term : string) :
  wf h sidebarNodes ->
  exists out new new',
    Mem.getSuggestions localeCompare sidebarNodes term h = Ok (out, (h ++ new)%list)
    /\ Mem.getSuggestions localeCompare sidebarNodes term (h ++ new)%list
       = Ok (out, (h ++ new ++ new')%list)
    /\ load (h ++ new)%list sidebarNodes = load h sidebarNodes
    /\ getSuggestions localeCompare (load h sidebarNodes) term = Ok out.
Proof.
  intros Hwf.
  pose proof (HeapFacts.wf_IndexR _ _ Hwf) as HR.
  destruct (HeapFacts.getSuggestions_sim localeCompare h _ _ term HR [])
    as (out & new & Run1 & Hpure).
  destruct (HeapFacts.getSuggestions_sim localeCompare h _ _ term HR new)
    as (out' & new' & Run2 & Hpure').
  rewrite app_nil_r in Run1. simpl in Run1.
  assert (out' = out) by congruence. subst out'.
  exists out, new, new'. repeat split; auto.
  now apply HeapFacts.load_app.
Qed.

Lemma suggestions_leave_the_index_alone_witness :
  exists out new new',
    Mem.getSuggestions codeUnitCompare Foo_bar_refs "bar" heap_bar
    = Ok (out, (heap_bar ++ new)%list)
    /\ Mem.getSuggestions codeUnitCompare Foo_bar_refs "bar" (heap_bar ++ new)%list
       = Ok (out, (heap_bar ++ new ++ new')%list)
    /\ load (heap_bar ++ new)%list Foo_bar_refs = load heap_bar Foo_bar_refs
    /\ getSuggestions codeUnitCompare (load heap_bar Foo_bar_refs) "bar" = Ok out.
Proof.
  apply (suggestions_leave_the_index_alone codeUnitCompare heap_bar
           Foo_bar_refs "bar").
  unfold wf, wf_entry. simpl. repeat constructor.
Defined.

(** ** Two further properties *)

Module MoreFacts.
Import Str StrFacts MatchFacts.

Lemma isMatch_true (item : Item) :
  isMatch item = true -> item_match item <> Some (item_id item).
Proof.
  unfold isMatch. intros H E. rewrite E in H. simpl in H.
  now rewrite String.eqb_refl in H.
Qed.

Lemma drop_past (pre u post : string) :
  drop (String.length pre + String.length u) (pre ++ u ++ post) = post.
Proof.
  rewrite <- append_assoc, <- length_append. apply drop_append_length.
Qed.
End MoreFacts.

(** Where the matched text has no [$], [highlight] wraps the leftmost
    occurrence of the term, read without regard to case, in [<em>] and
    [</em>], and leaves the rest of the string as it is. *)
Theorem highlight_wraps_leftmost_occurrence (s t : string) (m : Match) :
  str_match s (escaped_RegExp_i t) = Some m ->
  no_dollar (m_0 m) = true ->
  exists pre post,
    s = pre ++ m_0 m ++ post
    /\ ci_equal (m_0 m) t = true
    /\ (forall pre' u' post',
           s = pre' ++ u' ++ post' -> ci_equal u' t = true ->
           String.length pre <= String.length pre')
    /\ highlight (Some m) = Ok (pre ++ "<em>" ++ m_0 m ++ "</em>" ++ post).
Proof.
  intros Hm Hd.
  pose proof (CaseFacts.str_match_occurrence t s) as Hocc. rewrite Hm in Hocc.
  destruct Hocc as (pre & post & Hs & Hci & Hidx & _ & Hmin).
  exists pre, post. repeat split; auto.
  rewrite (MatchFacts.highlight_wraps _ _ _ Hm Hd). simpl.
  rewrite Hidx, <- (CaseFacts.ci_equal_length _ _ Hci).
  rewrite Hs at 1 2.
  now rewrite StrFacts.take_append_length, MoreFacts.drop_past.
Qed.

Lemma highlight_wraps_leftmost_occurrence_witness :
  exists pre post,
    "abcABC" = pre ++ "bc" ++ post
    /\ ci_equal "bc" "BC" = true
    /\ (forall pre' u' post',
           "abcABC" = pre' ++ u' ++ post' -> ci_equal u' "BC" = true ->
           String.length pre <= String.length pre')
    /\ highlight (Some {| m_0 := "bc"; m_index := 1; m_input := "abcABC" |})
       = Ok (pre ++ "<em>" ++ "bc" ++ "</em>" ++ post).
Proof.
  apply (highlight_wraps_leftmost_occurrence "abcABC" "BC"
           {| m_0 := "bc"; m_index := 1; m_input := "abcABC" |});
    reflexivity.
Defined.

(** Every item that [parseModuleResults] lists comes from a record whose
    match is not its id: the entry itself, or one of its nodes. *)
Theorem listed_items_differ_from_their_id
    (r : ModuleResults) (s : SuggestionItem) :
  In s (parseModuleResults r) ->
  (s = serialize (Item_of_ModuleResults r) (res_id r) false
   /\ res_match r <> Some (res_id r))
  \/ exists n,
      In n (or_empty (res_functions r)
            ++ addLabel (or_empty (res_callbacks r)) "callback"
            ++ addLabel (or_empty (res_types r)) "type")%list
      /\ node_match n <> Some (node_id n)
      /\ s = serialize (Item_of_Node n) (res_id r) true.
Proof.
  rewrite SortFacts.parseModuleResults_order. intros H.
  apply in_app_or in H as [H | H].
  - left. destruct (isMatch (Item_of_ModuleResults r)) eqn:E; [|destruct H].
    destruct H as [<- | []]. split; [reflexivity|].
    exact (MoreFacts.isMatch_true _ E).
  - right. apply in_map_iff in H as (n & <- & Hn).
    apply filter_In in Hn as [Hn E].
    exists n. repeat split; auto.
    exact (MoreFacts.isMatch_true _ E).
Qed.

Lemma listed_items_differ_from_their_id_witness :
  (bar_item
   = serialize
       (Item_of_ModuleResults
          {| res_id := "Foo"; res_match := Some "Foo";
             res_functions :=
               Some [set_match (mkNode "bar" (Some "bar/1")) "<em>bar</em>"];
             res_callbacks := None; res_types := None;
             res_category := Some Module_ |}) "Foo" false
   /\ Some "Foo" <> Some "Foo")
  \/ exists n,
      In n [set_match (mkNode "bar" (Some "bar/1")) "<em>bar</em>"]
      /\ node_match n <> Some (node_id n)
      /\ bar_item = serialize (Item_of_Node n) "Foo" true.
Proof.
  apply (listed_items_differ_from_their_id
           {| res_id := "Foo"; res_match := Some "Foo";
              res_functions :=
                Some [set_match (mkNode "bar" (Some "bar/1")) "<em>bar</em>"];
              res_callbacks := None; res_types := None;
              res_category := Some Module_ |} bar_item).
  left. reflexivity.
Defined.

(* ================================================================== *)
(** * Further properties of the search *)

Module NodeFacts.
Import Str StrFacts MatchFacts SearchFacts.

Lemma set_Permutation {A} (o : Obj.t A) (k : string) (v : A) :
  Obj.hasOwn o k = false -> Permutation (Obj.set o k v) ((k, v) :: o).
Proof.
  intros H. unfold Obj.set. rewrite H.
  destruct (Obj.arrayIndex k) as [i|].
  - apply HeapFacts.insertIndex_Permutation.
  - apply Permutation_sym, Permutation_cons_append.
Qed.

Lemma hasOwn_keys {A} (o : Obj.t A) (k : string) :
  Obj.hasOwn o k = true <-> In k (map fst o).
Proof.
  unfold Obj.hasOwn. rewrite existsb_exists. split.
  - intros ([k' v] & Hin & E). simpl in E. apply String.eqb_eq in E. subst.
    apply in_map_iff. now exists (k, v).
  - intros Hin. apply in_map_iff in Hin as ([k' v] & E & Hin). simpl in E.
    subst. exists (k, v). split; [exact Hin | apply String.eqb_refl].
Qed.

Lemma truthy_false {A} (o : Obj.t A) (k : string) :
  Obj.truthy o k = false ->
  Obj.hasOwn o k = false /\ inherited k = false /\ ~ In k (map fst o).
Proof.
  unfold Obj.truthy, inherited. intros H. apply orb_false_iff in H as [H1 H2].
  repeat split; auto. intros Hin. apply hasOwn_keys in Hin. congruence.
Qed.

Lemma nonEmpty_set {A} (o : Obj.t A) (k : string) (v : A) :
  Obj.hasOwn o k = false -> Obj.nonEmpty (Obj.set o k v) = true.
Proof.
  intros H. pose proof (set_Permutation o k v H) as Hp.
  destruct (Obj.set o k v); [|reflexivity].
  now apply Permutation_nil in Hp.
Qed.

(** What [findNested] returns: the accumulator it was given, kept as it
    was, and one copy for every element that it did not skip. *)
Lemma findNested_from_produced (t : string) (p : option string)
    (elements : list Node) :
  forall term acc acc',
    term_of (escaped_RegExp_i t) term ->
    findNested_from elements p (escaped_RegExp_i t) term acc = Ok acc' ->
    (forall kv, In kv acc -> In kv acc')
    /\ (forall kv, In kv acc' ->
          In kv acc
          \/ exists n, In n elements /\ fst kv = node_id n
                       /\ inherited (node_id n) = false
                       /\ produced t n (snd kv))
    /\ (NoDup (map fst acc) -> NoDup (map fst acc')).
Proof.
  induction elements as [|element elements IH]; intros term acc acc' Ht H.
  - simpl in H. injection H as <-. repeat split; auto.
  - rewrite findNested_from_cons in H.
    destruct (Obj.truthy acc (node_id element)) eqn:Et.
    { destruct (IH _ _ _ Ht H) as (K1 & K2 & K3). repeat split; auto.
      intros kv Hkv. destruct (K2 kv Hkv) as [Hin | (n & Hn & Hrest)]; auto.
      right. exists n. split; [now right | exact Hrest]. }
    destruct (truthy_false _ _ Et) as (Hown & Hinh & Hnot).
    assert (Hstep : forall m term',
               term_of (escaped_RegExp_i t) term' ->
               (m = node_id element
                \/ shown_highlight t (node_id element) (Some m)) ->
               findNested_from elements p (escaped_RegExp_i t) term'
                 (Obj.set acc (node_id element)
                    (set_match (JSON_copy element) m)) = Ok acc' ->
               (forall kv, In kv acc -> In kv acc')
               /\ (forall kv, In kv acc' ->
                     In kv acc
                     \/ exists n, In n (element :: elements)
                                  /\ fst kv = node_id n
                                  /\ inherited (node_id n) = false
                                  /\ produced t n (snd kv))
               /\ (NoDup (map fst acc) -> NoDup (map fst acc'))).
    { intros m term' Ht' Hm Hrun.
      destruct (IH _ _ _ Ht' Hrun) as (K1 & K2 & K3).
      pose proof (set_Permutation acc (node_id element)
                    (set_match (JSON_copy element) m) Hown) as Hp.
      repeat split.
      - intros kv Hkv. apply K1.
        apply (Permutation_in _ (Permutation_sym Hp)). now right.
      - intros kv Hkv. destruct (K2 kv Hkv) as [Hin | (n & Hn & Hrest)].
        + apply (Permutation_in _ Hp) in Hin. destruct Hin as [<- | Hin];
            [right | now left].
          exists element. split; [now left|]. split; [reflexivity|].
          split; [exact Hinh|]. repeat split.
          destruct Hm as [-> | Hm]; [now left | now right].
        + right. exists n. split; [now right | exact Hrest].
      - intros Hnd. apply K3.
        apply (Permutation_NoDup
                 (Permutation_sym (Permutation_map fst Hp))).
        simpl. now constructor. }
    destruct (isSome (and_match (Some (node_id element)) (escaped_RegExp_i t)))
      eqn:Em.
    + apply isSome_true in Em as (mm & Emm). rewrite Emm in H.
      cbn [highlight bind] in H.
      refine (Hstep _ term Ht _ H).
      right. eexists mm, _.
      split; [left; now apply NestedRule.and_match_nonempty|].
      split; reflexivity.
    + destruct (negb _ && _).
      * destruct (and_match (Some (node_id element))
                    (escaped_RegExp_i (pop (split "." term)))) as [mm|] eqn:Emm;
          [|discriminate].
        cbn [highlight bind] in H.
        refine (Hstep _ (pop (split "." term)) (term_of_pop _ _ Ht) _ H).
        right. eexists mm, _. split; [|split; reflexivity].
        right. unfold term_of in Ht. simpl in Ht. rewrite <- Ht.
        now apply NestedRule.and_match_nonempty.
      * refine (Hstep _ term Ht _ H). now left.
Qed.

Lemma findNested_from_nonEmpty (p : option string) (matcher : RegExp)
    (elements : list Node) :
  forall term acc acc',
    findNested_from elements p matcher term acc = Ok acc' ->
    Obj.nonEmpty acc' = true ->
    Obj.nonEmpty acc = true
    \/ existsb (fun n => negb (inherited (node_id n))) elements = true.
Proof.
  induction elements as [|element elements IH]; intros term acc acc' H Hne.
  - simpl in H. injection H as <-. now left.
  - rewrite findNested_from_cons in H. cbn [existsb].
    destruct (Obj.truthy acc (node_id element)) eqn:Et.
    + destruct (IH _ _ _ H Hne) as [Ha | He]; [now left | right].
      rewrite He. apply orb_true_r.
    + destruct (truthy_false _ _ Et) as (_ & Hinh & _).
      right. now rewrite Hinh.
Qed.

Lemma findNested_from_grows (p : option string) (matcher : RegExp)
    (elements : list Node) :
  forall term acc acc',
    findNested_from elements p matcher term acc = Ok acc' ->
    (Obj.nonEmpty acc = true
     \/ existsb (fun n => negb (inherited (node_id n))) elements = true) ->
    Obj.nonEmpty acc' = true.
Proof.
  induction elements as [|element elements IH]; intros term acc acc' H Hne.
  - simpl in H. injection H as <-. destruct Hne as [Hne | Hne];
      [exact Hne | discriminate].
  - rewrite findNested_from_cons in H. cbn [existsb] in Hne.
    destruct (Obj.truthy acc (node_id element)) eqn:Et.
    + apply (IH _ _ _ H). destruct Hne as [Hne | Hne]; [now left|].
      apply orb_true_iff in Hne as [Hne | Hne]; [|now right].
      left. apply negb_true_iff in Hne.
      unfold Obj.truthy in Et. fold (inherited (node_id element)) in Et.
      rewrite Hne, orb_false_r in Et.
      unfold Obj.hasOwn in Et. now destruct acc.
    + destruct (truthy_false _ _ Et) as (Hown & _ & _).
      assert (Hset : forall v, Obj.nonEmpty (Obj.set acc (node_id element) v)
                               = true)
        by (intros v; now apply nonEmpty_set).
      destruct (isSome _).
      * destruct (highlight _); [|discriminate]. cbn [bind] in H.
        apply (IH _ _ _ H). left. apply Hset.
      * destruct (negb _ && _).
        -- destruct (highlight _); [|discriminate]. cbn [bind] in H.
           apply (IH _ _ _ H). left. apply Hset.
        -- apply (IH _ _ _ H). left. apply Hset.
Qed.

End NodeFacts.

Module GroupFacts.
Import Str StrFacts MatchFacts SearchFacts NodeFacts.

Lemma found_get_store (f : Found) (key slot : Key) (m : Obj.t Node) :
  found_get (found_store f key m) slot
  = match slot with
    | other => None
    | _ => if match slot_of key, slot with
              | functions, functions | callbacks, callbacks
              | types, types => true
              | _, _ => false
              end
           then Some m else found_get f slot
    end.
Proof. destruct key, slot; reflexivity. Qed.

Lemma found_get_store_cases (f : Found) (key slot : Key)
    (m o : Obj.t Node) :
  found_get (found_store f key m) slot = Some o ->
  (slot_of key = slot /\ o = m)
  \/ (slot_of key <> slot /\ found_get f slot = Some o).
Proof.
  destruct key, slot; simpl; intros H; try discriminate;
    first [ left; split; [reflexivity | congruence]
          | right; split; [discriminate | exact H] ].
Qed.

Lemma found_get_Some_slot (f : Found) (key : Key) (o : Obj.t Node) :
  found_get f key = Some o -> slot_of key = key.
Proof. destruct key; simpl; congruence. Qed.

Lemma from_groups_incl (t : string) (gs gs' : list (Key * list Node))
    (slot : Key) (v : Node) :
  incl gs gs' -> from_groups t gs slot v -> from_groups t gs' slot v.
Proof.
  intros Hi (key & nodes & n & Hin & Hrest).
  exists key, nodes, n. split; [now apply Hi | exact Hrest].
Qed.

Lemma findIn_groups_inv (t : string) (title : option string)
    (G gs : list (Key * list Node)) :
  incl gs G ->
  forall f b f' b',
    found_inv t G f b ->
    findIn_groups gs title (escaped_RegExp_i t) t f b = Ok (f', b') ->
    found_inv t G f' b'
    /\ b' = b || existsb group_has_node gs
    /\ found_id f' = found_id f /\ found_match f' = found_match f.
Proof.
  induction gs as [|[key nodes] gs IH]; intros Hincl f b f' b' Hinv H.
  - simpl in H. injection H as <- <-. simpl. rewrite orb_false_r. auto.
  - cbn [findIn_groups] in H.
    destruct (findNested nodes title (escaped_RegExp_i t) t (found_get f key))
      as [matches|] eqn:Ef; [|discriminate].
    cbn [bind] in H. unfold findNested in Ef.
    set (acc0 := match found_get f key with Some o => o | None => [] end) in *.
    destruct (findNested_from_produced t title nodes t acc0 matches
                (term_of_escaped t) Ef) as (K1 & K2 & K3).
    assert (Hin : In (key, nodes) G) by (apply Hincl; now left).
    assert (Hincl' : incl gs G) by (intros x Hx; apply Hincl; now right).
    assert (Hacc0 : Obj.nonEmpty acc0 = true -> b = true).
    { unfold acc0. destruct (found_get f key) as [o|] eqn:Eg;
        [|discriminate]. intros _. now destruct (Hinv _ _ Eg) as (_ & Hb & _). }
    cbn [existsb]. unfold group_has_node at 1. cbn [snd].
    destruct (Obj.nonEmpty matches) eqn:Ene.
    + assert (Hb : b || existsb (fun n => negb (inherited (node_id n))) nodes
                   = true).
      { destruct (findNested_from_nonEmpty _ _ _ _ _ _ Ef Ene) as [Ha | He].
        - now rewrite (Hacc0 Ha).
        - rewrite He. apply orb_true_r. }
      destruct (IH Hincl' (found_store f key matches) true f' b') as
        (I1 & I2 & I3 & I4); [|exact H|].
      * intros slot o Hget.
        destruct (found_get_store_cases _ _ _ _ _ Hget) as [[Es ->] | [_ Hold]].
        -- split; [exact Ene|]. split; [reflexivity|]. split.
           ++ apply K3. unfold acc0.
              destruct (found_get f key) as [o0|] eqn:Eg; [|constructor].
              now destruct (Hinv _ _ Eg) as (_ & _ & A3 & _).
           ++ intros kv Hkv.
              destruct (K2 kv Hkv) as [Hold | (n & Hn & Hk & Hi & Hp)].
              ** unfold acc0 in Hold.
                 destruct (found_get f key) as [o0|] eqn:Eg;
                   [|now destruct Hold].
                 pose proof (found_get_Some_slot _ _ _ Eg) as Ek.
                 rewrite Ek in Es. subst slot.
                 now apply (Hinv _ _ Eg).
              ** split; [destruct Hp as (Hid & _); congruence|].
                 exists key, nodes, n. repeat split; auto; apply Hp.
        -- destruct (Hinv _ _ Hold) as (A1 & _ & A3 & A4). repeat split; auto;
             now apply A4.
      * split; [exact I1|]. rewrite I2, orb_assoc, Hb.
        destruct (TitleFacts.found_store_keeps f key matches).
        split; [reflexivity | split; congruence].
    + assert (He : existsb (fun n => negb (inherited (node_id n))) nodes
                   = false).
      { destruct (existsb _ nodes) eqn:E; [|reflexivity].
        rewrite (findNested_from_grows _ _ _ _ _ _ Ef) in Ene;
          [discriminate | now right]. }
      destruct (IH Hincl' f b f' b' Hinv H) as (I1 & I2 & I3).
      split; [exact I1|]. rewrite I2, He. simpl. auto.
Qed.

Lemma res_get_sorted (localeCompare : string -> string -> Z) (t : string)
    (G : list (Key * list Node)) (slot : Key) (f : Found) (b : bool)
    (x : option (Obj.t Node)) :
  found_inv t G f b -> found_get f slot = x ->
  NoDup (map node_id (or_empty (option_map (sortNodes localeCompare) x)))
  /\ forall v, In v (or_empty (option_map (sortNodes localeCompare) x)) ->
               from_groups t G slot v.
Proof.
  intros Hinv Hget. destruct x as [o|]; simpl; [|split; [constructor | tauto]].
  destruct (Hinv _ _ Hget) as (_ & _ & Hnd & Hkv).
  assert (Hp : Permutation (Obj.values o) (sortNodes localeCompare o))
    by apply SortFacts.sort_Permutation.
  split.
  - apply (Permutation_NoDup (Permutation_map node_id Hp)).
    unfold Obj.values. rewrite map_map.
    rewrite (map_ext_in (fun kv => node_id (snd kv)) fst); [exact Hnd|].
    intros kv Hin. symmetry. now apply Hkv.
  - intros v Hv. apply (Permutation_in _ (Permutation_sym Hp)) in Hv.
    apply in_map_iff in Hv as (kv & <- & Hin). now apply Hkv.
Qed.

Section Collation.
Variable localeCompare : string -> string -> Z.

Lemma findIn_element_result (t : string) (e : Entry)
    (r : option ModuleResults) :
  findIn_element localeCompare (escaped_RegExp_i t) t e = Ok r ->
  match r with
  | Some x => retained (escaped_RegExp_i t) e = true /\ result_of t e x
  | None => retained (escaped_RegExp_i t) e = false
  end.
Proof.
  unfold findIn_element, retained. intros H.
  assert (Hinit : forall mt b,
             found_inv t (entry_nodeGroups e)
               {| found_id := entry_id e; found_match := mt;
                  found_functions := None; found_callbacks := None;
                  found_types := None |} b)
    by (intros mt b slot o Hget; destruct slot; discriminate).
  destruct (and_match (entry_title e) (escaped_RegExp_i t)) as [m|] eqn:Em;
    cbn [isSome highlight bind] in H.
  - match type of H with
    | context [findIn_groups ?g ?tt ?mt ?tm ?f ?b] =>
        destruct (findIn_groups g tt mt tm f b) as [[f' b']|] eqn:Eg;
          [|discriminate]
    end.
    destruct (findIn_groups_inv t _ _ _ (incl_refl _) _ _ _ _ (Hinit _ _) Eg)
      as (I1 & I2 & I3 & I4).
    simpl in I2. subst b'. cbn [bind] in H. injection H as <-.
    split; [reflexivity|]. unfold result_of. cbn [res_id res_category res_match].
    split; [exact I3|]. split; [reflexivity|]. split.
    + right. eexists m, _. split; [exact Em|]. split; [reflexivity|].
      exact I4.
    + intros slot. destruct slot; cbn [res_get res_functions res_callbacks
                                         res_types];
        try (eapply res_get_sorted; [exact I1 | reflexivity]).
      split; [constructor | intros v []].
  - match type of H with
    | context [findIn_groups ?g ?tt ?mt ?tm ?f ?b] =>
        destruct (findIn_groups g tt mt tm f b) as [[f' b']|] eqn:Eg;
          [|discriminate]
    end.
    destruct (findIn_groups_inv t _ _ _ (incl_refl _) _ _ _ _ (Hinit _ _) Eg)
      as (I1 & I2 & I3 & I4).
    simpl in I2. cbn [bind] in H. cbn [isSome orb]. fold (has_node e) in I2.
    unfold has_node. fold group_has_node. rewrite <- I2.
    destruct b'; injection H as <-; [|reflexivity].
    split; [reflexivity|]. unfold result_of. cbn [res_id res_category res_match].
    split; [exact I3|]. split; [reflexivity|]. split.
    + left. split; [exact Em | exact I4].
    + intros slot. destruct slot; cbn [res_get res_functions res_callbacks
                                         res_types];
        try (eapply res_get_sorted; [exact I1 | reflexivity]).
      split; [constructor | intros v []].
Qed.

Lemma findIn_results (t : string) (elements : list Entry) :
  forall rs,
    findIn localeCompare elements t = Ok rs ->
    Forall2 (result_of t) (filter (retained (escaped_RegExp_i t)) elements) rs.
Proof.
  unfold findIn. induction elements as [|e elements IH]; intros rs H.
  - simpl in H. injection H as <-. constructor.
  - cbn [map_filter] in H.
    destruct (findIn_element localeCompare (escaped_RegExp_i t) t e)
      as [r|] eqn:Er; [|discriminate].
    cbn [bind] in H.
    destruct (map_filter localeCompare (escaped_RegExp_i t) t elements)
      as [rs'|]; [|discriminate].
    cbn [bind] in H. injection H as <-.
    apply findIn_element_result in Er. cbn [filter].
    destruct r as [x|].
    + destruct Er as [-> Hx]. constructor; auto.
    + rewrite Er. auto.
Qed.
End Collation.

End GroupFacts.

Module ItemFacts.
Import Str StrFacts MatchFacts SearchFacts NodeFacts GroupFacts.

Lemma Forall2_In_r {A B} (R : A -> B -> Prop) (l1 : list A) (l2 : list B)
    (y : B) :
  Forall2 R l1 l2 -> In y l2 -> exists x, In x l1 /\ R x y.
Proof.
  induction 1 as [|a b l1 l2 Hab _ IH]; intros Hin; [destruct Hin|].
  destruct Hin as [<- | Hin].
  - exists a. split; [now left | exact Hab].
  - destruct (IH Hin) as (x & Hx & Hxy). exists x. split; [now right | exact Hxy].
Qed.

Lemma Forall2_In_l {A B} (R : A -> B -> Prop) (l1 : list A) (l2 : list B)
    (x : A) :
  Forall2 R l1 l2 -> In x l1 -> exists y, In y l2 /\ R x y.
Proof.
  induction 1 as [|a b l1 l2 Hab _ IH]; intros Hin; [destruct Hin|].
  destruct Hin as [<- | Hin].
  - exists b. split; [now left | exact Hab].
  - destruct (IH Hin) as (y & Hy & Hxy). exists y. split; [now right | exact Hxy].
Qed.

Lemma In_firstn {A} (n : nat) (l : list A) (x : A) :
  In x (firstn n l) -> In x l.
Proof.
  revert l. induction n as [|n IH]; intros l H; [destruct H|].
  destruct l as [|a l]; [destruct H|].
  destruct H as [H | H]; [now left | right; auto].
Qed.

Lemma option_string_eqb_false (a b : option string) :
  option_string_eqb a b = false <-> a <> b.
Proof.
  destruct a as [x|], b as [y|]; simpl; split; intros H; try congruence;
    try discriminate.
  - apply String.eqb_neq in H. congruence.
  - apply String.eqb_neq. congruence.
Qed.

Lemma isMatch_iff (item : Item) :
  isMatch item = true <-> item_match item <> Some (item_id item).
Proof.
  unfold isMatch. rewrite negb_true_iff. apply option_string_eqb_false.
Qed.

Lemma and_match_title (x : option string) (matcher : RegExp) (m : Match) :
  and_match x matcher = Some m ->
  exists s, x = Some s /\ str_match s matcher = Some m.
Proof.
  unfold and_match. destruct x as [s|]; [|discriminate].
  destruct (String.eqb s ""); [discriminate|]. eauto.
Qed.

Lemma serialize_child (v : Node) (moduleId : string) :
  serialize (Item_of_Node v) moduleId true
  = {| link := if truthy (node_anchor v)
               then moduleId ++ ".html#" ++ ToString (node_anchor v)
               else moduleId ++ ".html";
       title := node_match v;
       description := Some moduleId;
       label := if truthy (node_label v) then node_label v else None;
       category := Some Child |}.
Proof.
  unfold serialize. simpl. f_equal.
  destruct (node_anchor v) as [a|]; simpl; [|reflexivity].
  now destruct (String.eqb a "").
Qed.

Lemma parse_item (t : string) (c : Category) (e : Entry) (x : ModuleResults)
    (item : SuggestionItem) :
  result_of t e x ->
  In item (parseModuleResults (with_category c x)) ->
  (entry_item c e item /\ entry_title_shown t e item
   /\ item = serialize (Item_of_ModuleResults (with_category c x))
               (entry_id e) false)
  \/ (child_item e item
      /\ exists g n, In g (entry_nodeGroups e) /\ In n (snd g)
                     /\ shown_highlight t (node_id n) (title item)).
Proof.
  intros (Hid & _ & Hm & Hslots) Hin.
  rewrite SortFacts.parseModuleResults_order in Hin.
  apply in_app_or in Hin as [Hin | Hin].
  - left. destruct (isMatch _) eqn:E; [|destruct Hin].
    destruct Hin as [<- | []]. apply isMatch_iff in E. simpl in E.
    cbn [with_category res_id]. rewrite Hid. split; [|split; [|reflexivity]].
    + repeat split.
    + unfold entry_title_shown. cbn [serialize title item_match
                                      Item_of_ModuleResults with_category
                                      res_match].
      destruct Hm as [[Hn Hx] | (m & hl & Ha & Hh & Hx)].
      * right. rewrite Hx in *. rewrite Hid in E. auto.
      * left. apply and_match_title in Ha as (s & Hs & Hsm).
        exists s. split; [exact Hs|]. rewrite Hx.
        exists m, hl. auto.
  - right. apply in_map_iff in Hin as (v & <- & Hv).
    apply filter_In in Hv as [Hv E]. apply isMatch_iff in E. simpl in E.
    cbn [with_category res_id res_functions res_callbacks res_types] in *.
    rewrite serialize_child, Hid.
    assert (Hcase : exists v0 slot,
               In v0 (res_get x slot)
               /\ node_id v = node_id v0 /\ node_anchor v = node_anchor v0
               /\ node_match v = node_match v0
               /\ (if truthy (node_label v) then node_label v else None)
                  = match slot with
                    | types => Some "type"
                    | callbacks => Some "callback"
                    | _ => if truthy (node_label v0) then node_label v0
                           else None
                    end
               /\ slot <> other).
    { apply in_app_or in Hv as [Hv | Hv].
      - exists v, functions. repeat split; auto. discriminate.
      - apply in_app_or in Hv as [Hv | Hv];
          apply in_map_iff in Hv as (v0 & <- & Hv0).
        + exists v0, callbacks. repeat split; auto. discriminate.
        + exists v0, types. repeat split; auto. discriminate. }
    destruct Hcase as (v0 & slot & Hv0 & E1 & E2 & E3 & E4 & Hslot).
    destruct (Hslots slot) as [_ Hfrom].
    destruct (Hfrom v0 Hv0)
      as (key & nodes & n & Hg & Hs & Hn & Hinh & P1 & P2 & P3 & P4).
    rewrite E1, E3 in E. rewrite E2, E3, E4.
    split.
    + exists key, nodes, n. rewrite Hs, P2, P3.
      repeat split; auto; now destruct slot.
    + exists (key, nodes), n. split; [exact Hg|]. split; [exact Hn|].
      destruct P4 as [P4 | P4]; [|exact P4].
      rewrite P4, P1 in E. congruence.
Qed.

Lemma addCategory_with (c : Category) (l : list ModuleResults) :
  addCategory l c = map (with_category c) l.
Proof. reflexivity. Qed.

Section Collation.
Variable localeCompare : string -> string -> Z.

(** What [getSuggestions] returns is taken from the flattened results
    of the three groups. *)
Lemma out_from_groups (i : SidebarNodes) (term : string)
    (out : list SuggestionItem) (item : SuggestionItem) :
  getSuggestions localeCompare i term = Ok out -> In item out ->
  exists c l e x,
    ((c = Module_ /\ l = modules i) \/ (c = Exception /\ l = exceptions i)
     \/ (c = Mix_Task /\ l = tasks i))
    /\ In e l /\ result_of term e x
    /\ In item (parseModuleResults (with_category c x)).
Proof.
  unfold getSuggestions. intros H Hin.
  destruct (Nat.eqb _ 0); [injection H as <-; destruct Hin|].
  destruct (flattened_total localeCompare i term)
    as (ms & es & ts & Hm & He & Ht & Hflat).
  rewrite Hflat in H. cbn [bind] in H. injection H as <-.
  apply (In_firstn resultsCount) in Hin.
  apply (Permutation_in _ (Permutation_sym
                             (SortFacts.sort_Permutation _ _))) in Hin.
  apply in_flat_map in Hin as (x' & Hx' & Hitem).
  rewrite !addCategory_with in Hx'.
  assert (Hfind : forall c l rs,
             findIn localeCompare l term = Ok rs ->
             In x' (map (with_category c) rs) ->
             exists e x, In e l /\ result_of term e x
                         /\ In item (parseModuleResults (with_category c x))).
  { intros c l rs Hrs Hmap. apply in_map_iff in Hmap as (x & <- & Hx).
    destruct (Forall2_In_r _ _ _ _ (findIn_results localeCompare _ _ _ Hrs) Hx)
      as (e & He' & Hr).
    apply filter_In in He' as [He' _]. now exists e, x. }
  apply in_app_or in Hx' as [Hx' | Hx'];
    [|apply in_app_or in Hx' as [Hx' | Hx']].
  - destruct (Hfind _ _ _ Hm Hx') as (e & x & H1 & H2 & H3).
    exists Module_, (modules i), e, x. auto.
  - destruct (Hfind _ _ _ He Hx') as (e & x & H1 & H2 & H3).
    exists Exception, (exceptions i), e, x. auto 6.
  - destruct (Hfind _ _ _ Ht Hx') as (e & x & H1 & H2 & H3).
    exists Mix_Task, (tasks i), e, x. auto 6.
Qed.
End Collation.

End ItemFacts.

Module SlotFacts.
Import Str StrFacts MatchFacts SearchFacts NodeFacts GroupFacts ItemFacts.

Section Collation.
Variable localeCompare : string -> string -> Z.

Lemma findIn_groups_app (gs1 gs2 : list (Key * list Node))
    (title : option string) (matcher : RegExp) (term : string) :
  forall f b,
    findIn_groups (gs1 ++ gs2) title matcher term f b
    = (rh <- findIn_groups gs1 title matcher term f b ;;
       findIn_groups gs2 title matcher term (fst rh) (snd rh)).
Proof.
  induction gs1 as [|[key nodes] gs1 IH]; intros f b; [reflexivity|].
  cbn [app findIn_groups].
  destruct (findNested nodes title matcher term (found_get f key)) as [o|];
    [|reflexivity].
  cbn [bind]. destruct (Obj.nonEmpty o); apply IH.
Qed.

(** What the [functions] property holds after the loop: what it held
    before, or copies of nodes of the groups stored under it. *)
Lemma findIn_groups_functions (t : string) (title : option string)
    (gs : list (Key * list Node)) :
  forall f b f' b',
    findIn_groups gs title (escaped_RegExp_i t) t f b
    = Ok (f', b') ->
    forall o' kv,
      found_functions f' = Some o' -> In kv o' ->
      (exists o, found_functions f = Some o /\ In kv o)
      \/ from_groups t gs functions (snd kv).
Proof.
  induction gs as [|[key nodes] gs IH]; intros f b f' b' H o' kv Ho' Hin.
  - injection H as <- <-. left. eauto.
  - cbn [findIn_groups] in H. unfold findNested in H.
    destruct (findNested_from nodes title (escaped_RegExp_i t) t _)
      as [o|] eqn:En; [|discriminate].
    cbn [bind] in H.
    destruct (findNested_from_produced t title nodes t _ _ eq_refl En)
      as (_ & Hfrom & _).
    assert (Hweak : forall v, from_groups t gs functions v ->
                              from_groups t ((key, nodes) :: gs) functions v).
    { intros v (k & ns & n & Hg & Hrest). exists k, ns, n.
      split; [now right | exact Hrest]. }
    destruct (Obj.nonEmpty o).
    + destruct (IH _ _ _ _ H _ _ Ho' Hin) as [(o1 & Ho1 & Hin1) | Hg];
        [|right; auto].
      destruct (slot_of key) eqn:Es.
      * assert (o1 = o) by (destruct key; simpl in *; congruence). subst o1.
        destruct (Hfrom _ Hin1) as [Hold | (n & Hn & Hk & Hi & Hp)].
        -- left. destruct key; try discriminate; simpl in Hold.
           ++ destruct (found_functions f) as [o0|]; [eauto | destruct Hold].
           ++ destruct Hold.
        -- right. exists key, nodes, n. split; [now left|]. auto.
      * left. exists o1. split; [|exact Hin1].
        destruct key; try discriminate. exact Ho1.
      * left. exists o1. split; [|exact Hin1].
        destruct key; try discriminate. exact Ho1.
      * destruct key; discriminate.
    + destruct (IH _ _ _ _ H _ _ Ho' Hin) as [Hold | Hg]; auto.
Qed.

(** A group under a custom key starts from an empty object and is
    assigned to [functions]. *)
Lemma findIn_groups_other (t : string) (title : option string)
    (nodes : list Node) (gs : list (Key * list Node)) :
  existsb (fun n => negb (inherited (node_id n))) nodes = true ->
  forall f b f' b',
    findIn_groups ((other, nodes) :: gs) title
      (escaped_RegExp_i t) t f b = Ok (f', b') ->
    forall o' kv,
      found_functions f' = Some o' -> In kv o' ->
      from_groups t ((other, nodes) :: gs) functions (snd kv).
Proof.
  intros Hex f b f' b' H o' kv Ho' Hin.
  cbn [findIn_groups] in H. unfold findNested in H. cbn [found_get] in H.
  destruct (findNested_from nodes title (escaped_RegExp_i t) t [])
    as [o|] eqn:En; [|discriminate].
  cbn [bind] in H.
  rewrite (findNested_from_grows _ _ _ _ _ _ En (or_intror Hex)) in H.
  destruct (findNested_from_produced t title nodes t _ _ eq_refl En)
    as (_ & Hfrom & _).
  destruct (findIn_groups_functions _ _ _ _ _ _ _ H _ _ Ho' Hin)
    as [(o1 & Ho1 & Hin1) | (k & ns & n & Hg & Hrest)].
  - simpl in Ho1. injection Ho1 as <-.
    destruct (Hfrom _ Hin1) as [[] | (n & Hn & Hk & Hi & Hp)].
    exists other, nodes, n. split; [now left|]. auto.
  - exists k, ns, n. split; [now right | exact Hrest].
Qed.

(** The arrays of a result are the sorted values of what the loop
    stored. *)
Lemma findIn_element_arrays (matcher : RegExp) (term : string) (e : Entry)
    (x : ModuleResults) :
  findIn_element localeCompare matcher term e = Ok (Some x) ->
  exists mt f' b,
    findIn_groups (entry_nodeGroups e) (entry_title e) matcher
      term
      {| found_id := entry_id e; found_match := mt;
         found_functions := None; found_callbacks := None;
         found_types := None |} b = Ok (f', true)
    /\ res_functions x
       = option_map (sortNodes localeCompare) (found_functions f')
    /\ res_callbacks x
       = option_map (sortNodes localeCompare) (found_callbacks f')
    /\ res_types x = option_map (sortNodes localeCompare) (found_types f').
Proof.
  unfold findIn_element. intros H.
  destruct (if isSome (and_match (entry_title e) matcher)
            then m <- highlight (and_match (entry_title e) matcher) ;;
                 Ok (Some m)
            else Ok (entry_title e)) as [mt|]; [|discriminate].
  cbn [bind] in H.
  match type of H with
  | context [findIn_groups ?g ?tt ?mm ?tm ?f ?b] =>
      destruct (findIn_groups g tt mm tm f b) as [[f' b']|] eqn:Eg;
        [|discriminate]
  end.
  cbn [bind] in H. destruct b'; [|discriminate]. injection H as <-.
  eexists mt, f', _. split; [exact Eg|]. repeat split.
Qed.

Lemma In_sortNodes (o : Obj.t Node) (v : Node) :
  In v (sortNodes localeCompare o) -> exists kv, In kv o /\ snd kv = v.
Proof.
  intros Hv.
  apply (Permutation_in _ (Permutation_sym (SortFacts.sort_Permutation _ _)))
    in Hv.
  apply in_map_iff in Hv as (kv & <- & Hin). eauto.
Qed.

Hypothesis localeCompare_total :
  forall x y, (0 < localeCompare x y)%Z -> (localeCompare y x <= 0)%Z.
Hypothesis localeCompare_trans :
  forall x y z,
    (localeCompare x y <= 0)%Z -> (localeCompare y z <= 0)%Z ->
    (localeCompare x z <= 0)%Z.

Lemma sortNodes_sorted (o : option (Obj.t Node)) :
  sorted_by_id localeCompare (or_empty (option_map (sortNodes localeCompare) o)).
Proof.
  destruct o as [o|]; [|constructor]. simpl. unfold sortNodes, sorted_by_id.
  apply (SortFacts.sort_StronglySorted
           (fun a b => localeCompare (node_id a) (node_id b))).
  - intros a b. apply localeCompare_total.
  - intros a b c. apply localeCompare_trans.
Qed.
End Collation.

Lemma findIn_In (localeCompare : string -> string -> Z)
    (elements : list Entry) (t : string) :
  forall rs r,
    findIn localeCompare elements t = Ok rs -> In r rs ->
    exists e, In e elements
              /\ findIn_element localeCompare (escaped_RegExp_i t) t e
                 = Ok (Some r).
Proof.
  unfold findIn. induction elements as [|e elements IH]; intros rs r H Hin.
  - injection H as <-. destruct Hin.
  - cbn [map_filter] in H.
    destruct (findIn_element localeCompare (escaped_RegExp_i t) t e)
      as [x|] eqn:Er; [|discriminate].
    cbn [bind] in H.
    destruct (map_filter localeCompare (escaped_RegExp_i t) t elements)
      as [rs'|]; [|discriminate].
    cbn [bind] in H. injection H as <-.
    destruct x as [x|].
    + destruct Hin as [<- | Hin]; [exists e; split; [now left | exact Er]|].
      destruct (IH _ _ eq_refl Hin) as (e' & He' & Hr).
      exists e'. split; [now right | exact Hr].
    + destruct (IH _ _ eq_refl Hin) as (e' & He' & Hr).
      exists e'. split; [now right | exact Hr].
Qed.

End SlotFacts.

Module ForwardFacts.
Import Str StrFacts MatchFacts SearchFacts NodeFacts GroupFacts ItemFacts.
Import SlotFacts.

Lemma Key_eq_dec (a b : Key) : {a = b} + {a <> b}.
Proof. decide equality. Qed.

Lemma truthy_absent {A} (o : Obj.t A) (k : string) :
  ~ In k (map fst o) -> inherited k = false -> Obj.truthy o k = false.
Proof.
  intros Hk Hi. unfold Obj.truthy. fold (inherited k). rewrite Hi.
  destruct (Obj.hasOwn o k) eqn:E; [|reflexivity].
  apply hasOwn_keys in E. contradiction.
Qed.

Lemma set_keys {A} (o : Obj.t A) (k k' : string) (v : A) :
  Obj.hasOwn o k' = false ->
  In k (map fst (Obj.set o k' v)) -> k = k' \/ In k (map fst o).
Proof.
  intros Hh Hin.
  apply (Permutation_in _ (Permutation_map fst (set_Permutation o k' v Hh)))
    in Hin.
  destruct Hin as [<- | Hin]; auto.
Qed.

Lemma set_In {A} (o : Obj.t A) (k : string) (v : A) :
  Obj.hasOwn o k = false -> In (k, v) (Obj.set o k v).
Proof.
  intros Hh.
  apply (Permutation_in _ (Permutation_sym (set_Permutation o k v Hh))).
  now left.
Qed.

(** The first node of an id that the matcher matches is recorded with
    the highlight of that match. *)
Lemma findNested_from_match (t : string) (p : option string) (n : Node)
    (ns2 : list Node) (m : Match) (hl : string) :
  inherited (node_id n) = false ->
  and_match (Some (node_id n)) (escaped_RegExp_i t) = Some m ->
  highlight (Some m) = Ok hl ->
  forall ns1 term acc acc',
    term_of (escaped_RegExp_i t) term ->
    ~ In (node_id n) (map fst acc) ->
    ~ In (node_id n) (map node_id ns1) ->
    findNested_from (ns1 ++ n :: ns2) p (escaped_RegExp_i t) term acc
    = Ok acc' ->
    In (node_id n, set_match (JSON_copy n) hl) acc'.
Proof.
  intros Hi Hm Hh. induction ns1 as [|a ns1 IH];
    intros term acc acc' Ht Hacc Hns H.
  - cbn [app] in H. rewrite findNested_from_cons in H.
    rewrite (truthy_absent _ _ Hacc Hi), Hm in H. cbn [isSome] in H.
    rewrite Hh in H. cbn [bind] in H.
    destruct (findNested_from_produced t p ns2 term _ _ Ht H) as (Hkeep & _).
    apply Hkeep, set_In.
    destruct (Obj.hasOwn acc (node_id n)) eqn:E; [|reflexivity].
    apply hasOwn_keys in E. contradiction.
  - cbn [app] in H. rewrite findNested_from_cons in H.
    assert (Hne : node_id n <> node_id a) by (intros E; apply Hns; now left).
    assert (Hns' : ~ In (node_id n) (map node_id ns1))
      by (intros E; apply Hns; now right).
    destruct (Obj.truthy acc (node_id a)) eqn:Et; [now apply (IH term acc)|].
    apply truthy_false in Et as (Hown & _ & _).
    assert (Hacc' : forall v,
               ~ In (node_id n) (map fst (Obj.set acc (node_id a) v))).
    { intros v Hin. apply set_keys in Hin as [E | Hin]; auto. }
    destruct (isSome (and_match (Some (node_id a)) (escaped_RegExp_i t)))
      eqn:Em.
    + destruct (highlight (and_match (Some (node_id a)) _)) as [h|];
        [|discriminate].
      cbn [bind] in H. exact (IH term _ _ Ht (Hacc' _) Hns' H).
    + destruct (negb _ && _).
      * destruct (highlight (and_match (Some (node_id a)) _)) as [h|];
          [|discriminate].
        cbn [bind] in H.
        exact (IH _ _ _ (term_of_pop _ _ Ht) (Hacc' _) Hns' H).
      * exact (IH term _ _ Ht (Hacc' _) Hns' H).
Qed.

(** The keys that the loop has stored are ids of nodes of the groups
    it has gone through. *)
Lemma found_inv_keys (t : string) (gs : list (Key * list Node)) (f : Found)
    (b : bool) (slot : Key) (o : Obj.t Node) (k : string) :
  found_inv t gs f b -> found_get f slot = Some o -> In k (map fst o) ->
  In k (map node_id (flat_map snd gs)).
Proof.
  intros Hinv Hget Hk. apply in_map_iff in Hk as (kv & <- & Hkv).
  destruct (Hinv _ _ Hget) as (_ & _ & _ & Hall).
  destruct (Hall _ Hkv) as (-> & key & nodes & n & Hg & _ & Hn & _ & Hid & _).
  rewrite Hid. apply in_map. apply in_flat_map. exists (key, nodes). auto.
Qed.

(** What is stored under [slot] stays there through the groups that
    follow, unless a group under a custom key replaces [functions]. *)
Lemma findIn_groups_keeps_slot (t : string) (title : option string) (slot : Key)
    (kv : string * Node) (gs : list (Key * list Node)) :
  (slot = functions ->
   Forall (fun g => fst g = other -> group_has_node g = false) gs) ->
  forall f f' b' o,
    found_get f slot = Some o -> In kv o ->
    findIn_groups gs title (escaped_RegExp_i t) t f true = Ok (f', b') ->
    b' = true /\ exists o', found_get f' slot = Some o' /\ In kv o'.
Proof.
  induction gs as [|[key nodes] gs IH]; intros Hno f f' b' o Hget Hin H.
  - injection H as <- <-. split; [reflexivity | eauto].
  - cbn [findIn_groups] in H. unfold findNested in H.
    destruct (findNested_from nodes title (escaped_RegExp_i t) t _)
      as [matches|] eqn:En; [|discriminate].
    cbn [bind] in H.
    assert (Hno' : slot = functions ->
                   Forall (fun g => fst g = other -> group_has_node g = false)
                     gs).
    { intros E. specialize (Hno E). now inversion Hno. }
    destruct (Obj.nonEmpty matches) eqn:Ene;
      [|exact (IH Hno' _ _ _ _ Hget Hin H)].
    destruct (findNested_from_produced t title nodes t _ _ (term_of_escaped t)
                En) as (Hkeep & _).
    assert (Hslot : slot <> other) by (destruct slot; discriminate).
    destruct (Key_eq_dec key slot) as [-> | Hk].
    + rewrite Hget in Hkeep.
      refine (IH Hno' _ _ _ matches _ (Hkeep _ Hin) H).
      rewrite found_get_store. destruct slot; try reflexivity. contradiction.
    + destruct (Key_eq_dec (slot_of key) slot) as [Es | Hs].
      * assert (key = other /\ slot = functions) as [-> ->]
          by (destruct key, slot; simpl in *; split; congruence).
        specialize (Hno eq_refl). inversion Hno as [|? ? Hg _]; subst.
        specialize (Hg eq_refl). unfold group_has_node in Hg. cbn [snd] in Hg.
        cbn [found_get] in En.
        destruct (findNested_from_nonEmpty _ _ _ _ _ _ En Ene) as [E | E];
          [discriminate | congruence].
      * refine (IH Hno' _ _ _ o _ Hin H).
        rewrite found_get_store.
        destruct key, slot; simpl in *; try congruence.
Qed.

End ForwardFacts.

Module ListedFacts.
Import Str StrFacts MatchFacts SearchFacts NodeFacts GroupFacts ItemFacts.
Import SlotFacts ForwardFacts.

Section Collation.
Variable localeCompare : string -> string -> Z.

(** An item of a result of one of the three groups is among the
    flattened results. *)
Lemma flattened_In (sidebarNodes : SidebarNodes) (term : string)
    (c : Category) (e : Entry) (item : SuggestionItem) :
  (c = Module_ /\ In e (modules sidebarNodes))
  \/ (c = Exception /\ In e (exceptions sidebarNodes))
  \/ (c = Mix_Task /\ In e (tasks sidebarNodes)) ->
  (forall l rs, In e l -> findIn localeCompare l term = Ok rs ->
                exists x, In x rs
                          /\ In item (parseModuleResults (with_category c x))) ->
  exists results,
    flattened localeCompare sidebarNodes term = Ok results
    /\ In item results.
Proof.
  intros Hc Hparse.
  destruct (flattened_total localeCompare sidebarNodes term)
    as (ms & es & ts & Hms & Hes & Hts & Hflat).
  eexists. split; [exact Hflat|]. apply in_flat_map.
  destruct Hc as [[-> He] | [[-> He] | [-> He]]].
  - destruct (Hparse _ _ He Hms) as (x & Hx & Hi).
    eexists. split; [|exact Hi]. rewrite !in_app_iff. left.
    rewrite addCategory_with. now apply in_map.
  - destruct (Hparse _ _ He Hes) as (x & Hx & Hi).
    eexists. split; [|exact Hi]. rewrite !in_app_iff. right. left.
    rewrite addCategory_with. now apply in_map.
  - destruct (Hparse _ _ He Hts) as (x & Hx & Hi).
    eexists. split; [|exact Hi]. rewrite !in_app_iff. right. right.
    rewrite addCategory_with. now apply in_map.
Qed.

(** When the term is not blank and there are at most [resultsCount]
    results, all of them are returned. *)
Lemma getSuggestions_short (sidebarNodes : SidebarNodes) (term : string)
    (results : list SuggestionItem) (item : SuggestionItem) :
  flattened localeCompare sidebarNodes term = Ok results ->
  In item results ->
  Str.trim term <> "" ->
  List.length results <= resultsCount ->
  exists out, getSuggestions localeCompare sidebarNodes term = Ok out
              /\ In item out.
Proof.
  intros Hflat Hin Hblank Hlen. unfold getSuggestions.
  destruct (Nat.eqb (String.length (Str.trim term)) 0) eqn:E.
  { apply Nat.eqb_eq in E. destruct (Str.trim term); [contradiction|].
    discriminate. }
  rewrite Hflat. cbn [bind]. eexists. split; [reflexivity|].
  unfold Arr.slice0. rewrite firstn_all2.
  - apply (Permutation_in _ (SortFacts.sort_Permutation _ _)). exact Hin.
  - rewrite <- (Permutation_length (SortFacts.sort_Permutation _ _)).
    exact Hlen.
Qed.

(** The first node of its id in an entry, when the term matches its id,
    is in the array of its slot with the highlight as match. *)
Lemma findIn_element_records_match (t : string) (e : Entry)
    (before after : list (Key * list Node)) (key : Key)
    (ns1 ns2 : list Node) (n : Node) (m : Match) (hl : string) :
  entry_nodeGroups e = (before ++ (key, ns1 ++ n :: ns2) :: after)%list ->
  ~ In (node_id n) (map node_id (flat_map snd before ++ ns1)) ->
  inherited (node_id n) = false ->
  (slot_of key = functions ->
   Forall (fun g => fst g = other -> group_has_node g = false) after) ->
  and_match (Some (node_id n)) (escaped_RegExp_i t) = Some m ->
  highlight (Some m) = Ok hl ->
  exists x,
    findIn_element localeCompare (escaped_RegExp_i t) t e = Ok (Some x)
    /\ In (set_match (JSON_copy n) hl) (res_get x (slot_of key)).
Proof.
  intros Hgs Hfirst Hi Hno Hm Hh.
  destruct (findIn_total localeCompare [e] t) as (rs & Hrs).
  unfold findIn in Hrs. cbn [map_filter] in Hrs.
  destruct (findIn_element localeCompare (escaped_RegExp_i t) t e)
    as [r|] eqn:Er; [|discriminate].
  clear Hrs. revert Er. unfold findIn_element.
  destruct (if isSome (and_match (entry_title e) (escaped_RegExp_i t))
            then m <- highlight (and_match (entry_title e)
                                   (escaped_RegExp_i t)) ;;
                 Ok (Some m)
            else Ok (entry_title e)) as [mt|]; [|discriminate].
  cbn [bind]. rewrite Hgs, findIn_groups_app.
  set (f0 := {| found_id := entry_id e; found_match := mt;
                found_functions := None; found_callbacks := None;
                found_types := None |}).
  assert (Hinit : forall b, found_inv t before f0 b)
    by (intros b slot o Hget; destruct slot; discriminate).
  destruct (findIn_groups before _ _ _ f0 _) as [[f1 b1]|] eqn:E1;
    [|discriminate].
  destruct (findIn_groups_inv t _ _ _ (incl_refl _) _ _ _ _ (Hinit _) E1)
    as (Hinv & _).
  cbn [bind fst snd findIn_groups]. unfold findNested.
  destruct (findNested_from (ns1 ++ n :: ns2) _ _ _ _) as [o|] eqn:En;
    [|discriminate].
  assert (Hkv : In (node_id n, set_match (JSON_copy n) hl) o).
  { refine (findNested_from_match t _ n ns2 m hl Hi Hm Hh ns1 t _ o
              (term_of_escaped t) _ _ En).
    - intros Hk. apply Hfirst. rewrite map_app. apply in_or_app. left.
      destruct (found_get f1 key) as [o1|] eqn:Eg; [|destruct Hk].
      exact (found_inv_keys _ _ _ _ _ _ _ Hinv Eg Hk).
    - intros Hk. apply Hfirst. rewrite map_app. apply in_or_app. now right. }
  cbn [bind]. destruct (Obj.nonEmpty o) eqn:Ene;
    [|destruct o; [destruct Hkv | discriminate]].
  intros Er.
  destruct (findIn_groups after _ _ _ _ true) as [[f' b']|] eqn:E2;
    [|discriminate].
  assert (Hslot : found_get (found_store f1 key o) (slot_of key) = Some o)
    by (rewrite found_get_store; now destruct key).
  assert (Hno' : slot_of key = functions ->
                 Forall (fun g => fst g = other -> group_has_node g = false)
                   after) by exact Hno.
  destruct (findIn_groups_keeps_slot t _ (slot_of key) _ after Hno' _ _ _ _
              Hslot Hkv E2) as (-> & o' & Ho' & Hin').
  cbn [bind] in Er. injection Er as <-. eexists. split; [reflexivity|].
  assert (Hs : forall oo, In (node_id n, set_match (JSON_copy n) hl) oo ->
                          In (set_match (JSON_copy n) hl)
                            (sortNodes localeCompare oo)).
  { intros oo Hoo.
    apply (Permutation_in _ (SortFacts.sort_Permutation _ _)).
    apply (in_map snd) in Hoo. exact Hoo. }
  destruct key; cbn [slot_of res_get res_functions res_callbacks res_types
                       found_get] in *; rewrite Ho'; simpl; now apply Hs.
Qed.
End Collation.

End ListedFacts.

(** ** What [getSuggestions] returns *)

(** X3. Every item that [getSuggestions] returns is built from an entry
    of the index: the item of a module, an exception or a task, with the
    link [id.html], no description, no label and the category of its
    group, or the item of a node of an entry, of category Child, with
    the id of the entry as description, the anchor of the node in the
    link, and the label callback, type or that of the node. *)
Theorem returned_items_are_built_from_the_index
    (localeCompare : string -> string -> Z) (sidebarNodes : SidebarNodes)
    (term : string) (out : list SuggestionItem) (item : SuggestionItem) :
  getSuggestions localeCompare sidebarNodes term = Ok out ->
  In item out ->
  (exists e, In e (modules sidebarNodes) /\ entry_item Module_ e item)
  \/ (exists e, In e (exceptions sidebarNodes) /\ entry_item Exception e item)
  \/ (exists e, In e (tasks sidebarNodes) /\ entry_item Mix_Task e item)
  \/ (exists e, In e (all_entries sidebarNodes) /\ child_item e item).
Proof.
  intros H Hin.
  destruct (ItemFacts.out_from_groups _ _ _ _ _ H Hin)
    as (c & l & e & x & Hc & He & Hr & Hitem).
  destruct (ItemFacts.parse_item _ _ _ _ _ Hr Hitem)
    as [(Hentry & _) | (Hchild & _)].
  - destruct Hc as [[-> ->] | [[-> ->] | [-> ->]]]; eauto 6.
  - do 3 right. exists e. split; [|exact Hchild].
    unfold all_entries.
    destruct Hc as [[_ ->] | [[_ ->] | [_ ->]]]; rewrite !in_app_iff; auto.
Qed.

Lemma returned_items_are_built_from_the_index_witness :
  (exists e, In e (modules Foo_bar) /\ entry_item Module_ e bar_item)
  \/ (exists e, In e (exceptions Foo_bar) /\ entry_item Exception e bar_item)
  \/ (exists e, In e (tasks Foo_bar) /\ entry_item Mix_Task e bar_item)
  \/ (exists e, In e (all_entries Foo_bar) /\ child_item e bar_item).
Proof.
  apply (returned_items_are_built_from_the_index codeUnitCompare Foo_bar
           "bar" [bar_item] bar_item).
  - vm_compute. reflexivity.
  - simpl. left. reflexivity.
Defined.

(** X4. The title of a returned item: for a Child item, the highlight
    of a match of the term, or of its last dot-separated segment, in the
    id of a node; for the item of an entry, the highlight of a match in
    the title of the entry, or the title of an entry that the term does
    not match and whose title is not its id. *)
Theorem returned_titles_are_highlights_or_titles
    (localeCompare : string -> string -> Z) (sidebarNodes : SidebarNodes)
    (term : string) (out : list SuggestionItem) (item : SuggestionItem) :
  getSuggestions localeCompare sidebarNodes term = Ok out ->
  In item out ->
  exists e,
    In e (all_entries sidebarNodes)
    /\ ((category item = Some Child
         /\ exists g n, In g (entry_nodeGroups e) /\ In n (snd g)
                        /\ shown_highlight term (node_id n) (title item))
        \/ (category item <> Some Child /\ entry_title_shown term e item)).
Proof.
  intros H Hin.
  destruct (ItemFacts.out_from_groups _ _ _ _ _ H Hin)
    as (c & l & e & x & Hc & He & Hr & Hitem).
  exists e. split.
  { unfold all_entries.
    destruct Hc as [[_ ->] | [[_ ->] | [_ ->]]]; rewrite !in_app_iff; auto. }
  destruct (ItemFacts.parse_item _ _ _ _ _ Hr Hitem)
    as [((_ & _ & _ & Hcat) & Hshown & _) | (Hchild & Hn)].
  - right. split; [|exact Hshown]. rewrite Hcat.
    destruct Hc as [[-> _] | [[-> _] | [-> _]]]; discriminate.
  - left. split; [|exact Hn].
    destruct Hchild as (k & ns & n & _ & _ & Hcat & _). exact Hcat.
Qed.

Lemma returned_titles_are_highlights_or_titles_witness :
  exists e,
    In e (all_entries Foo_bar)
    /\ ((category bar_item = Some Child
         /\ exists g n, In g (entry_nodeGroups e) /\ In n (snd g)
                        /\ shown_highlight "bar" (node_id n) (title bar_item))
        \/ (category bar_item <> Some Child
            /\ entry_title_shown "bar" e bar_item)).
Proof.
  apply (returned_titles_are_highlights_or_titles codeUnitCompare Foo_bar
           "bar" [bar_item] bar_item).
  - vm_compute. reflexivity.
  - simpl. left. reflexivity.
Defined.

(** ** What [findIn] returns *)




(** X7. A group under a key other than functions, callbacks and types
    that has a node to record replaces what [functions] held: the
    functions of the result are copies of nodes of that group and of
    the groups after it only. *)
Theorem custom_group_replaces_functions
    (localeCompare : string -> string -> Z) (term : string) (e : Entry)
    (before after : list (Key * list Node)) (nodes : list Node)
    (x : ModuleResults) (v : Node) :
  entry_nodeGroups e = (before ++ (other, nodes) :: after)%list ->
  existsb (fun n => negb (inherited (node_id n))) nodes = true ->
  findIn_element localeCompare (escaped_RegExp_i term) term e = Ok (Some x) ->
  In v (or_empty (res_functions x)) ->
  from_groups term ((other, nodes) :: after) functions v.
Proof.
  intros Hgs Hex H Hv.
  destruct (SlotFacts.findIn_element_arrays _ _ _ _ _ H)
    as (mt & f' & b & Hrun & Hf & _).
  rewrite Hgs, SlotFacts.findIn_groups_app in Hrun.
  destruct (findIn_groups before _ _ _ _ _) as [[f1 b1]|]; [|discriminate].
  cbn [bind fst snd] in Hrun. rewrite Hf in Hv.
  destruct (found_functions f') as [o'|] eqn:Eo; [|destruct Hv].
  apply SlotFacts.In_sortNodes in Hv as (kv & Hkv & <-).
  exact (SlotFacts.findIn_groups_other _ _ _ _ Hex _ _ _ _ Hrun _ _ Eo Hkv).
Qed.

Lemma custom_group_replaces_functions_witness :
  from_groups "a"
    [(other, [mkNode "is_baz" (Some "is_baz/1")])] functions
    (set_match (mkNode "is_baz" (Some "is_baz/1")) "is_b<em>a</em>z").
Proof.
  apply (custom_group_replaces_functions codeUnitCompare "a" Foo_guards
           [(functions, [mkNode "bar" (Some "bar/1")])] []
           [mkNode "is_baz" (Some "is_baz/1")]
           {| res_id := "Foo"; res_match := Some "Foo";
              res_functions :=
                Some [set_match (mkNode "is_baz" (Some "is_baz/1"))
                        "is_b<em>a</em>z"];
              res_callbacks := None; res_types := None;
              res_category := None |}).
  - reflexivity.
  - reflexivity.
  - vm_compute. reflexivity.
  - simpl. left. reflexivity.
Defined.

(** X8. Under a comparison of strings that is total and transitive,
    each of the arrays functions, callbacks and types of a result of
    [findIn] is sorted by id. *)
Theorem result_arrays_are_sorted_by_id
    (localeCompare : string -> string -> Z) (elements : list Entry)
    (term : string) (rs : list ModuleResults) (r : ModuleResults)
    (slot : Key) :
  (forall x y, (0 < localeCompare x y)%Z -> (localeCompare y x <= 0)%Z) ->
  (forall x y z, (localeCompare x y <= 0)%Z -> (localeCompare y z <= 0)%Z ->
                 (localeCompare x z <= 0)%Z) ->
  findIn localeCompare elements term = Ok rs ->
  In r rs ->
  sorted_by_id localeCompare (res_get r slot).
Proof.
  intros Htot Htrans H Hin.
  destruct (SlotFacts.findIn_In _ _ _ _ _ H Hin) as (e & _ & He).
  destruct (SlotFacts.findIn_element_arrays _ _ _ _ _ He)
    as (mt & f' & b & _ & Hf & Hc & Ht).
  destruct slot; cbn [res_get]; rewrite ?Hf, ?Hc, ?Ht;
    try (now apply SlotFacts.sortNodes_sorted).
  constructor.
Qed.

Lemma result_arrays_are_sorted_by_id_witness :
  sorted_by_id lengthCompare
    (res_get
       {| res_id := "Foo"; res_match := Some "Foo";
          res_functions :=
            Some [set_match (mkNode "bar" (Some "bar/1")) "b<em>a</em>r";
                  set_match (mkNode "is_baz" (Some "is_baz/1"))
                    "is_b<em>a</em>z"];
          res_callbacks := None; res_types := None;
          res_category := None |} functions).
Proof.
  apply (result_arrays_are_sorted_by_id lengthCompare
           [mkEntry "Foo" (Some "Foo")
              [(functions, [mkNode "is_baz" (Some "is_baz/1");
                            mkNode "bar" (Some "bar/1")])]] "a"
           [{| res_id := "Foo"; res_match := Some "Foo";
               res_functions :=
                 Some [set_match (mkNode "bar" (Some "bar/1")) "b<em>a</em>r";
                       set_match (mkNode "is_baz" (Some "is_baz/1"))
                         "is_b<em>a</em>z"];
               res_callbacks := None; res_types := None;
               res_category := None |}]).
  - unfold lengthCompare. intros x y. lia.
  - unfold lengthCompare. intros x y z. lia.
  - vm_compute. reflexivity.
  - simpl. left. reflexivity.
Defined.

(** ** What the search lists *)

(** X9. An entry whose title the term matches is listed: when the
    highlighted title is not the id of the entry, its item is among the
    results before they are sorted, and it is returned when the term is
    not blank and the search finds at most five items. *)
Theorem matched_entry_is_listed
    (localeCompare : string -> string -> Z) (sidebarNodes : SidebarNodes)
    (term : string) (c : Category) (e : Entry) (s : string) (m : Match)
    (hl : string) :
  (c = Module_ /\ In e (modules sidebarNodes))
  \/ (c = Exception /\ In e (exceptions sidebarNodes))
  \/ (c = Mix_Task /\ In e (tasks sidebarNodes)) ->
  entry_title e = Some s ->
  s <> "" ->
  str_match s (escaped_RegExp_i term) = Some m ->
  highlight (Some m) = Ok hl ->
  hl <> entry_id e ->
  let item := {| link := entry_id e ++ ".html"; title := Some hl;
                 description := None; label := None; category := Some c |} in
  exists results,
    flattened localeCompare sidebarNodes term = Ok results
    /\ In item results
    /\ (Str.trim term <> "" -> List.length results <= resultsCount ->
        exists out, getSuggestions localeCompare sidebarNodes term = Ok out
                    /\ In item out).
Proof.
  intros Hc Ht Hs Hm Hh Hne item.
  assert (Ha : and_match (entry_title e) (escaped_RegExp_i term) = Some m).
  { rewrite Ht. unfold and_match.
    destruct (String.eqb s "") eqn:E; [|exact Hm].
    apply String.eqb_eq in E. contradiction. }
  destruct (ListedFacts.flattened_In localeCompare sidebarNodes term c e item
              Hc) as (results & Hflat & Hin).
  { intros l rs He Hrs.
    assert (Hret : In e (filter (retained (escaped_RegExp_i term)) l)).
    { apply filter_In. split; [exact He|]. unfold retained. now rewrite Ha. }
    destruct (ItemFacts.Forall2_In_l _ _ _ _
                (GroupFacts.findIn_results localeCompare _ _ _ Hrs) Hret)
      as (x & Hx & Hid & _ & Hmt & _).
    exists x. split; [exact Hx|].
    destruct Hmt as [[Hn _] | (m' & hl' & Ha' & Hh' & Hx')]; [congruence|].
    assert (m' = m) by congruence. subst m'.
    assert (hl' = hl) by congruence. subst hl'.
    rewrite SortFacts.parseModuleResults_order. apply in_or_app. left.
    replace (isMatch _) with true.
    - left. unfold item, serialize. simpl. now rewrite Hid, Hx'.
    - symmetry. apply ItemFacts.isMatch_iff. simpl. rewrite Hx', Hid.
      congruence. }
  exists results. split; [exact Hflat|]. split; [exact Hin|].
  now apply ListedFacts.getSuggestions_short.
Qed.

Lemma matched_entry_is_listed_witness :
  exists results,
    flattened codeUnitCompare FooBar "foo" = Ok results
    /\ In FooBar_item results
    /\ (Str.trim "foo" <> "" -> List.length results <= resultsCount ->
        exists out, getSuggestions codeUnitCompare FooBar "foo" = Ok out
                    /\ In FooBar_item out).
Proof.
  apply (matched_entry_is_listed codeUnitCompare FooBar "foo" Module_
           (mkEntry "FooBar" (Some "FooBar") []) "FooBar"
           {| m_0 := "Foo"; m_index := 0; m_input := "FooBar" |}
           "<em>Foo</em>Bar").
  - left. split; [reflexivity|]. simpl. left. reflexivity.
  - reflexivity.
  - discriminate.
  - vm_compute. reflexivity.
  - vm_compute. reflexivity.
  - discriminate.
Defined.

(** X10. A node whose id the term matches is listed: when it is the
    first node of its id in the entry, its id is not the name of a
    property of [Object.prototype], no later group under a custom key
    replaces the functions it is stored in, and the highlighted id is
    not the id itself, its Child item is among the results before they
    are sorted, and it is returned when the term is not blank and the
    search finds at most five items. *)
Theorem matched_node_is_listed
    (localeCompare : string -> string -> Z) (sidebarNodes : SidebarNodes)
    (term : string) (c : Category) (e : Entry)
    (before after : list (Key * list Node)) (key : Key)
    (ns1 ns2 : list Node) (n : Node) (m : Match) (hl : string) :
  (c = Module_ /\ In e (modules sidebarNodes))
  \/ (c = Exception /\ In e (exceptions sidebarNodes))
  \/ (c = Mix_Task /\ In e (tasks sidebarNodes)) ->
  entry_nodeGroups e = (before ++ (key, ns1 ++ n :: ns2) :: after)%list ->
  ~ In (node_id n) (map node_id (flat_map snd before ++ ns1)) ->
  inherited (node_id n) = false ->
  (slot_of key = functions ->
   Forall (fun g => fst g = other -> group_has_node g = false) after) ->
  node_id n <> "" ->
  str_match (node_id n) (escaped_RegExp_i term) = Some m ->
  highlight (Some m) = Ok hl ->
  hl <> node_id n ->
  let item :=
    {| link := if truthy (node_anchor n)
               then entry_id e ++ ".html#" ++ ToString (node_anchor n)
               else entry_id e ++ ".html";
       title := Some hl;
       description := Some (entry_id e);
       label := match slot_of key with
                | types => Some "type"
                | callbacks => Some "callback"
                | _ => if truthy (node_label n) then node_label n else None
                end;
       category := Some Child |} in
  exists results,
    flattened localeCompare sidebarNodes term = Ok results
    /\ In item results
    /\ (Str.trim term <> "" -> List.length results <= resultsCount ->
        exists out, getSuggestions localeCompare sidebarNodes term = Ok out
                    /\ In item out).
Proof.
  intros Hc Hgs Hfirst Hi Hno Hid Hm Hh Hne item.
  assert (Ha : and_match (Some (node_id n)) (escaped_RegExp_i term) = Some m).
  { unfold and_match. destruct (String.eqb (node_id n) "") eqn:E; [|exact Hm].
    apply String.eqb_eq in E. contradiction. }
  destruct (ListedFacts.findIn_element_records_match localeCompare term e
              before after key ns1 ns2 n m hl Hgs Hfirst Hi Hno Ha Hh)
    as (x & Hx & Hv).
  assert (Hidx : res_id x = entry_id e).
  { apply GroupFacts.findIn_element_result in Hx. apply Hx. }
  destruct (ListedFacts.flattened_In localeCompare sidebarNodes term c e item
              Hc) as (results & Hflat & Hin).
  { intros l rs He Hrs. exists x. split.
    - clear - He Hrs Hx. revert rs Hrs. unfold findIn.
      induction l as [|a l IH]; intros rs Hrs; [destruct He|].
      cbn [map_filter] in Hrs.
      destruct (findIn_element localeCompare (escaped_RegExp_i term) term a)
        as [r|] eqn:Er; [|discriminate].
      cbn [bind] in Hrs.
      destruct (map_filter localeCompare (escaped_RegExp_i term) term l)
        as [rs'|]; [|discriminate].
      cbn [bind] in Hrs. injection Hrs as <-.
      destruct He as [-> | He].
      + rewrite Hx in Er. injection Er as <-. now left.
      + specialize (IH He _ eq_refl). destruct r; [now right | exact IH].
    - rewrite SortFacts.parseModuleResults_order. apply in_or_app. right.
      cbn [with_category res_id res_functions res_callbacks res_types].
      rewrite Hidx.
      assert (Hser : forall v,
                 node_anchor v = node_anchor n -> node_match v = Some hl ->
                 node_id v = node_id n ->
                 (if truthy (node_label v) then node_label v else None)
                 = label item ->
                 In v (or_empty (res_functions x)
                       ++ addLabel (or_empty (res_callbacks x)) "callback"
                       ++ addLabel (or_empty (res_types x)) "type")%list ->
                 In item
                   (map (fun item0 =>
                           serialize (Item_of_Node item0) (entry_id e) true)
                      (filter (fun item0 => isMatch (Item_of_Node item0))
                         (or_empty (res_functions x)
                          ++ addLabel (or_empty (res_callbacks x)) "callback"
                          ++ addLabel (or_empty (res_types x)) "type")%list))).
      { intros v E1 E2 E3 E4 Hin. apply in_map_iff. exists v. split.
        - rewrite ItemFacts.serialize_child, E1, E2, E4. reflexivity.
        - apply filter_In. split; [exact Hin|].
          apply ItemFacts.isMatch_iff. simpl. rewrite E2, E3. congruence. }
      destruct key; cbn [slot_of res_get] in Hv.
      + apply (Hser (set_match (JSON_copy n) hl)); try reflexivity.
        apply in_or_app. now left.
      + apply (Hser (set_label (set_match (JSON_copy n) hl) "callback"));
          try reflexivity.
        apply in_or_app. right. apply in_or_app. left.
        unfold addLabel. now apply (in_map (fun v => set_label v "callback")).
      + apply (Hser (set_label (set_match (JSON_copy n) hl) "type"));
          try reflexivity.
        apply in_or_app. right. apply in_or_app. right.
        unfold addLabel. now apply (in_map (fun v => set_label v "type")).
      + apply (Hser (set_match (JSON_copy n) hl)); try reflexivity.
        apply in_or_app. now left. }
  exists results. split; [exact Hflat|]. split; [exact Hin|].
  now apply ListedFacts.getSuggestions_short.
Qed.

Lemma matched_node_is_listed_witness :
  exists results,
    flattened codeUnitCompare Foo_bar "bar" = Ok results
    /\ In bar_item results
    /\ (Str.trim "bar" <> "" -> List.length results <= resultsCount ->
        exists out, getSuggestions codeUnitCompare Foo_bar "bar" = Ok out
                    /\ In bar_item out).
Proof.
  apply (matched_node_is_listed codeUnitCompare Foo_bar "bar" Module_
           (mkEntry "Foo" (Some "Foo")
              [(functions, [mkNode "bar" (Some "bar/1")])])
           [] [] functions [] [] (mkNode "bar" (Some "bar/1"))
           {| m_0 := "bar"; m_index := 0; m_input := "bar" |}
           "<em>bar</em>").
  - left. split; [reflexivity|]. simpl. left. reflexivity.
  - reflexivity.
  - simpl. tauto.
  - reflexivity.
  - intros _. constructor.
  - discriminate.
  - vm_compute. reflexivity.
  - vm_compute. reflexivity.
  - discriminate.
Defined.

(* ================================================================== *)
(** * Properties of the tooltips *)

(** ** Occurrences of a text *)

Module OccurFacts.
Import Str StrFacts MatchFacts.

Lemma starts_exact (pat s : string) :
  starts Ascii.eqb pat s = true <-> exists rest, s = pat ++ rest.
Proof.
  revert s. induction pat as [|p pat IH]; intros s; simpl.
  - split; [eauto | reflexivity].
  - destruct s as [|c s].
    + split; [discriminate | intros (rest & H); discriminate].
    + rewrite andb_true_iff, IH, Ascii.eqb_eq. split.
      * intros (-> & rest & ->). eauto.
      * intros (rest & H). injection H as -> ->. eauto.
Qed.

Lemma indexOf_0 (needle s : string) :
  Str.indexOf needle s = Some 0 <-> exists rest, s = needle ++ rest.
Proof.
  rewrite <- starts_exact. unfold Str.indexOf. split.
  - intros H. apply search_Some in H as (k & Hk & _ & Hs & _).
    assert (k = 0) by lia. subst k. now rewrite drop_0 in Hs.
  - intros H. apply (search_first Ascii.eqb needle s 0 0).
    + now rewrite drop_0.
    + intros k' Hk'. lia.
Qed.

Lemma drop_append_exact (a b : string) : drop (String.length a) (a ++ b) = b.
Proof. apply drop_append_length. Qed.

Lemma indexOf_Some (needle s : string) (k : nat) :
  Str.indexOf needle s = Some k ->
  exists rest, s = take k s ++ needle ++ rest /\ k <= String.length s.
Proof.
  unfold Str.indexOf. intros H.
  apply search_Some in H as (k0 & Hk & Hle & Hs & _). simpl in Hk. subst k0.
  apply starts_exact in Hs as (rest & Hs). exists rest.
  split; [|exact Hle]. rewrite <- Hs. symmetry. apply take_drop.
Qed.

Lemma occurs (needle s : string) :
  Str.indexOf needle s <> None <-> exists a b, s = a ++ needle ++ b.
Proof.
  split.
  - destruct (Str.indexOf needle s) as [k|] eqn:E; [|congruence].
    intros _. apply indexOf_Some in E as (rest & E & _). eauto.
  - intros (a & b & ->). unfold Str.indexOf.
    apply (search_found Ascii.eqb needle _ 0 (String.length a)).
    rewrite drop_append_length. apply starts_exact. eauto.
Qed.

Lemma not_occurs (needle s : string) :
  Str.indexOf needle s = None <-> forall a b, s <> a ++ needle ++ b.
Proof.
  split.
  - intros H a b E. apply (proj2 (occurs needle s)); [eauto | exact H].
  - intros H. destruct (Str.indexOf needle s) as [k|] eqn:E; [|reflexivity].
    apply indexOf_Some in E as (rest & E & _). now apply H in E.
Qed.

Lemma occurs_append (needle a b c : string) :
  Str.indexOf needle b <> None -> Str.indexOf needle (a ++ b ++ c) <> None.
Proof.
  rewrite !occurs. intros (x & y & ->). exists (a ++ x), (y ++ c).
  now rewrite !append_assoc.
Qed.

(** An occurrence of [.html] that starts before the end of [a] in
    [a ++ ".html" ++ b] lies in [a]: the dot is the first character
    of [.html] only. *)
Lemma html_overlap (x rest : string) :
  x <> "" ->
  starts Ascii.eqb ".html" (x ++ ".html" ++ rest) = true ->
  starts Ascii.eqb ".html" x = true.
Proof.
  intros Hx.
  destruct x as [|c1 [|c2 [|c3 [|c4 [|c5 x]]]]]; [contradiction| | | | |];
    simpl;
    repeat match goal with
           | |- context [Ascii.eqb ?a ?b] =>
               destruct (Ascii.eqb a b) eqn:?; simpl; try discriminate
           end;
    auto.
Qed.

Lemma drop_append_lt (k : nat) (a b : string) :
  k < String.length a ->
  drop k (a ++ b) = drop k a ++ b /\ drop k a <> "".
Proof.
  intros Hk. split; [apply drop_append_le; lia|].
  intros E. pose proof (length_drop k a) as L. rewrite E in L. simpl in L. lia.
Qed.

Lemma indexOf_first_html (a b : string) :
  Str.indexOf ".html" a = None ->
  Str.indexOf ".html" (a ++ ".html" ++ b) = Some (String.length a).
Proof.
  intros Ha. unfold Str.indexOf.
  apply (search_first Ascii.eqb ".html" _ 0 (String.length a)).
  - rewrite drop_append_length. apply starts_exact. eauto.
  - intros k Hk. destruct (drop_append_lt k a (".html" ++ b) Hk) as [-> Hne].
    destruct (starts Ascii.eqb ".html" (drop k a ++ ".html" ++ b)) eqn:E;
      [|reflexivity].
    apply html_overlap in E; [|exact Hne].
    unfold Str.indexOf in Ha. apply search_None with (k := k) in Ha.
    congruence.
Qed.

End OccurFacts.

(** ** Tooltips *)

Module TooltipFacts.
Import Str StrFacts MatchFacts OccurFacts Tooltips.

Lemma indexOf_eq_0 (s needle : string) :
  (Tooltips.indexOf s needle =? 0)%Z = true <-> exists rest, s = needle ++ rest.
Proof.
  rewrite <- indexOf_0. unfold Tooltips.indexOf.
  destruct (Str.indexOf needle s) as [k|]; rewrite Z.eqb_eq.
  - split; [intros H; f_equal; lia | intros H; injection H as ->; reflexivity].
  - split; [lia | discriminate].
Qed.

Lemma indexOf_ge_0 (s needle : string) :
  (Tooltips.indexOf s needle >=? 0)%Z = true <-> Str.indexOf needle s <> None.
Proof.
  unfold Tooltips.indexOf. rewrite Z.geb_le.
  destruct (Str.indexOf needle s) as [k|]; split; try congruence; try lia.
Qed.

Lemma isTypesPageLink_occurs (href : string) :
  isTypesPageLink href = true -> Str.indexOf ".html" href <> None.
Proof.
  unfold isTypesPageLink. rewrite orb_true_iff, indexOf_eq_0, indexOf_ge_0.
  rewrite !occurs.
  intros [(rest & ->) | (a & b & ->)].
  - exists "typespecs", rest. reflexivity.
  - exists (a ++ "/typespecs"), b. rewrite (append_assoc a). reflexivity.
Qed.

(** *** The characters that [encodeURIComponent] writes *)

Lemma encodeUnit_written (c : ascii) : all_chars written (encodeUnit c) = true.
Proof. destruct c as [[] [] [] [] [] [] [] []]; vm_compute; reflexivity. Qed.

Lemma encodeURIComponent_written (s : string) :
  all_chars written (encodeURIComponent s) = true.
Proof.
  induction s as [|c s IH]; [reflexivity|]. simpl.
  now rewrite all_chars_append, encodeUnit_written, IH.
Qed.

Lemma all_chars_weaken (P Q : ascii -> bool) (s : string) :
  (forall c, P c = true -> Q c = true) ->
  all_chars P s = true -> all_chars Q s = true.
Proof.
  intros H. induction s as [|c s IH]; simpl; [reflexivity|].
  rewrite !andb_true_iff. intros [H1 H2]. auto.
Qed.

Lemma written_no_dollar (c : ascii) :
  written c = true -> negb (Ascii.eqb c "$") = true.
Proof. destruct c as [[] [] [] [] [] [] [] []]; vm_compute; congruence. Qed.

Lemma encodeURIComponent_no_dollar (s : string) :
  no_dollar (encodeURIComponent s) = true.
Proof.
  unfold no_dollar. apply (all_chars_weaken written); [|
    apply encodeURIComponent_written].
  apply written_no_dollar.
Qed.

Lemma no_dollar_append (a b : string) :
  no_dollar (a ++ b) = no_dollar a && no_dollar b.
Proof. apply all_chars_append. Qed.

(** *** The storage *)

Lemma lookup_store (key value : string) (l : list (string * string)) :
  lookup key (store key value l) = Some value.
Proof.
  induction l as [|[k v] l IH]; simpl; [now rewrite String.eqb_refl|].
  destruct (String.eqb k key) eqn:E; simpl; rewrite E; auto.
Qed.

Lemma lookup_store_other (key value k : string) (l : list (string * string)) :
  k <> key -> lookup k (store key value l) = lookup k l.
Proof.
  intros Hk. induction l as [|[k0 v] l IH]; simpl.
  - destruct (String.eqb key k) eqn:E; [|reflexivity].
    apply String.eqb_eq in E. congruence.
  - destruct (String.eqb k0 key) eqn:E; simpl.
    + apply String.eqb_eq in E. subst k0.
      destruct (String.eqb key k) eqn:E'; [|reflexivity].
      apply String.eqb_eq in E'. congruence.
    + now rewrite IH.
Qed.

Lemma lookup_remove (key : string) (l : list (string * string)) :
  lookup key (remove key l) = None.
Proof.
  induction l as [|[k v] l IH]; simpl; [reflexivity|].
  destruct (String.eqb k key) eqn:E; simpl; [exact IH|]. now rewrite E.
Qed.

Lemma lookup_remove_other (key k : string) (l : list (string * string)) :
  k <> key -> lookup k (remove key l) = lookup k l.
Proof.
  intros Hk. induction l as [|[k0 v] l IH]; simpl; [reflexivity|].
  destruct (String.eqb k0 key) eqn:E; simpl.
  - apply String.eqb_eq in E. subst k0.
    destruct (String.eqb key k) eqn:E'; [|exact IH].
    apply String.eqb_eq in E'. congruence.
  - now rewrite IH.
Qed.

Lemma areTooltipsDisabled_updateToggleLink (p : Page) :
  areTooltipsDisabled (updateToggleLink p) = areTooltipsDisabled p.
Proof. reflexivity. Qed.

Lemma toggles_updateToggleLink (p : Page) :
  Forall (fun a => a = Some (Boolean_toString (areTooltipsDisabled p)))
    (toggles (updateToggleLink p))
  /\ List.length (toggles (updateToggleLink p)) = List.length (toggles p).
Proof.
  unfold updateToggleLink. simpl. split; [|apply length_map].
  apply Forall_forall. intros a Ha. apply in_map_iff in Ha as (x & <- & _).
  reflexivity.
Qed.

End TooltipFacts.

(** ** Links of the tooltips *)

(** X11. [isTypesPageLink] accepts exactly the links that begin with
    [typespecs.html] or contain [/typespecs.html]. *)
Theorem types_page_links_are_recognised (href : string) :
  Tooltips.isTypesPageLink href = true
  <-> (exists rest, href = Tooltips.typesPage ++ rest)
      \/ (exists a b, href = a ++ "/" ++ Tooltips.typesPage ++ b).
Proof.
  unfold Tooltips.isTypesPageLink.
  rewrite orb_true_iff, TooltipFacts.indexOf_eq_0, TooltipFacts.indexOf_ge_0.
  rewrite OccurFacts.occurs. reflexivity.
Qed.

(** X12. [rewriteHref] returns a link in which [.html] does not occur
    as it is, whatever the hovered link and the request id are. *)
Theorem rewriteHref_keeps_links_without_html
    (g : Tooltips.Globals) (href : string) :
  (forall a b, href <> a ++ ".html" ++ b) ->
  Tooltips.rewriteHref g href = Ok href.
Proof.
  intros H. apply OccurFacts.not_occurs in H. unfold Tooltips.rewriteHref.
  destruct (Tooltips.isTypesPageLink href) eqn:E.
  - apply TooltipFacts.isTypesPageLink_occurs in E. contradiction.
  - cbn [bind]. unfold Str.replace. now rewrite H.
Qed.

Lemma rewriteHref_keeps_links_without_html_witness :
  Tooltips.rewriteHref Tooltips.String_t_link "https://hexdocs.pm/"
  = Ok "https://hexdocs.pm/".
Proof.
  apply (rewriteHref_keeps_links_without_html Tooltips.String_t_link
           "https://hexdocs.pm/").
  apply OccurFacts.not_occurs. vm_compute. reflexivity.
Defined.

(** X13. [rewriteHref] puts the query after the first [.html] of the
    link and leaves the text before and after it as it is: with a
    hovered link and a request id without [$], the link [a.html b],
    where [.html] does not occur in [a], becomes
    [a.html?hint=true&requestId=ID b], with [&typeName=] and the
    encoded text of the hovered link after the id when the link is one
    to the types page. *)
Theorem rewriteHref_inserts_query_after_first_html
    (g : Tooltips.Globals) (link : Tooltips.Link) (a b : string) :
  (forall x y, a <> x ++ ".html" ++ y) ->
  Tooltips.currentLinkElement g = Some link ->
  no_dollar (Tooltips.ToString_null (Tooltips.currentRequestId g)) = true ->
  Tooltips.rewriteHref g (a ++ ".html" ++ b)
  = Ok (a ++ ".html?hint=true&requestId="
          ++ Tooltips.ToString_null (Tooltips.currentRequestId g)
          ++ (if Tooltips.isTypesPageLink (a ++ ".html" ++ b)
              then "&typeName="
                   ++ Tooltips.encodeURIComponent (Tooltips.text link)
              else "")
          ++ b).
Proof.
  intros Ha Hl Hd. apply OccurFacts.not_occurs in Ha.
  unfold Tooltips.rewriteHref. rewrite Hl.
  set (typeInfo := if Tooltips.isTypesPageLink (a ++ ".html" ++ b)
                   then "&typeName="
                        ++ Tooltips.encodeURIComponent (Tooltips.text link)
                   else "").
  assert (Hinfo : (if Tooltips.isTypesPageLink (a ++ ".html" ++ b)
                   then Ok ("&typeName="
                            ++ Tooltips.encodeURIComponent
                                 (Tooltips.text link))
                   else Ok "") = Ok typeInfo)
    by (unfold typeInfo; now destruct (Tooltips.isTypesPageLink _)).
  rewrite Hinfo. cbn [bind]. f_equal. unfold Str.replace.
  rewrite (OccurFacts.indexOf_first_html a b Ha).
  rewrite StrFacts.take_append_length.
  replace (String.length a + String.length ".html")
    with (String.length (a ++ ".html"))
    by apply StrFacts.length_append.
  replace (a ++ ".html" ++ b) with ((a ++ ".html") ++ b)
    by apply StrFacts.append_assoc.
  rewrite StrFacts.drop_append_length.
  rewrite MatchFacts.GetSubstitution_no_dollar.
  - now rewrite !StrFacts.append_assoc.
  - change (no_dollar
              (".html?hint=true&requestId="
                 ++ (Tooltips.ToString_null (Tooltips.currentRequestId g)
                       ++ typeInfo)) = true).
    rewrite !TooltipFacts.no_dollar_append, Hd. simpl.
    unfold typeInfo. destruct (Tooltips.isTypesPageLink _); [|reflexivity].
    rewrite TooltipFacts.no_dollar_append.
    now rewrite TooltipFacts.encodeURIComponent_no_dollar.
Qed.

Lemma rewriteHref_inserts_query_after_first_html_witness :
  Tooltips.rewriteHref Tooltips.String_t_link
    ("String" ++ ".html" ++ "#t:t/0")
  = Ok ("String" ++ ".html?hint=true&requestId="
          ++ Tooltips.ToString_null
               (Tooltips.currentRequestId Tooltips.String_t_link)
          ++ (if Tooltips.isTypesPageLink ("String" ++ ".html" ++ "#t:t/0")
              then "&typeName="
                   ++ Tooltips.encodeURIComponent
                        (Tooltips.text {| Tooltips.text := "String.t" |})
              else "")
          ++ "#t:t/0").
Proof.
  apply (rewriteHref_inserts_query_after_first_html Tooltips.String_t_link
           {| Tooltips.text := "String.t" |} "String" "#t:t/0").
  - apply OccurFacts.not_occurs. vm_compute. reflexivity.
  - reflexivity.
  - vm_compute. reflexivity.
Defined.

(** ** The switch of the tooltips *)

(** X14. With a storage that can be read and written,
    [toggleTooltipsDisabled] turns the answer of [areTooltipsDisabled]
    into its opposite and leaves every other key of the storage as it
    was. *)
Theorem toggle_flips_the_stored_choice (p : Tooltips.Page) :
  Tooltips.accessible (Tooltips.localStorage p) = true ->
  Tooltips.writable (Tooltips.localStorage p) = true ->
  Tooltips.areTooltipsDisabled (Tooltips.toggleTooltipsDisabled p)
  = negb (Tooltips.areTooltipsDisabled p)
  /\ forall key,
       key <> Tooltips.tooltipsDisabledStorageKey ->
       Tooltips.getItem
         (Tooltips.localStorage (Tooltips.toggleTooltipsDisabled p)) key
       = Tooltips.getItem (Tooltips.localStorage p) key.
Proof.
  intros Ha Hw. unfold Tooltips.toggleTooltipsDisabled.
  destruct (Tooltips.areTooltipsDisabled p) eqn:E.
  - unfold Tooltips.activateTooltips, Tooltips.removeItem. rewrite Ha.
    cbn [Tooltips.try_catch]. unfold Tooltips.areTooltipsDisabled.
    unfold Tooltips.getItem. cbn. rewrite Ha. split.
    + now rewrite TooltipFacts.lookup_remove.
    + intros key Hk. now rewrite TooltipFacts.lookup_remove_other.
  - unfold Tooltips.deactivateTooltips, Tooltips.setItem. rewrite Ha, Hw.
    cbn [andb Tooltips.try_catch]. unfold Tooltips.areTooltipsDisabled.
    unfold Tooltips.getItem. cbn. rewrite Ha. split.
    + now rewrite TooltipFacts.lookup_store.
    + intros key Hk. now rewrite TooltipFacts.lookup_store_other.
Qed.

Lemma toggle_flips_the_stored_choice_witness :
  Tooltips.areTooltipsDisabled
    (Tooltips.toggleTooltipsDisabled Tooltips.fresh_page)
  = negb (Tooltips.areTooltipsDisabled Tooltips.fresh_page)
  /\ forall key,
       key <> Tooltips.tooltipsDisabledStorageKey ->
       Tooltips.getItem
         (Tooltips.localStorage
            (Tooltips.toggleTooltipsDisabled Tooltips.fresh_page)) key
       = Tooltips.getItem (Tooltips.localStorage Tooltips.fresh_page) key.
Proof.
  apply (toggle_flips_the_stored_choice Tooltips.fresh_page); reflexivity.
Defined.

(** X15. After [activateTooltips], [deactivateTooltips] and
    [toggleTooltipsDisabled], whether the storage works or not, the
    [data-is-disabled] attribute of every toggle link is the text of
    what [areTooltipsDisabled] answers from then on, and there are as
    many toggle links as before. *)
Theorem toggle_links_show_the_stored_choice (p : Tooltips.Page) :
  let shows q :=
    Forall (fun a =>
              a = Some (Tooltips.Boolean_toString
                          (Tooltips.areTooltipsDisabled q)))
      (Tooltips.toggles q)
    /\ List.length (Tooltips.toggles q) = List.length (Tooltips.toggles p) in
  shows (Tooltips.activateTooltips p)
  /\ shows (Tooltips.deactivateTooltips p)
  /\ shows (Tooltips.toggleTooltipsDisabled p).
Proof.
  intros shows. destruct p as [st tg].
  assert (Hup : forall s,
             shows (Tooltips.updateToggleLink
                      {| Tooltips.localStorage := s;
                         Tooltips.toggles := tg |})).
  { intros s. unfold shows.
    rewrite TooltipFacts.areTooltipsDisabled_updateToggleLink.
    exact (TooltipFacts.toggles_updateToggleLink
             {| Tooltips.localStorage := s; Tooltips.toggles := tg |}). }
  assert (Hact : shows (Tooltips.activateTooltips
                          {| Tooltips.localStorage := st;
                             Tooltips.toggles := tg |})).
  { unfold Tooltips.activateTooltips.
    destruct (Tooltips.removeItem _ _) as [s|];
      cbn [Tooltips.try_catch Tooltips.toggles]; apply Hup. }
  assert (Hde : shows (Tooltips.deactivateTooltips
                         {| Tooltips.localStorage := st;
                            Tooltips.toggles := tg |})).
  { unfold Tooltips.deactivateTooltips.
    destruct (Tooltips.setItem _ _ _) as [s|];
      cbn [Tooltips.try_catch Tooltips.toggles]; apply Hup. }
  split; [exact Hact|]. split; [exact Hde|].
  unfold Tooltips.toggleTooltipsDisabled.
  now destruct (Tooltips.areTooltipsDisabled _).
Qed.

(** X16. Tooltips cannot be switched off when the storage cannot be
    written: [deactivateTooltips] then leaves the storage and the
    answer of [areTooltipsDisabled] as they were, and after
    [activateTooltips] tooltips are enabled in every case. *)
Theorem unwritable_storage_ignores_deactivation (p : Tooltips.Page) :
  Tooltips.accessible (Tooltips.localStorage p)
  && Tooltips.writable (Tooltips.localStorage p) = false ->
  Tooltips.localStorage (Tooltips.deactivateTooltips p)
  = Tooltips.localStorage p
  /\ Tooltips.areTooltipsDisabled (Tooltips.deactivateTooltips p)
     = Tooltips.areTooltipsDisabled p
  /\ Tooltips.areTooltipsDisabled (Tooltips.activateTooltips p) = false
  /\ Tooltips.areTooltipsDisabled
       (Tooltips.deactivateTooltips (Tooltips.activateTooltips p)) = false.
Proof.
  intros H. destruct p as [[acc wr its] tg]. cbn in H.
  unfold Tooltips.deactivateTooltips, Tooltips.activateTooltips,
    Tooltips.setItem, Tooltips.removeItem, Tooltips.areTooltipsDisabled,
    Tooltips.getItem.
  cbn -[Tooltips.lookup Tooltips.remove]. rewrite H.
  cbn -[Tooltips.lookup Tooltips.remove].
  destruct acc; cbn -[Tooltips.lookup Tooltips.remove].
  - cbn in H. subst wr. cbn -[Tooltips.lookup Tooltips.remove].
    rewrite TooltipFacts.lookup_remove. auto.
  - auto.
Qed.

Lemma unwritable_storage_ignores_deactivation_witness :
  Tooltips.localStorage (Tooltips.deactivateTooltips Tooltips.full_page)
  = Tooltips.localStorage Tooltips.full_page
  /\ Tooltips.areTooltipsDisabled
       (Tooltips.deactivateTooltips Tooltips.full_page)
     = Tooltips.areTooltipsDisabled Tooltips.full_page
  /\ Tooltips.areTooltipsDisabled
       (Tooltips.activateTooltips Tooltips.full_page) = false
  /\ Tooltips.areTooltipsDisabled
       (Tooltips.deactivateTooltips
          (Tooltips.activateTooltips Tooltips.full_page)) = false.
Proof.
  apply (unwritable_storage_ignores_deactivation Tooltips.full_page).
  reflexivity.
Defined.
